(** * Workflow checkpointing for crash recovery

    A shallow embedding of [sdk/src/autonomi/checkpoint.py]: the checkpoint
    record, the two storage backends (the in-memory dictionary and the SQLite
    table), the [Checkpointer] with its recovery-point selection, and the
    [CheckpointContext] scope, followed by the properties of the
    specification that concern them. *)

From stdpp Require Import base list strings pretty gmap sorting.
From Stdlib Require Import ZArith Lia Sorting.Sorted Ascii.

Set Default Proof Using "Type".
Set Warnings "-register-all".

(** ** Enumerations *)

(** [class CheckpointStatus(str, Enum)] *)
Inductive CheckpointStatus :=
  | PENDING
  | IN_PROGRESS
  | COMPLETED
  | FAILED
  | RECOVERED.

(** [class RecoveryMode(str, Enum)] *)
Inductive RecoveryMode :=
  | RESUME_FROM_LAST
  | RESTART_TASK
  | SKIP_FAILED
  | MANUAL.

Global Instance CheckpointStatus_eq_dec : EqDecision CheckpointStatus.
Proof. solve_decision. Defined.

Global Instance RecoveryMode_eq_dec : EqDecision RecoveryMode.
Proof. solve_decision. Defined.

(** The [.value] of a status member, the text stored in the table. *)
Definition status_value (s : CheckpointStatus) : string :=
  match s with
  | PENDING => "pending"
  | IN_PROGRESS => "in_progress"
  | COMPLETED => "completed"
  | FAILED => "failed"
  | RECOVERED => "recovered"
  end.

(** ** Python values and exceptions *)

(** The payloads ([Dict[str, Any]], [Optional[Dict[str, Any]]]) are Python
    values; this is the part of them that JSON can carry.  [VNone] is
    [None], [VDict] keeps the insertion order of the dictionary. *)
Inductive value :=
  | VNone
  | VBool (b : bool)
  | VInt (n : Z)
  | VStr (s : string)
  | VList (l : list value)
  | VDict (d : list (string * value)).

(** Truth value of an object, as tested by [x if v else y] and [v or y]. *)
Definition truthy (v : value) : bool :=
  match v with
  | VNone => false
  | VBool b => b
  | VInt n => negb (n =? 0)%Z
  | VStr s => negb (String.eqb s "")
  | VList l => match l with [] => false | _ => true end
  | VDict d => match d with [] => false | _ => true end
  end.

(** Truth value of a nullable TEXT column read back from a row. *)
Definition column_truthy (c : option string) : bool :=
  match c with
  | None => false
  | Some s => negb (String.eqb s "")
  end.

Inductive exn :=
  | ValueError (msg : string)
  | JSONDecodeError (doc : string).

(** The outcome of a call that may raise. *)
Inductive result (A : Type) :=
  | Ok (a : A)
  | Raise (e : exn).
Arguments Ok {A} a.
Arguments Raise {A} e.

(** Sequencing: an exception ends the computation. *)
Global Instance result_bind : MBind result := λ A B k r,
  match r with
  | Ok a => k a
  | Raise e => Raise e
  end.

Fixpoint rmap_list {A B} (f : A → result B) (l : list A) : result (list B) :=
  match l with
  | [] => Ok []
  | a :: l' => b ← f a; bs ← rmap_list f l'; Ok (b :: bs)
  end.

(** [CheckpointStatus(tag)]: the member with that value, or [ValueError]. *)
Definition CheckpointStatus_of_value (tag : string) : result CheckpointStatus :=
  if decide (tag = "pending") then Ok PENDING
  else if decide (tag = "in_progress") then Ok IN_PROGRESS
  else if decide (tag = "completed") then Ok COMPLETED
  else if decide (tag = "failed") then Ok FAILED
  else if decide (tag = "recovered") then Ok RECOVERED
  else Raise (ValueError tag).

(** ** The clock *)

(** [datetime.utcnow().isoformat()] reads the wall clock.  The readings are
    given by the environment; [ticks] counts the reads made so far. *)
Record Clock := {
  readings : nat → string;
  ticks : nat
}.

Definition utcnow_isoformat (k : Clock) : string * Clock :=
  (readings k (ticks k), {| readings := readings k; ticks := S (ticks k) |}).

(** ** The checkpoint record *)

(** [@dataclass class Checkpoint] *)
Record Checkpoint := {
  id : string;
  workflow_id : string;
  step_name : string;
  step_index : Z;
  status : CheckpointStatus;
  input_data : value;
  output_data : value;
  error : option string;
  created_at : string;
  updated_at : string;
  metadata : value
}.

(** Attribute assignments [checkpoint.f = v]. *)
Definition set_status (s : CheckpointStatus) (c : Checkpoint) : Checkpoint :=
  {| id := id c; workflow_id := workflow_id c; step_name := step_name c;
     step_index := step_index c; status := s; input_data := input_data c;
     output_data := output_data c; error := error c;
     created_at := created_at c; updated_at := updated_at c;
     metadata := metadata c |}.

Definition set_output_data (o : value) (c : Checkpoint) : Checkpoint :=
  {| id := id c; workflow_id := workflow_id c; step_name := step_name c;
     step_index := step_index c; status := status c; input_data := input_data c;
     output_data := o; error := error c;
     created_at := created_at c; updated_at := updated_at c;
     metadata := metadata c |}.

Definition set_error (e : option string) (c : Checkpoint) : Checkpoint :=
  {| id := id c; workflow_id := workflow_id c; step_name := step_name c;
     step_index := step_index c; status := status c; input_data := input_data c;
     output_data := output_data c; error := e;
     created_at := created_at c; updated_at := updated_at c;
     metadata := metadata c |}.

Definition set_updated_at (t : string) (c : Checkpoint) : Checkpoint :=
  {| id := id c; workflow_id := workflow_id c; step_name := step_name c;
     step_index := step_index c; status := status c; input_data := input_data c;
     output_data := output_data c; error := error c;
     created_at := created_at c; updated_at := t;
     metadata := metadata c |}.

(** The generated [__init__] as [checkpoint_start] calls it: [output_data]
    and [error] take their default [None]; the default factories of
    [created_at] and [updated_at] each read the clock, in field order. *)
Definition Checkpoint_init (id0 workflow_id0 step_name0 : string)
    (step_index0 : Z) (status0 : CheckpointStatus) (input_data0 metadata0 : value)
    (k : Clock) : Checkpoint * Clock :=
  let '(created, k1) := utcnow_isoformat k in
  let '(updated, k2) := utcnow_isoformat k1 in
  ({| id := id0; workflow_id := workflow_id0; step_name := step_name0;
      step_index := step_index0; status := status0; input_data := input_data0;
      output_data := VNone; error := None;
      created_at := created; updated_at := updated;
      metadata := metadata0 |}, k2).

(** ** Dictionaries and sorting *)

(** A [dict] keeps its keys in order of first insertion. *)
Section dict.
Context {V : Type}.

(** [d[k] = v] *)
Fixpoint dict_set (k : string) (v : V) (d : list (string * V)) : list (string * V) :=
  match d with
  | [] => [(k, v)]
  | (k', v') :: d' =>
      if decide (k' = k) then (k, v) :: d' else (k', v') :: dict_set k v d'
  end.

(** [d.get(k)] *)
Fixpoint dict_get (k : string) (d : list (string * V)) : option V :=
  match d with
  | [] => None
  | (k', v') :: d' => if decide (k' = k) then Some v' else dict_get k d'
  end.

(** [del d[k]], for a key that the dictionary has. *)
Fixpoint dict_del (k : string) (d : list (string * V)) : list (string * V) :=
  match d with
  | [] => []
  | (k', v') :: d' => if decide (k' = k) then d' else (k', v') :: dict_del k d'
  end.

Definition dict_keys (d : list (string * V)) : list string := d.*1.
Definition dict_values (d : list (string * V)) : list V := d.*2.

(** What every dictionary satisfies: a key occurs once. *)
Definition dict_ok (d : list (string * V)) : Prop := NoDup (dict_keys d).
End dict.

(** [sorted(l, key=key)]: a stable sort, written as insertion from the
    right, an element going before the first one whose key is not smaller. *)
Section sorted.
Context {A : Type} (key : A → Z).

Fixpoint insert_by_key (x : A) (l : list A) : list A :=
  match l with
  | [] => [x]
  | y :: l' =>
      if (key x <=? key y)%Z then x :: y :: l' else y :: insert_by_key x l'
  end.

Fixpoint sorted_by_key (l : list A) : list A :=
  match l with
  | [] => []
  | x :: l' => insert_by_key x (sorted_by_key l')
  end.

(** Ascending by key, every element against all later ones. *)
Definition ascending (l : list A) : Prop :=
  StronglySorted (λ a b, (key a ≤ key b)%Z) l.
End sorted.

(** ** Exceptions of writes and of bodies *)

(** An exception as [__exit__] is told of it and as a caller catches it:
    its class and [str(exc_val)]. *)
Record Exception := {
  exc_type : string;
  exc_str : string
}.

(** ** The backend interface *)

(** [class CheckpointBackend(ABC)].  A call of [save] may raise: the first
    component of what it gives is the exception that leaves the call, if
    any.  [save] assigns to the argument's [updated_at]; the second
    component is the checkpoint as the caller sees it after the call.
    Reads leave the store as it is and may raise while decoding. *)
Class CheckpointBackend (B : Type) := {
  save : Checkpoint → B → Clock → option Exception * Checkpoint * B * Clock;
  load : string → B → result (option Checkpoint);
  list_workflow_checkpoints : string → B → result (list Checkpoint);
  get_last_checkpoint : string → B → result (option Checkpoint);
  delete_workflow_checkpoints : string → B → nat * B;
  get_incomplete_workflows : B → list string
}.

(** ** The in-memory backend *)

Module Memory.

(** [class MemoryCheckpointBackend]: the state is [self._checkpoints].
    The dictionary holds the checkpoint objects themselves, not copies, and
    [save] assigns [updated_at] on the object it is given.  An entry is
    kept here as the value last saved under its key.  This is what the
    dictionary shows as long as no object is held under two keys, which is
    so when every entry is under the id of its checkpoint ([keyed_by_id]
    below): [save] files an object under its own id only, and the
    [Checkpointer] follows every assignment to a checkpoint by a [save] of
    that object.  Statements on what a [save] does to the other entries
    of a dictionary take [keyed_by_id] as a hypothesis. *)
Record MemoryCheckpointBackend := {
  _checkpoints : list (string * Checkpoint)
}.

Definition init : MemoryCheckpointBackend := {| _checkpoints := [] |}.

Definition save (checkpoint : Checkpoint) (self : MemoryCheckpointBackend)
    (k : Clock) : Checkpoint * MemoryCheckpointBackend * Clock :=
  let '(now, k') := utcnow_isoformat k in
  let checkpoint := set_updated_at now checkpoint in
  (checkpoint,
   {| _checkpoints := dict_set (id checkpoint) checkpoint (_checkpoints self) |},
   k').

Definition load (checkpoint_id : string) (self : MemoryCheckpointBackend)
    : option Checkpoint :=
  dict_get checkpoint_id (_checkpoints self).

Definition list_workflow_checkpoints (wf : string)
    (self : MemoryCheckpointBackend) : list Checkpoint :=
  let checkpoints :=
    filter (λ cp, workflow_id cp = wf) (dict_values (_checkpoints self)) in
  sorted_by_key step_index checkpoints.

Definition get_last_checkpoint (wf : string)
    (self : MemoryCheckpointBackend) : option Checkpoint :=
  let checkpoints := list_workflow_checkpoints wf self in
  match checkpoints with
  | [] => None
  | _ => last checkpoints
  end.

Definition delete_workflow_checkpoints (wf : string)
    (self : MemoryCheckpointBackend) : nat * MemoryCheckpointBackend :=
  let to_delete :=
    (filter (λ item : string * Checkpoint, workflow_id item.2 = wf)
       (_checkpoints self)).*1 in
  (length to_delete,
   {| _checkpoints := foldl (λ d cp_id, dict_del cp_id d) (_checkpoints self) to_delete |}).

Definition get_incomplete_workflows (self : MemoryCheckpointBackend)
    : list string :=
  let incomplete : gset string :=
    foldl (λ (incomplete : gset string) cp,
             if bool_decide (status cp = PENDING ∨ status cp = IN_PROGRESS)
             then incomplete ∪ {[ workflow_id cp ]}
             else incomplete)
          ∅ (dict_values (_checkpoints self)) in
  elements incomplete.

End Memory.

Global Instance Memory_backend : CheckpointBackend Memory.MemoryCheckpointBackend := {|
  save := λ checkpoint self k,
    let '(checkpoint, self, k) := Memory.save checkpoint self k in
    (None, checkpoint, self, k);
  load := λ checkpoint_id self, Ok (Memory.load checkpoint_id self);
  list_workflow_checkpoints := λ wf self, Ok (Memory.list_workflow_checkpoints wf self);
  get_last_checkpoint := λ wf self, Ok (Memory.get_last_checkpoint wf self);
  delete_workflow_checkpoints := Memory.delete_workflow_checkpoints;
  get_incomplete_workflows := Memory.get_incomplete_workflows
|}.

(** ** The SQLite backend *)

Module SQLite.

(** A row of the [checkpoints] table, column by column; the three
    nullable columns are options. *)
Record Row := {
  r_id : string;
  r_workflow_id : string;
  r_step_name : string;
  r_step_index : Z;
  r_status : string;
  r_input_data : string;
  r_output_data : option string;
  r_error : option string;
  r_created_at : string;
  r_updated_at : string;
  r_metadata : option string
}.

(** [class SQLiteCheckpointBackend]: the state is the table in the file
    at [self._path], its rows in rowid order. *)
Record SQLiteCheckpointBackend := {
  table : list Row
}.

Definition init : SQLiteCheckpointBackend := {| table := [] |}.

(** The integers that an INTEGER column holds, and that [sqlite3] binds
    as a parameter: 64 bits, signed. *)
Definition fits_int64 (n : Z) : bool :=
  (- 2 ^ 63 <=? n)%Z && (n <? 2 ^ 63)%Z.

(** What [sqlite3] raises when a parameter is an integer outside them. *)
Definition OverflowError : Exception :=
  {| exc_type := "OverflowError";
     exc_str := "Python int too large to convert to SQLite INTEGER" |}.

(** [INSERT OR REPLACE]: the row with the same primary key goes, the new
    row takes a fresh rowid. *)
Definition insert_or_replace (r : Row) (t : list Row) : list Row :=
  filter (λ r', r_id r' ≠ r_id r) t ++ [r].

Section codec.
(** [json.dumps] and [json.loads] of the standard library. *)
Context (json_dumps : value → string) (json_loads : string → result value).

Definition checkpoint_row (checkpoint : Checkpoint) : Row :=
  {| r_id := id checkpoint;
     r_workflow_id := workflow_id checkpoint;
     r_step_name := step_name checkpoint;
     r_step_index := step_index checkpoint;
     r_status := status_value (status checkpoint);
     r_input_data := json_dumps (input_data checkpoint);
     r_output_data :=
       if truthy (output_data checkpoint)
       then Some (json_dumps (output_data checkpoint)) else None;
     r_error := error checkpoint;
     r_created_at := created_at checkpoint;
     r_updated_at := updated_at checkpoint;
     r_metadata := Some (json_dumps (metadata checkpoint)) |}.

(** [conn.execute("INSERT OR REPLACE ...", params)]: binding the
    parameters raises for a step index that no INTEGER column holds, and
    then no row is written; [updated_at] has been assigned by then. *)
Definition save (checkpoint : Checkpoint) (self : SQLiteCheckpointBackend)
    (k : Clock)
    : option Exception * Checkpoint * SQLiteCheckpointBackend * Clock :=
  let '(now, k') := utcnow_isoformat k in
  let checkpoint := set_updated_at now checkpoint in
  let row := checkpoint_row checkpoint in
  if fits_int64 (r_step_index row)
  then (None, checkpoint, {| table := insert_or_replace row (table self) |}, k')
  else (Some OverflowError, checkpoint, self, k').

Definition _row_to_checkpoint (row : Row) : result Checkpoint :=
  status0 ← CheckpointStatus_of_value (r_status row);
  input0 ← json_loads (r_input_data row);
  output0 ← (if column_truthy (r_output_data row)
             then json_loads (default "" (r_output_data row))
             else Ok VNone);
  metadata0 ← (if column_truthy (r_metadata row)
               then json_loads (default "" (r_metadata row))
               else Ok (VDict []));
  Ok {| id := r_id row;
        workflow_id := r_workflow_id row;
        step_name := r_step_name row;
        step_index := r_step_index row;
        status := status0;
        input_data := input0;
        output_data := output0;
        error := r_error row;
        created_at := r_created_at row;
        updated_at := r_updated_at row;
        metadata := metadata0 |}.

(** [SELECT * FROM checkpoints WHERE id = ?], [fetchone]. *)
Definition load (checkpoint_id : string) (self : SQLiteCheckpointBackend)
    : result (option Checkpoint) :=
  match List.find (λ r, bool_decide (r_id r = checkpoint_id)) (table self) with
  | Some row => cp ← _row_to_checkpoint row; Ok (Some cp)
  | None => Ok None
  end.

(** [... WHERE workflow_id = ? ORDER BY step_index], [fetchall]. *)
Definition list_workflow_checkpoints (wf : string)
    (self : SQLiteCheckpointBackend) : result (list Checkpoint) :=
  rmap_list _row_to_checkpoint
    (sorted_by_key r_step_index
       (filter (λ r, r_workflow_id r = wf) (table self))).

(** [... WHERE workflow_id = ? ORDER BY step_index DESC LIMIT 1]. *)
Definition get_last_checkpoint (wf : string)
    (self : SQLiteCheckpointBackend) : result (option Checkpoint) :=
  match sorted_by_key (λ r, - r_step_index r)%Z
          (filter (λ r, r_workflow_id r = wf) (table self)) with
  | row :: _ => cp ← _row_to_checkpoint row; Ok (Some cp)
  | [] => Ok None
  end.

End codec.

(** [DELETE FROM checkpoints WHERE workflow_id = ?], [cursor.rowcount]. *)
Definition delete_workflow_checkpoints (wf : string)
    (self : SQLiteCheckpointBackend) : nat * SQLiteCheckpointBackend :=
  (length (filter (λ r, r_workflow_id r = wf) (table self)),
   {| table := filter (λ r, r_workflow_id r ≠ wf) (table self) |}).

(** [SELECT DISTINCT workflow_id FROM checkpoints WHERE status IN (?, ?)]. *)
Definition get_incomplete_workflows (self : SQLiteCheckpointBackend)
    : list string :=
  remove_dups
    (r_workflow_id <$>
       filter (λ r, r_status r = status_value PENDING
                    ∨ r_status r = status_value IN_PROGRESS) (table self)).

End SQLite.

Definition SQLite_backend (json_dumps : value → string)
    (json_loads : string → result value)
    : CheckpointBackend SQLite.SQLiteCheckpointBackend := {|
  save := SQLite.save json_dumps;
  load := SQLite.load json_loads;
  list_workflow_checkpoints := SQLite.list_workflow_checkpoints json_loads;
  get_last_checkpoint := SQLite.get_last_checkpoint json_loads;
  delete_workflow_checkpoints := SQLite.delete_workflow_checkpoints;
  get_incomplete_workflows := SQLite.get_incomplete_workflows
|}.

(** ** The checkpointer *)

(** [class Checkpointer], over any backend. *)
Record Checkpointer (B : Type) := {
  _backend : B;
  recovery_mode : RecoveryMode
}.
Arguments _backend {B} _.
Arguments recovery_mode {B} _.

(** [f"{workflow_id}_step_{step_index}"] *)
Definition generate_checkpoint_id (wf : string) (step_index0 : Z) : string :=
  wf +:+ "_step_" +:+ pretty step_index0.

(** [for cp in l: if p(cp): return cp] *)
Fixpoint first_match (p : Checkpoint → bool) (l : list Checkpoint)
    : option Checkpoint :=
  match l with
  | [] => None
  | cp :: l' => if p cp then Some cp else first_match p l'
  end.

Section Checkpointer.
Context {B : Type} {backend : CheckpointBackend B}.

Definition with_backend (b : B) (self : Checkpointer B) : Checkpointer B :=
  {| _backend := b; recovery_mode := recovery_mode self |}.

(** The four operations that write.  Each gives the exception that leaves
    the call, if any, which is one that [save] raised; the record as the
    call leaves it, which is what it returns when it returns; the
    checkpointer; and the clock. *)
Definition checkpoint_start (wf step_name0 : string) (step_index0 : Z)
    (input_data0 metadata0 : value) (self : Checkpointer B) (k : Clock)
    : option Exception * Checkpoint * Checkpointer B * Clock :=
  let '(checkpoint, k1) :=
    Checkpoint_init (generate_checkpoint_id wf step_index0) wf step_name0
      step_index0 IN_PROGRESS input_data0
      (if truthy metadata0 then metadata0 else VDict []) k in
  let '(raised, checkpoint, b, k2) := save checkpoint (_backend self) k1 in
  (raised, checkpoint, with_backend b self, k2).

Definition checkpoint_complete (checkpoint : Checkpoint) (output_data0 : value)
    (self : Checkpointer B) (k : Clock)
    : option Exception * Checkpoint * Checkpointer B * Clock :=
  let checkpoint := set_status COMPLETED checkpoint in
  let checkpoint := set_output_data output_data0 checkpoint in
  let '(raised, checkpoint, b, k') := save checkpoint (_backend self) k in
  (raised, checkpoint, with_backend b self, k').

Definition checkpoint_failed (checkpoint : Checkpoint) (error0 : string)
    (self : Checkpointer B) (k : Clock)
    : option Exception * Checkpoint * Checkpointer B * Clock :=
  let checkpoint := set_status FAILED checkpoint in
  let checkpoint := set_error (Some error0) checkpoint in
  let '(raised, checkpoint, b, k') := save checkpoint (_backend self) k in
  (raised, checkpoint, with_backend b self, k').

Definition mark_recovered (checkpoint : Checkpoint)
    (self : Checkpointer B) (k : Clock)
    : option Exception * Checkpoint * Checkpointer B * Clock :=
  let checkpoint := set_status RECOVERED checkpoint in
  let '(raised, checkpoint, b, k') := save checkpoint (_backend self) k in
  (raised, checkpoint, with_backend b self, k').

Definition get_recovery_point (wf : string) (self : Checkpointer B)
    : result (option Checkpoint) :=
  if decide (recovery_mode self = MANUAL) then Ok None
  else
    checkpoints ← list_workflow_checkpoints wf (_backend self);
    match checkpoints with
    | [] => Ok None
    | _ =>
      if decide (recovery_mode self = RESUME_FROM_LAST) then
        Ok (last checkpoints)
      else if decide (recovery_mode self = RESTART_TASK) then
        match first_match
                (λ cp, bool_decide (status cp = FAILED ∨ status cp = IN_PROGRESS))
                (reverse checkpoints) with
        | Some cp => Ok (Some cp)
        | None => Ok (last checkpoints)
        end
      else if decide (recovery_mode self = SKIP_FAILED) then
        match first_match (λ cp, bool_decide (status cp = COMPLETED))
                (reverse checkpoints) with
        | Some cp => Ok (Some cp)
        | None => Ok None
        end
      else Ok (last checkpoints)
    end.

Definition Checkpointer_get_incomplete_workflows (self : Checkpointer B)
    : list string :=
  get_incomplete_workflows (_backend self).

Definition list_checkpoints (wf : string) (self : Checkpointer B)
    : result (list Checkpoint) :=
  list_workflow_checkpoints wf (_backend self).

Definition cleanup_workflow (wf : string) (self : Checkpointer B)
    : nat * Checkpointer B :=
  let '(n, b) := delete_workflow_checkpoints wf (_backend self) in
  (n, with_backend b self).

End Checkpointer.

(** ** The scoped context *)

(** [class CheckpointContext]; the checkpointer it refers to is passed
    along with it. *)
Record CheckpointContext := {
  _workflow_id : string;
  _step_name : string;
  _step_index : Z;
  _input_data : value;
  _metadata : value;
  _checkpoint : option Checkpoint;
  _output : value
}.

Definition CheckpointContext_init (wf step_name0 : string) (step_index0 : Z)
    (input_data0 metadata0 : value) : CheckpointContext :=
  {| _workflow_id := wf; _step_name := step_name0; _step_index := step_index0;
     _input_data := input_data0; _metadata := metadata0;
     _checkpoint := None; _output := VNone |}.

Definition set_output (output : value) (self : CheckpointContext) : CheckpointContext :=
  {| _workflow_id := _workflow_id self; _step_name := _step_name self;
     _step_index := _step_index self; _input_data := _input_data self;
     _metadata := _metadata self; _checkpoint := _checkpoint self;
     _output := output |}.

Definition set_checkpoint (cp : Checkpoint) (self : CheckpointContext) : CheckpointContext :=
  {| _workflow_id := _workflow_id self; _step_name := _step_name self;
     _step_index := _step_index self; _input_data := _input_data self;
     _metadata := _metadata self; _checkpoint := Some cp;
     _output := _output self |}.

(** The body of a [with] block, as far as the context sees it: it records
    outputs and may raise, which ends it. *)
Inductive stmt :=
  | SetOutput (output : value)
  | RaiseStmt (e : Exception).

Fixpoint run_body (body : list stmt) (ctx : CheckpointContext)
    : CheckpointContext * option Exception :=
  match body with
  | [] => (ctx, None)
  | SetOutput output :: body' => run_body body' (set_output output ctx)
  | RaiseStmt e :: _ => (ctx, Some e)
  end.

Section CheckpointContext.
Context {B : Type} {backend : CheckpointBackend B}.

(** When [checkpoint_start] raises, the exception leaves [__enter__] and
    nothing is assigned to [self._checkpoint]. *)
Definition __enter__ (self : CheckpointContext) (cpr : Checkpointer B) (k : Clock)
    : option Exception * CheckpointContext * Checkpointer B * Clock :=
  let '(raised, cp, cpr', k') :=
    checkpoint_start (_workflow_id self) (_step_name self) (_step_index self)
      (_input_data self) (_metadata self) cpr k in
  match raised with
  | Some e => (Some e, self, cpr', k')
  | None => (None, set_checkpoint cp self, cpr', k')
  end.

(** What leaves a call of [checkpoint_failed] or [checkpoint_complete] in
    [__exit__]: the exception it raised, or else the [False] that
    [__exit__] then returns. *)
Definition leaves_exit (raised : option Exception) : Exception + bool :=
  match raised with
  | Some e => inl e
  | None => inr false
  end.

(** The result is the exception that [__exit__] raises, or else what it
    returns: whether the exception of the body is to be suppressed.  The
    checkpoint of the context is the object that the operation assigned
    to. *)
Definition __exit__ (exc : option Exception) (self : CheckpointContext)
    (cpr : Checkpointer B) (k : Clock)
    : (Exception + bool) * CheckpointContext * Checkpointer B * Clock :=
  match _checkpoint self with
  | None => (inr false, self, cpr, k)
  | Some checkpoint =>
      match exc with
      | Some e =>
          let '(raised, cp, cpr', k') :=
            checkpoint_failed checkpoint (exc_str e) cpr k in
          (leaves_exit raised, set_checkpoint cp self, cpr', k')
      | None =>
          match _output self with
          | VNone =>
              let '(raised, cp, cpr', k') :=
                checkpoint_complete checkpoint (VDict []) cpr k in
              (leaves_exit raised, set_checkpoint cp self, cpr', k')
          | output =>
              let '(raised, cp, cpr', k') :=
                checkpoint_complete checkpoint output cpr k in
              (leaves_exit raised, set_checkpoint cp self, cpr', k')
          end
      end
  end.

Definition __aenter__ (self : CheckpointContext) (cpr : Checkpointer B) (k : Clock)
    : option Exception * CheckpointContext * Checkpointer B * Clock :=
  __enter__ self cpr k.

Definition __aexit__ (exc : option Exception) (self : CheckpointContext)
    (cpr : Checkpointer B) (k : Clock)
    : (Exception + bool) * CheckpointContext * Checkpointer B * Clock :=
  __exit__ exc self cpr k.

(** [Checkpointer.context] *)
Definition context (wf step_name0 : string) (step_index0 : Z)
    (input_data0 metadata0 : value) : CheckpointContext :=
  CheckpointContext_init wf step_name0 step_index0 input_data0 metadata0.

(** [with mgr as ctx: body]: enter, run the body, exit with what the body
    raised; the exception goes on to the caller unless exit asks for it
    to be suppressed.  An exception that entering raises leaves the
    statement before the body is run, and one that exit raises leaves it
    in the place of the one of the body. *)
Definition with_stmt (enter : CheckpointContext → Checkpointer B → Clock →
                               option Exception * CheckpointContext
                               * Checkpointer B * Clock)
    (exit : option Exception → CheckpointContext → Checkpointer B → Clock →
            (Exception + bool) * CheckpointContext * Checkpointer B * Clock)
    (mgr : CheckpointContext) (body : list stmt)
    (cpr : Checkpointer B) (k : Clock)
    : option Exception * CheckpointContext * Checkpointer B * Clock :=
  let '(raised, ctx, cpr1, k1) := enter mgr cpr k in
  match raised with
  | Some e => (Some e, ctx, cpr1, k1)
  | None =>
      let '(ctx, exc) := run_body body ctx in
      let '(ended, ctx, cpr2, k2) := exit exc ctx cpr1 k1 in
      (match ended with
       | inl e' => Some e'
       | inr suppress =>
           match exc with
           | Some e => if suppress then None else Some e
           | None => None
           end
       end, ctx, cpr2, k2)
  end.

Definition with_sync := with_stmt __enter__ __exit__.
Definition with_async := with_stmt __aenter__ __aexit__.

End CheckpointContext.

(** ** Vocabulary of the properties *)

(** A checkpoint that [RESTART_TASK] looks for. *)
Definition restartable (cp : Checkpoint) : Prop :=
  status cp = FAILED ∨ status cp = IN_PROGRESS.

(** [r] is the last element of [l] that satisfies [P]: nothing after it
    does; there is none when no element does. *)
Definition last_such (P : Checkpoint → Prop) (l : list Checkpoint)
    (r : option Checkpoint) : Prop :=
  match r with
  | Some cp => ∃ before after, l = before ++ cp :: after ∧ P cp
                               ∧ Forall (λ c, ¬ P c) after
  | None => Forall (λ c, ¬ P c) l
  end.

(** [r] is an element of [l] that satisfies [P] and no element that
    satisfies [P] has a greater [step_index]; there is none when no element
    does. *)
Definition greatest_such (P : Checkpoint → Prop) (l : list Checkpoint)
    (r : option Checkpoint) : Prop :=
  match r with
  | Some cp => cp ∈ l ∧ P cp
               ∧ ∀ c, c ∈ l → P c → (step_index c ≤ step_index cp)%Z
  | None => ∀ c, c ∈ l → ¬ P c
  end.

(** The invariant of the data model: an error exactly on a failed record. *)
Definition error_iff_failed (cp : Checkpoint) : Prop :=
  is_Some (error cp) ↔ status cp = FAILED.

(** Its half that holds throughout: a failed record carries an error. *)
Definition failed_has_error (cp : Checkpoint) : Prop :=
  status cp = FAILED → is_Some (error cp).


(** A value that [json.dumps] prints to a text that is not empty and that
    [json.loads] reads back. *)
Definition json_representable (json_dumps : value → string)
    (json_loads : string → result value) (v : value) : Prop :=
  json_dumps v ≠ "" ∧ json_loads (json_dumps v) = Ok v.

(** The records that sequences of checkpointer operations produce: one
    starts a step, the others take a record produced before.  A record
    counts as the call leaves it, also when the call raises while saving
    it. *)
Inductive produced {B : Type} {backend : CheckpointBackend B} : Checkpoint → Prop :=
  | produced_start wf step_name0 step_index0 input_data0 metadata0
      (self : Checkpointer B) k :
      produced
        (checkpoint_start wf step_name0 step_index0 input_data0 metadata0 self k).1.1.2
  | produced_complete cp output (self : Checkpointer B) k :
      produced cp → produced (checkpoint_complete cp output self k).1.1.2
  | produced_failed cp err (self : Checkpointer B) k :
      produced cp → produced (checkpoint_failed cp err self k).1.1.2
  | produced_recovered cp (self : Checkpointer B) k :
      produced cp → produced (mark_recovered cp self k).1.1.2.

(** What the operations of a checkpointer over [backend] keep of the
    invariant: a produced record that is FAILED has an error; starting and
    failing give a record with an error exactly when it is FAILED;
    completing and marking as recovered leave the error field as it is, so
    they keep the invariant of a record that is not FAILED. *)
Definition error_contract_kept {B : Type} (backend : CheckpointBackend B) : Prop :=
  (∀ cp, produced cp → failed_has_error cp)
  ∧ (∀ wf step_name0 step_index0 input_data0 metadata0 (self : Checkpointer B) k,
       error_iff_failed
         (checkpoint_start wf step_name0 step_index0 input_data0 metadata0 self k).1.1.2)
  ∧ (∀ cp err (self : Checkpointer B) k,
       error_iff_failed (checkpoint_failed cp err self k).1.1.2)
  ∧ (∀ cp output (self : Checkpointer B) k,
       error (checkpoint_complete cp output self k).1.1.2 = error cp
       ∧ (error_iff_failed cp → status cp ≠ FAILED →
          error_iff_failed (checkpoint_complete cp output self k).1.1.2))
  ∧ (∀ cp (self : Checkpointer B) k,
       error (mark_recovered cp self k).1.1.2 = error cp
       ∧ (error_iff_failed cp → status cp ≠ FAILED →
          error_iff_failed (mark_recovered cp self k).1.1.2)).

(** The record that [checkpoint_start] makes. *)
Definition started_record (wf name : string) (idx : Z) (input meta : value)
    (k : Clock) : Checkpoint :=
  {| id := generate_checkpoint_id wf idx; workflow_id := wf;
     step_name := name; step_index := idx; status := IN_PROGRESS;
     input_data := input; output_data := VNone; error := None;
     created_at := readings k (ticks k);
     updated_at := readings k (2 + ticks k);
     metadata := if truthy meta then meta else VDict [] |}.

(** The output that [__exit__] completes a step with: the recorded one, or
    the empty map when none was recorded. *)
Definition output_or_empty (output : value) : value :=
  match output with
  | VNone => VDict []
  | _ => output
  end.

(** The record that the scope of a context leaves of its step, when
    entering it did not raise: the record of the start, completed with the
    output that the context holds after the body, or failed with the
    exception of the body. *)
Definition finished_record (mgr : CheckpointContext) (body : list stmt)
    (k : Clock) : Checkpoint :=
  let ran := run_body body mgr in
  let started :=
    started_record (_workflow_id mgr) (_step_name mgr) (_step_index mgr)
      (_input_data mgr) (_metadata mgr) k in
  set_updated_at (readings k (3 + ticks k))
    match ran.2 with
    | Some e => set_error (Some (exc_str e)) (set_status FAILED started)
    | None =>
        set_output_data (output_or_empty (_output ran.1))
          (set_status COMPLETED started)
    end.

(** Every entry of the dictionary is under the id of its checkpoint.  The
    dictionary holds objects; with this no object is held under two keys,
    and an assignment to one shows in no other entry. *)
Definition keyed_by_id (d : list (string * Checkpoint)) : Prop :=
  ∀ key cp, (key, cp) ∈ d → key = id cp.

(** ** Example runs *)

(** A clock whose readings are all different. *)
Definition example_clock : Clock :=
  {| readings := λ n, "2024-01-01T00:00:00." +:+ pretty n; ticks := 0 |}.

Definition memory_checkpointer (mode : RecoveryMode)
    : Checkpointer Memory.MemoryCheckpointBackend :=
  {| _backend := Memory.init; recovery_mode := mode |}.

(** The run of the recovery tests: step 0 of a workflow is started and
    completed, step 1 is started and fails. *)
Definition completed_then_failed (mode : RecoveryMode)
    : Checkpointer Memory.MemoryCheckpointBackend * Clock :=
  let s1 := checkpoint_start "wf" "step_1" 0 (VDict []) VNone
              (memory_checkpointer mode) example_clock in
  let s2 := checkpoint_complete s1.1.1.2 (VDict []) s1.1.2 s1.2 in
  let s3 := checkpoint_start "wf" "step_2" 1 (VDict []) VNone s2.1.2 s2.2 in
  let s4 := checkpoint_failed s3.1.1.2 "Error" s3.1.2 s3.2 in
  (s4.1.2, s4.2).

(** The run of the test of incomplete workflows: a step of [wf1] is
    started, a step of [wf2] is started and completed. *)
Definition one_running_one_done
    : Checkpointer Memory.MemoryCheckpointBackend * Clock :=
  let s1 := checkpoint_start "wf1" "step_1" 0 (VDict []) VNone
              (memory_checkpointer RESUME_FROM_LAST) example_clock in
  let s2 := checkpoint_start "wf2" "step_1" 0 (VDict []) VNone s1.1.2 s1.2 in
  let s3 := checkpoint_complete s2.1.1.2 (VDict []) s2.1.2 s2.2 in
  (s3.1.2, s3.2).

(** ** A reference codec *)

(** [json.dumps] and [json.loads] are parameters of the table backend.  For
    the examples they are instantiated with this codec, which prints a
    value the way [json.dumps] does with its default separators and reads
    it back.  In a string the quote (character 34) and the backslash are
    escaped; the
    other characters are taken to be printable ASCII. *)
Module Json.

Fixpoint escape (s : string) : string :=
  match s with
  | EmptyString => EmptyString
  | String c s' =>
      if decide (c = "034"%char ∨ c = "\"%char)
      then String "\"%char (String c (escape s'))
      else String c (escape s')
  end.

Definition quote (s : string) : string :=
  String "034"%char (escape s +:+ String "034"%char EmptyString).

Fixpoint dumps (v : value) : string :=
  match v with
  | VNone => "null"
  | VBool true => "true"
  | VBool false => "false"
  | VInt n => pretty n
  | VStr s => quote s
  | VList l =>
      "[" +:+
      (fix items (l : list value) : string :=
         match l with
         | [] => ""
         | x :: l' =>
             dumps x +:+ match l' with [] => "" | _ => ", " +:+ items l' end
         end) l +:+ "]"
  | VDict d =>
      "{" +:+
      (fix members (d : list (string * value)) : string :=
         match d with
         | [] => ""
         | (key, x) :: d' =>
             quote key +:+ ": " +:+ dumps x
             +:+ match d' with [] => "" | _ => ", " +:+ members d' end
         end) d +:+ "}"
  end%string.

Definition is_space (c : ascii) : bool :=
  bool_decide (c = " "%char ∨ c = "010"%char ∨ c = "013"%char ∨ c = "009"%char).

Fixpoint skip_ws (s : string) : string :=
  match s with
  | String c s' => if is_space c then skip_ws s' else s
  | EmptyString => EmptyString
  end.

Definition digit_of (c : ascii) : option Z :=
  let n := Z.of_nat (nat_of_ascii c) in
  if bool_decide (48 ≤ n ≤ 57)%Z then Some (n - 48)%Z else None.

(** The digits at the front of [s], as a number, and what follows. *)
Fixpoint read_digits (acc : Z) (s : string) : Z * string :=
  match s with
  | String c s' =>
      match digit_of c with
      | Some d => read_digits (10 * acc + d) s'
      | None => (acc, s)
      end
  | EmptyString => (acc, s)
  end.

(** A string after its opening quote, up to the closing one. *)
Fixpoint read_string (s : string) : option (string * string) :=
  match s with
  | EmptyString => None
  | String c s' =>
      if decide (c = "034"%char) then Some (EmptyString, s')
      else if decide (c = "\"%char) then
        match s' with
        | String c' s'' =>
            if decide (c' = "034"%char ∨ c' = "\"%char)
            then '(r, rest) ← read_string s''; Some (String c' r, rest)
            else None
        | EmptyString => None
        end
      else '(r, rest) ← read_string s'; Some (String c r, rest)
  end.

Fixpoint read_value (fuel : nat) (s : string) : option (value * string) :=
  match fuel with
  | O => None
  | S fuel =>
      match skip_ws s with
      | String "n"%char (String "u"%char (String "l"%char (String "l"%char rest))) =>
          Some (VNone, rest)
      | String "t"%char (String "r"%char (String "u"%char (String "e"%char rest))) =>
          Some (VBool true, rest)
      | String "f"%char (String "a"%char (String "l"%char (String "s"%char (String "e"%char rest)))) =>
          Some (VBool false, rest)
      | String "034"%char rest =>
          '(r, rest') ← read_string rest; Some (VStr r, rest')
      | String "["%char rest =>
          match skip_ws rest with
          | String "]"%char rest' => Some (VList [], rest')
          | _ => '(l, rest') ← read_items fuel rest; Some (VList l, rest')
          end
      | String "{"%char rest =>
          match skip_ws rest with
          | String "}"%char rest' => Some (VDict [], rest')
          | _ => '(d, rest') ← read_members fuel rest; Some (VDict d, rest')
          end
      | String "-"%char (String c rest) =>
          d ← digit_of c;
          let '(n, rest') := read_digits d rest in Some (VInt (- n), rest')
      | String c rest =>
          d ← digit_of c;
          let '(n, rest') := read_digits d rest in Some (VInt n, rest')
      | EmptyString => None
      end
  end
with read_items (fuel : nat) (s : string) : option (list value * string) :=
  match fuel with
  | O => None
  | S fuel =>
      '(x, rest) ← read_value fuel s;
      match skip_ws rest with
      | String ","%char rest' =>
          '(l, rest'') ← read_items fuel rest'; Some (x :: l, rest'')
      | String "]"%char rest' => Some ([x], rest')
      | _ => None
      end
  end
with read_members (fuel : nat) (s : string)
    : option (list (string * value) * string) :=
  match fuel with
  | O => None
  | S fuel =>
      match skip_ws s with
      | String "034"%char rest =>
          '(key, rest) ← read_string rest;
          match skip_ws rest with
          | String ":"%char rest =>
              '(x, rest) ← read_value fuel rest;
              match skip_ws rest with
              | String ","%char rest' =>
                  '(d, rest'') ← read_members fuel rest';
                  Some ((key, x) :: d, rest'')
              | String "}"%char rest' => Some ([(key, x)], rest')
              | _ => None
              end
          | _ => None
          end
      | _ => None
      end
  end.

Definition loads (s : string) : result value :=
  match read_value (S (String.length s)) s with
  | Some (v, rest) =>
      match skip_ws rest with
      | EmptyString => Ok v
      | _ => Raise (JSONDecodeError s)
      end
  | None => Raise (JSONDecodeError s)
  end.

End Json.

(** ** Example runs on the table *)

Definition sqlite_backend : CheckpointBackend SQLite.SQLiteCheckpointBackend :=
  SQLite_backend Json.dumps Json.loads.

(** Steps 2, 0 and 1 of a workflow are started in that order on an empty
    table, and step 0 of another workflow after them. *)
Definition started_out_of_order
    : Checkpointer SQLite.SQLiteCheckpointBackend * Clock :=
  let start wf name idx (s : Checkpointer SQLite.SQLiteCheckpointBackend * Clock) :=
    let r := checkpoint_start (backend := sqlite_backend) wf name idx
               (VDict [("i", VInt idx)]) VNone s.1 s.2 in
    (r.1.2, r.2) in
  start "other" "step_0" 0%Z
    (start "wf" "step_1" 1%Z
       (start "wf" "step_0" 0%Z
          (start "wf" "step_2" 2%Z
             ({| _backend := SQLite.init; recovery_mode := RESUME_FROM_LAST |},
              example_clock)))).

(** ** Proof automation *)

(** Name the result of the [save] in the goal, with what [Hsave] says of
    the checkpoint it hands back. *)
Ltac save_step Hsave :=
  match goal with
  | |- context [save ?c ?b ?k0] =>
      let H := fresh "Hstamp" in
      pose proof (Hsave c b k0) as H;
      destruct (save c b k0) as [[[? ?] ?] ?]; simpl in *
  end.


(** * More of the module *)

(** ** Workflow ids *)

(** [Checkpointer.generate_workflow_id].  The state it works on is
    [self._workflow_counter], which [__init__] sets to 0; [timestamp] is
    what [int(time.time() * 1000)] gives at the call.  The result is the id
    and the counter as the call leaves it. *)
Definition generate_workflow_id (prefix : string) (timestamp : Z)
    (_workflow_counter : nat) : string * nat :=
  let _workflow_counter := S _workflow_counter in
  (prefix +:+ "_" +:+ pretty timestamp +:+ "_" +:+ pretty _workflow_counter,
   _workflow_counter).

(** The ids of a sequence of calls on one checkpointer, each call with its
    prefix and the time it is made at. *)
Fixpoint generate_workflow_ids (calls : list (string * Z))
    (_workflow_counter : nat) : list string * nat :=
  match calls with
  | [] => ([], _workflow_counter)
  | (prefix, timestamp) :: calls' =>
      let '(workflow_id0, counter1) :=
        generate_workflow_id prefix timestamp _workflow_counter in
      let '(ids, counter2) := generate_workflow_ids calls' counter1 in
      (workflow_id0 :: ids, counter2)
  end.

(** ** The record as a dictionary *)

(** [Checkpoint.to_dict]: the fields under their names, the status as its
    value. *)
Definition to_dict (self : Checkpoint) : list (string * value) :=
  [("id", VStr (id self));
   ("workflow_id", VStr (workflow_id self));
   ("step_name", VStr (step_name self));
   ("step_index", VInt (step_index self));
   ("status", VStr (status_value (status self)));
   ("input_data", input_data self);
   ("output_data", output_data self);
   ("error", match error self with Some e => VStr e | None => VNone end);
   ("created_at", VStr (created_at self));
   ("updated_at", VStr (updated_at self));
   ("metadata", metadata self)].

(** What [from_dict] can raise: [data[key]] for a key that is missing, and
    [CheckpointStatus(v)] for a [v] that is no status value. *)
Inductive dict_exn :=
  | KeyError (key : string)
  | StatusValueError (v : value).

(** The object that [from_dict] builds.  Python does not check the values
    it finds against the types the fields declare, so the fields are values
    here; only the status is made by its class. *)
Record RawCheckpoint := {
  raw_id : value;
  raw_workflow_id : value;
  raw_step_name : value;
  raw_step_index : value;
  raw_status : CheckpointStatus;
  raw_input_data : value;
  raw_output_data : value;
  raw_error : value;
  raw_created_at : value;
  raw_updated_at : value;
  raw_metadata : value
}.

(** A checkpoint as such an object. *)
Definition raw_of (cp : Checkpoint) : RawCheckpoint :=
  {| raw_id := VStr (id cp);
     raw_workflow_id := VStr (workflow_id cp);
     raw_step_name := VStr (step_name cp);
     raw_step_index := VInt (step_index cp);
     raw_status := status cp;
     raw_input_data := input_data cp;
     raw_output_data := output_data cp;
     raw_error := match error cp with Some e => VStr e | None => VNone end;
     raw_created_at := VStr (created_at cp);
     raw_updated_at := VStr (updated_at cp);
     raw_metadata := metadata cp |}.

(** [data[key]] *)
Definition dict_item (key : string) (data : list (string * value))
    : dict_exn + value :=
  match dict_get key data with
  | Some v => inr v
  | None => inl (KeyError key)
  end.

(** [CheckpointStatus(v)] *)
Definition CheckpointStatus_call (v : value) : dict_exn + CheckpointStatus :=
  match v with
  | VStr tag =>
      match CheckpointStatus_of_value tag with
      | Ok s => inr s
      | Raise _ => inl (StatusValueError v)
      end
  | _ => inl (StatusValueError v)
  end.

(** [Checkpoint.from_dict].  The arguments of the constructor are evaluated
    in the order they are written, so the first thing that fails is what is
    raised, and the two defaults that read the clock are evaluated whether
    the key is there or not. *)
Definition from_dict (data : list (string * value)) (k : Clock)
    : (dict_exn + RawCheckpoint) * Clock :=
  match dict_item "id" data with inl e => (inl e, k) | inr id0 =>
  match dict_item "workflow_id" data with inl e => (inl e, k) | inr workflow_id0 =>
  match dict_item "step_name" data with inl e => (inl e, k) | inr step_name0 =>
  match dict_item "step_index" data with inl e => (inl e, k) | inr step_index0 =>
  match dict_item "status" data with inl e => (inl e, k) | inr status_v =>
  match CheckpointStatus_call status_v with inl e => (inl e, k) | inr status0 =>
  match dict_item "input_data" data with inl e => (inl e, k) | inr input_data0 =>
  let output_data0 := default VNone (dict_get "output_data" data) in
  let error0 := default VNone (dict_get "error" data) in
  let '(now1, k1) := utcnow_isoformat k in
  let created_at0 := default (VStr now1) (dict_get "created_at" data) in
  let '(now2, k2) := utcnow_isoformat k1 in
  let updated_at0 := default (VStr now2) (dict_get "updated_at" data) in
  let metadata0 := default (VDict []) (dict_get "metadata" data) in
  (inr {| raw_id := id0; raw_workflow_id := workflow_id0;
          raw_step_name := step_name0; raw_step_index := step_index0;
          raw_status := status0; raw_input_data := input_data0;
          raw_output_data := output_data0; raw_error := error0;
          raw_created_at := created_at0; raw_updated_at := updated_at0;
          raw_metadata := metadata0 |}, k2)
  end end end end end end end.

(** The keys that [from_dict] reads with [data[key]], in that order. *)
Definition required_keys : list string :=
  ["id"; "workflow_id"; "step_name"; "step_index"; "status"; "input_data"].

(** ** Reachable states *)

(** The states of a checkpointer on the in-memory backend that sequences
    of operations reach from a new one; the records that are completed,
    failed or marked as recovered are records that operations produced. *)
Inductive reachable : Checkpointer Memory.MemoryCheckpointBackend → Prop :=
  | reachable_init mode : reachable (memory_checkpointer mode)
  | reachable_start wf step_name0 step_index0 input_data0 metadata0 self k :
      reachable self →
      reachable
        (checkpoint_start wf step_name0 step_index0 input_data0 metadata0 self k).1.2
  | reachable_complete cp output self k :
      reachable self → produced cp →
      reachable (checkpoint_complete cp output self k).1.2
  | reachable_failed cp err self k :
      reachable self → produced cp →
      reachable (checkpoint_failed cp err self k).1.2
  | reachable_recovered cp self k :
      reachable self → produced cp →
      reachable (mark_recovered cp self k).1.2
  | reachable_cleanup wf self :
      reachable self → reachable (cleanup_workflow wf self).2.

(** Every entry is under the id of its checkpoint, which is the id of its
    workflow and step. *)
Definition keyed_by_step (d : list (string * Checkpoint)) : Prop :=
  ∀ key cp, (key, cp) ∈ d →
    key = id cp ∧ id cp = generate_checkpoint_id (workflow_id cp) (step_index cp).

(** ** One workflow seen beside another *)

(** What a checkpointer shows of a workflow: its checkpoints, its recovery
    point, and whether it is incomplete. *)
Definition shows_the_same (wf : string)
    (self self' : Checkpointer Memory.MemoryCheckpointBackend) : Prop :=
  list_checkpoints wf self' = list_checkpoints wf self
  ∧ get_recovery_point wf self' = get_recovery_point wf self
  ∧ (wf ∈ Checkpointer_get_incomplete_workflows self'
     ↔ wf ∈ Checkpointer_get_incomplete_workflows self).

(** ** The workflow of the checkpointing example *)

(** [examples/05_checkpointing.py], [simulate_workflow]: the steps of the
    workflow, each with its input. *)
Definition steps : list (string * value) :=
  [("fetch_data", VDict [("source", VStr "api.example.com")]);
   ("transform_data", VDict [("format", VStr "json")]);
   ("validate_data", VDict [("schema", VStr "v1")]);
   ("store_data", VDict [("destination", VStr "database")])].

(** The body of the scope of step [i], as far as the context sees it: the
    step records its output. *)
Definition step_body (i : nat) (step_name : string) : list stmt :=
  [SetOutput (VDict [("status", VStr "success"); ("step", VStr step_name)])].

Section workflow.
Context {B : Type} {backend : CheckpointBackend B}.

(** [for i, (step_name, input_data) in enumerate(steps):
       async with checkpointer.context(workflow_id, step_name, i, input_data) as ctx:
           body]
    from step [i] on.  An exception that leaves a scope leaves the loop;
    the result is that exception, if any.  What a step does in its scope
    is a parameter. *)
Fixpoint for_each_step (body : nat → string → list stmt) (wf : string)
    (i : nat) (todo : list (string * value))
    (checkpointer : Checkpointer B) (k : Clock)
    : option Exception * Checkpointer B * Clock :=
  match todo with
  | [] => (None, checkpointer, k)
  | (step_name0, input_data0) :: todo' =>
      let '(exc, _, checkpointer', k') :=
        with_async (context wf step_name0 (Z.of_nat i) input_data0 VNone)
          (body i step_name0) checkpointer k in
      match exc with
      | Some e => (Some e, checkpointer', k')
      | None => for_each_step body wf (S i) todo' checkpointer' k'
      end
  end.

(** [simulate_workflow(checkpointer)]: the id of the workflow when all
    steps are done, or the exception that ended it.  [timestamp] and
    [_workflow_counter] are those of [generate_workflow_id]. *)
Definition simulate_workflow (timestamp : Z) (_workflow_counter : nat)
    (checkpointer : Checkpointer B) (k : Clock)
    : (Exception + string) * nat * Checkpointer B * Clock :=
  let '(workflow_id0, counter) :=
    generate_workflow_id "data_pipeline" timestamp _workflow_counter in
  let '(exc, checkpointer', k') :=
    for_each_step step_body workflow_id0 0 steps checkpointer k in
  (match exc with
   | Some e => inl e
   | None => inr workflow_id0
   end, counter, checkpointer', k').

End workflow.

(** The record that a scope leaves of its step: the record of the start,
    completed with the output of the body or failed with its exception. *)
Definition scope_record (wf name : string) (idx : Z) (input meta : value)
    (body : list stmt) (k : Clock) : Checkpoint :=
  let ran := run_body body (context wf name idx input meta) in
  let started := started_record wf name idx input meta k in
  set_updated_at (readings k (3 + ticks k))
    match ran.2 with
    | Some e => set_error (Some (exc_str e)) (set_status FAILED started)
    | None =>
        set_output_data (output_or_empty (_output ran.1))
          (set_status COMPLETED started)
    end.

(** ** A row that does not decode *)

(** A row of step 1 of the workflow of [started_out_of_order] whose status
    column holds a tag that is no status, as another program may have
    written it. *)
Definition spoiled_row : SQLite.Row :=
  {| SQLite.r_id := "wf_step_1"; SQLite.r_workflow_id := "wf";
     SQLite.r_step_name := "step_1"; SQLite.r_step_index := 1;
     SQLite.r_status := "done"; SQLite.r_input_data := "{}";
     SQLite.r_output_data := None; SQLite.r_error := None;
     SQLite.r_created_at := "2024-01-01T00:00:00";
     SQLite.r_updated_at := "2024-01-01T00:00:00";
     SQLite.r_metadata := None |}.

(** The table of [started_out_of_order] with that row in the place of the
    row of step 1. *)
Definition spoiled : Checkpointer SQLite.SQLiteCheckpointBackend :=
  {| _backend :=
       {| SQLite.table :=
            SQLite.insert_or_replace spoiled_row
              (SQLite.table (_backend started_out_of_order.1)) |};
     recovery_mode := RESUME_FROM_LAST |}.

(** ** Finishing a step that is stored *)

(** A list of checkpoints with the record of one step replaced. *)
Definition with_step_replaced (cp' : Checkpoint) (l : list Checkpoint)
    : list Checkpoint :=
  (λ c, if decide (step_index c = step_index cp') then cp' else c) <$> l.
(** * Properties *)

(** ** Sorting *)

Section sorted_facts.
Context {A : Type} (key : A → Z).

Lemma insert_by_key_perm x l : insert_by_key key x l ≡ₚ x :: l.
Proof.
  induction l as [|y l IH]; simpl; [done|].
  destruct (key x <=? key y)%Z; [done|].
  rewrite IH. apply perm_swap.
Qed.

Lemma sorted_by_key_perm l : sorted_by_key key l ≡ₚ l.
Proof.
  induction l as [|x l IH]; simpl; [done|].
  by rewrite insert_by_key_perm, IH.
Qed.

Lemma insert_by_key_ascending x l :
  ascending key l → ascending key (insert_by_key key x l).
Proof.
  unfold ascending. induction 1 as [|y l Hl IH Hy]; simpl.
  - repeat constructor.
  - destruct (Z.leb_spec (key x) (key y)) as [Hle|Hgt].
    + constructor; [by constructor|].
      constructor; [done|].
      eapply Forall_impl; [exact Hy|]. simpl. intros; lia.
    + constructor; [done|].
      rewrite insert_by_key_perm. constructor; [lia|done].
Qed.

Lemma sorted_by_key_ascending l : ascending key (sorted_by_key key l).
Proof.
  induction l as [|x l IH]; simpl; [constructor|].
  by apply insert_by_key_ascending.
Qed.

Lemma ascending_app_inv l1 l2 :
  ascending key (l1 ++ l2) →
  ∀ a b, a ∈ l1 → b ∈ l2 → (key a ≤ key b)%Z.
Proof.
  unfold ascending. induction l1 as [|x l1 IH]; simpl; intros Hs a b Ha Hb.
  - by apply elem_of_nil in Ha.
  - apply StronglySorted_inv in Hs as [Hs Hx].
    apply elem_of_cons in Ha as [->|Ha]; [|by eapply IH].
    rewrite Forall_forall in Hx. apply Hx.
    apply elem_of_app. by right.
Qed.

(** The last element of an ascending list has the greatest key. *)
Lemma ascending_last l x :
  ascending key l → last l = Some x → ∀ y, y ∈ l → (key y ≤ key x)%Z.
Proof.
  intros Hs Hlast y Hy.
  apply last_Some in Hlast as [l' ->].
  apply elem_of_app in Hy as [Hy|Hy].
  - eapply ascending_app_inv; [done..|]. by apply list_elem_of_singleton.
  - apply list_elem_of_singleton in Hy as ->. lia.
Qed.

End sorted_facts.

(** Sorting forgets the order of its argument, as far as the keys go. *)
Lemma sorted_keys_unique {A} (key : A → Z) (l1 l2 : list A) :
  l1 ≡ₚ l2 → key <$> sorted_by_key key l1 = key <$> sorted_by_key key l2.
Proof.
  intros Hperm.
  apply (StronglySorted_unique Z.le).
  - apply (StronglySorted_fmap key (λ a b, key a ≤ key b)%Z Z.le); [done|].
    apply sorted_by_key_ascending.
  - apply (StronglySorted_fmap key (λ a b, key a ≤ key b)%Z Z.le); [done|].
    apply sorted_by_key_ascending.
  - by rewrite !sorted_by_key_perm, Hperm.
Qed.

(** The first element of a list sorted on the negated key has the
    greatest key. *)
Lemma descending_head {A} (key : A → Z) (l : list A) x l' :
  sorted_by_key (λ a, - key a)%Z l = x :: l' →
  x ∈ l ∧ ∀ y, y ∈ l → (key y ≤ key x)%Z.
Proof.
  intros Heq.
  pose proof (sorted_by_key_perm (λ a, - key a)%Z l) as Hperm.
  pose proof (sorted_by_key_ascending (λ a, - key a)%Z l) as Hs.
  rewrite Heq in Hperm, Hs. split.
  - rewrite <-Hperm. by left.
  - intros y Hy. rewrite <-Hperm in Hy.
    apply elem_of_cons in Hy as [->|Hy]; [lia|].
    apply StronglySorted_inv in Hs as [_ Hx].
    rewrite Forall_forall in Hx. apply Hx in Hy. lia.
Qed.

(** ** Dictionaries *)

Lemma filter_ext_elem {A} (P1 P2 : A → Prop)
    `{!∀ x, Decision (P1 x), !∀ x, Decision (P2 x)} (l : list A) :
  (∀ x, x ∈ l → P1 x ↔ P2 x) → filter P1 l = filter P2 l.
Proof.
  induction l as [|a l IH]; intros Hiff; [done|].
  rewrite !filter_cons.
  rewrite IH by (intros; apply Hiff; by right).
  apply decide_ext, Hiff. by left.
Qed.

Section dict_facts.
Context {V : Type}.
Implicit Types d : list (string * V).

Lemma dict_get_set k v d k' :
  dict_get k' (dict_set k v d)
  = if decide (k = k') then Some v else dict_get k' d.
Proof.
  induction d as [|[k0 v0] d IH]; simpl.
  - by repeat case_decide.
  - repeat (case_decide; simpl; simplify_eq); done.
Qed.

Lemma dict_keys_set k v d :
  dict_keys (dict_set k v d)
  = if decide (k ∈ dict_keys d) then dict_keys d else dict_keys d ++ [k].
Proof.
  unfold dict_keys. induction d as [|[k0 v0] d IH].
  - by rewrite decide_False by apply not_elem_of_nil.
  - cbn [dict_set fmap list_fmap fst].
    destruct (decide (k0 = k)) as [->|Hne]; cbn [fmap list_fmap fst].
    + rewrite decide_True by left. done.
    + rewrite IH. destruct (decide (k ∈ d.*1)) as [Hin|Hnin].
      * rewrite decide_True by (by right). done.
      * rewrite decide_False; [done|].
        intros [?|?]%elem_of_cons; congruence.
Qed.

Lemma dict_ok_set k v d : dict_ok d → dict_ok (dict_set k v d).
Proof.
  unfold dict_ok. rewrite dict_keys_set. case_decide; [done|].
  intros Hd. apply NoDup_app. split_and!; [done| |apply NoDup_singleton].
  intros x Hx ->%list_elem_of_singleton. done.
Qed.

Lemma dict_ok_key_inj d x y :
  dict_ok d → x ∈ d → y ∈ d → x.1 = y.1 → x = y.
Proof.
  unfold dict_ok, dict_keys. induction d as [|z d IH]; simpl.
  - by intros _ ?%elem_of_nil.
  - intros [Hz Hd]%NoDup_cons [->|Hx]%elem_of_cons [->|Hy]%elem_of_cons Heq;
      [done| | |by apply IH].
    + destruct Hz. rewrite Heq. by apply list_elem_of_fmap_2.
    + destruct Hz. rewrite <-Heq. by apply list_elem_of_fmap_2.
Qed.

Lemma dict_get_Some k v d :
  dict_ok d → dict_get k d = Some v ↔ (k, v) ∈ d.
Proof.
  unfold dict_ok, dict_keys. induction d as [|[k0 v0] d IH]; simpl.
  - intros _. split; [done|]. by intros ?%elem_of_nil.
  - intros [Hk0 Hd]%NoDup_cons. case_decide as Hk; simplify_eq.
    + split; [intros [= ->]; left|].
      intros [[= ->]|Hin]%elem_of_cons; [done|].
      destruct Hk0. apply list_elem_of_fmap. by exists (k, v).
    + rewrite IH by done. split; [by right|].
      intros [[= -> ->]|Hin]%elem_of_cons; done.
Qed.

Lemma dict_ok_filter (P : string * V → Prop) `{!∀ x, Decision (P x)} d :
  dict_ok d → dict_ok (filter P d).
Proof.
  unfold dict_ok, dict_keys. induction d as [|z d IH]; simpl; [done|].
  intros [Hz Hd]%NoDup_cons. rewrite filter_cons.
  case_decide; [|by apply IH]. simpl. apply NoDup_cons. split; [|by apply IH].
  intros (y & Hy1 & [_ Hy2]%list_elem_of_filter)%list_elem_of_fmap.
  destruct Hz. rewrite Hy1. by apply list_elem_of_fmap_2.
Qed.

Lemma dict_del_filter k d :
  dict_ok d → dict_del k d = filter (λ kv, kv.1 ≠ k) d.
Proof.
  unfold dict_ok, dict_keys. induction d as [|[k0 v0] d IH]; simpl; [done|].
  intros [Hk0 Hd]%NoDup_cons. rewrite filter_cons; simpl.
  destruct (decide (k0 = k)) as [->|Hne].
  - rewrite decide_False by naive_solver.
    clear IH Hd. induction d as [|[k1 v1] d IH]; [done|].
    rewrite filter_cons. simpl in *.
    rewrite decide_True.
    + f_equal. apply IH. intros ?. apply Hk0. by right.
    + intros ->. apply Hk0. by left.
  - rewrite decide_True by done. f_equal. by apply IH.
Qed.

(** Deleting a list of keys one after the other. *)
Lemma foldl_dict_del ks d :
  dict_ok d →
  foldl (λ d k, dict_del k d) d ks = filter (λ kv, kv.1 ∉ ks) d.
Proof.
  revert d. induction ks as [|k ks IH]; intros d Hd; simpl.
  - symmetry. clear Hd. induction d as [|z d IHd]; [done|].
    rewrite filter_cons_True by apply not_elem_of_nil. by f_equal.
  - rewrite dict_del_filter by done.
    rewrite IH by by apply dict_ok_filter.
    rewrite list_filter_filter. apply list_filter_iff.
    intros x. rewrite not_elem_of_cons. tauto.
Qed.

(** Deleting the keys of the entries that satisfy [Q] leaves the other
    entries, in their order. *)
Lemma dict_del_matching (Q : string * V → Prop) `{!∀ x, Decision (Q x)} d :
  dict_ok d →
  foldl (λ d k, dict_del k d) d (filter Q d).*1 = filter (λ kv, ¬ Q kv) d.
Proof.
  intros Hd. rewrite foldl_dict_del by done.
  apply filter_ext_elem. intros x Hx. split.
  - intros Hnin HQ. apply Hnin. apply list_elem_of_fmap_2.
    by apply list_elem_of_filter.
  - intros HnQ (y & Hy1 & [HQ Hy2]%list_elem_of_filter)%list_elem_of_fmap.
    apply HnQ. by rewrite (dict_ok_key_inj d x y).
Qed.

(** After [d[k] = v] exactly one entry has the key [k]. *)
Lemma dict_set_one_entry k v d :
  dict_ok d → filter (λ kv, kv.1 = k) (dict_set k v d) = [(k, v)].
Proof.
  unfold dict_ok, dict_keys. induction d as [|[k0 v0] d IH]; simpl.
  - intros _. by rewrite filter_cons, decide_True.
  - intros [Hk0 Hd]%NoDup_cons. destruct (decide (k0 = k)) as [->|Hne].
    + rewrite filter_cons, decide_True by done. f_equal.
      clear IH Hd. induction d as [|[k1 v1] d IH]; [done|].
      rewrite filter_cons. simpl in *. rewrite decide_False.
      * apply IH. intros ?. apply Hk0. by right.
      * intros ->. apply Hk0. by left.
    + rewrite filter_cons, decide_False by done. by apply IH.
Qed.
End dict_facts.

(** ** The reference codec *)

Example json_dumps_list :
  Json.dumps (VList [VNone; VBool true; VInt (-12); VDict []; VList []])
  = "[null, true, -12, {}, []]".
Proof. reflexivity. Qed.

Example json_loads_dumps :
  let v := VDict [("task", VStr "te\st"); ("n", VInt (-12));
                  ("l", VList [VNone; VBool true; VDict []]); ("e", VList [])] in
  Json.loads (Json.dumps v) = Ok v.
Proof. vm_compute. reflexivity. Qed.

(** ** Results *)

Lemma result_bind_Ok {A B} (k : A → result B) (r : result A) (b : B) :
  r ≫= k = Ok b ↔ ∃ a, r = Ok a ∧ k a = Ok b.
Proof.
  destruct r as [a|e]; simpl.
  - split; [by exists a|]. by intros (? & [= <-] & ?).
  - split; [done|]. by intros (? & ? & _).
Qed.

Lemma rmap_list_Ok {A B} (f : A → result B) (l : list A) (bs : list B) :
  rmap_list f l = Ok bs ↔ Forall2 (λ a b, f a = Ok b) l bs.
Proof.
  revert bs. induction l as [|a l IH]; intros bs; simpl.
  - split; [by intros [= <-]; constructor|]. by intros ->%Forall2_nil_inv_l.
  - rewrite result_bind_Ok. split.
    + intros (b & Hb & (bs' & Hbs & [= <-])%result_bind_Ok).
      constructor; [done|]. by apply IH.
    + intros (b & bs' & Hb & Hbs & ->)%Forall2_cons_inv_l.
      exists b. split; [done|]. apply result_bind_Ok.
      exists bs'. split; [by apply IH|done].
Qed.

Lemma rmap_list_total {A B} (f : A → result B) (l : list A) :
  Forall (λ a, ∃ b, f a = Ok b) l → ∃ bs, rmap_list f l = Ok bs.
Proof.
  induction 1 as [|a l [b Hb] _ [bs Hbs]]; simpl; [by eexists|].
  exists (b :: bs). by rewrite Hb, Hbs.
Qed.

(** ** Rows and checkpoints *)

Section row_facts.
Context (json_loads : string → result value).

(** Decoding keeps the plain columns. *)
Lemma row_to_checkpoint_columns row cp :
  SQLite._row_to_checkpoint json_loads row = Ok cp →
  id cp = SQLite.r_id row ∧ workflow_id cp = SQLite.r_workflow_id row
  ∧ step_name cp = SQLite.r_step_name row
  ∧ step_index cp = SQLite.r_step_index row
  ∧ CheckpointStatus_of_value (SQLite.r_status row) = Ok (status cp)
  ∧ error cp = SQLite.r_error row
  ∧ created_at cp = SQLite.r_created_at row
  ∧ updated_at cp = SQLite.r_updated_at row.
Proof.
  unfold SQLite._row_to_checkpoint.
  intros (s & Hs & (i & _ & (o & _ & (m & _ & [= <-])%result_bind_Ok)
    %result_bind_Ok)%result_bind_Ok)%result_bind_Ok.
  by simpl.
Qed.

Lemma decoded_ascending rows l :
  Forall2 (λ r c, SQLite._row_to_checkpoint json_loads r = Ok c) rows l →
  ascending SQLite.r_step_index rows → ascending step_index l.
Proof.
  unfold ascending. induction 1 as [|r c rows l Hrc Hrows IH]; [constructor|].
  intros [Hs Hr]%StronglySorted_inv. constructor; [by apply IH|].
  apply row_to_checkpoint_columns in Hrc as (_ & _ & _ & -> & _).
  clear IH Hs. induction Hrows as [|r' c' rows l Hrc' _ IH]; [constructor|].
  apply Forall_cons in Hr as [Hr Hrs]. constructor; [|by apply IH].
  apply row_to_checkpoint_columns in Hrc' as (_ & _ & _ & -> & _). done.
Qed.
End row_facts.

(** ** Listing a workflow *)

(** C7. In every state of either backend and for every workflow id,
    [list_workflow_checkpoints] returns the stored checkpoints of that
    workflow and no others, ascending by [step_index], and
    [get_last_checkpoint] returns one of them with the greatest
    [step_index], or nothing when the workflow has none.  The step
    indices listed do not depend on the order in which the dictionary came
    to hold its checkpoints.  For the table the rows of the workflow are
    taken to decode. *)
Theorem list_workflow_checkpoints_sorted :
  (∀ (self : Memory.MemoryCheckpointBackend) (wf : string),
     let stored :=
       filter (λ cp, workflow_id cp = wf) (dict_values (Memory._checkpoints self)) in
     Memory.list_workflow_checkpoints wf self ≡ₚ stored
     ∧ ascending step_index (Memory.list_workflow_checkpoints wf self)
     ∧ match Memory.get_last_checkpoint wf self with
       | None => stored = []
       | Some cp => cp ∈ stored ∧ ∀ c, c ∈ stored → (step_index c ≤ step_index cp)%Z
       end)
  ∧ (∀ (self self' : Memory.MemoryCheckpointBackend) (wf : string),
     dict_values (Memory._checkpoints self)
     ≡ₚ dict_values (Memory._checkpoints self') →
     step_index <$> Memory.list_workflow_checkpoints wf self
     = step_index <$> Memory.list_workflow_checkpoints wf self')
  ∧ (∀ (json_loads : string → result value)
       (self : SQLite.SQLiteCheckpointBackend) (wf : string),
     let rows := filter (λ r, SQLite.r_workflow_id r = wf) (SQLite.table self) in
     Forall (λ r, ∃ cp, SQLite._row_to_checkpoint json_loads r = Ok cp) rows →
     ∃ l, SQLite.list_workflow_checkpoints json_loads wf self = Ok l
       ∧ (∃ rows', rows' ≡ₚ rows
            ∧ Forall2 (λ r cp, SQLite._row_to_checkpoint json_loads r = Ok cp) rows' l)
       ∧ ascending step_index l
       ∧ ∃ last_cp, SQLite.get_last_checkpoint json_loads wf self = Ok last_cp
           ∧ match last_cp with
             | None => l = []
             | Some cp => (∃ r, r ∈ rows ∧ SQLite._row_to_checkpoint json_loads r = Ok cp)
                          ∧ ∀ c, c ∈ l → (step_index c ≤ step_index cp)%Z
             end).
Proof.
  split_and!.
  - intros self wf stored.
    assert (Hperm : Memory.list_workflow_checkpoints wf self ≡ₚ stored)
      by apply sorted_by_key_perm.
    assert (Hasc : ascending step_index (Memory.list_workflow_checkpoints wf self))
      by apply sorted_by_key_ascending.
    split_and!; [done..|].
    unfold Memory.get_last_checkpoint.
    destruct (Memory.list_workflow_checkpoints wf self) as [|c0 l] eqn:Hl.
    + by apply Permutation_nil_l in Hperm.
    + destruct (last (c0 :: l)) as [cp|] eqn:Hlast.
      * split.
        -- rewrite <-Hperm. by eapply last_Some_elem_of.
        -- intros c Hc. rewrite <-Hperm in Hc. by eapply ascending_last.
      * by apply last_None in Hlast.
  - intros self self' wf Hperm. unfold Memory.list_workflow_checkpoints.
    apply sorted_keys_unique. by rewrite Hperm.
  - intros json_loads self wf rows Hdec.
    unfold SQLite.list_workflow_checkpoints, SQLite.get_last_checkpoint.
    fold rows.
    pose proof (sorted_by_key_perm SQLite.r_step_index rows) as Hperm.
    pose proof (sorted_by_key_ascending SQLite.r_step_index rows) as Hasc.
    destruct (rmap_list_total (SQLite._row_to_checkpoint json_loads)
                (sorted_by_key SQLite.r_step_index rows)) as [l Hl].
    { by rewrite Hperm. }
    exists l. pose proof Hl as Hl2. apply rmap_list_Ok in Hl2.
    split_and!; [done|by eauto|by eapply decoded_ascending|].
    destruct (sorted_by_key (λ r, - SQLite.r_step_index r)%Z rows)
      as [|r rs] eqn:Hdesc.
    + exists None. split; [done|].
      pose proof (sorted_by_key_perm (λ r, - SQLite.r_step_index r)%Z rows) as Hp.
      rewrite Hdesc in Hp. apply Permutation_nil_l in Hp.
      rewrite <-Hp in Hl2. by apply Forall2_nil_inv_l in Hl2.
    + apply descending_head in Hdesc as [Hr Hmax].
      rewrite Forall_forall in Hdec. destruct (Hdec r Hr) as [cp Hcp].
      exists (Some cp). rewrite Hcp. split; [done|]. split; [by eauto|].
      intros c Hc.
      destruct (list_elem_of_lookup_1 _ _ Hc) as [i Hi].
      destruct (Forall2_lookup_r _ _ _ _ _ Hl2 Hi) as (r' & Hr' & Hdec').
      apply list_elem_of_lookup_2 in Hr'. rewrite Hperm in Hr'.
      apply Hmax in Hr'.
      apply row_to_checkpoint_columns in Hcp as (_ & _ & _ & -> & _).
      apply row_to_checkpoint_columns in Hdec' as (_ & _ & _ & -> & _). done.
Qed.

(** ** Incomplete workflows *)

Lemma CheckpointStatus_of_value_Ok tag s :
  CheckpointStatus_of_value tag = Ok s ↔ tag = status_value s.
Proof.
  unfold CheckpointStatus_of_value. split.
  - repeat case_decide; intros [= <-]; done.
  - intros ->. by destruct s.
Qed.

(** The set the loop of the in-memory backend builds. *)
Lemma incomplete_loop (l : list Checkpoint) (acc : gset string) (wf : string) :
  wf ∈ foldl (λ (incomplete : gset string) cp,
                if bool_decide (status cp = PENDING ∨ status cp = IN_PROGRESS)
                then incomplete ∪ {[ workflow_id cp ]}
                else incomplete) acc l
  ↔ wf ∈ acc
    ∨ ∃ cp, cp ∈ l ∧ workflow_id cp = wf
            ∧ (status cp = PENDING ∨ status cp = IN_PROGRESS).
Proof.
  revert acc. induction l as [|c l IH]; intros acc; simpl.
  - split; [by left|]. intros [?|(cp & Hcp%elem_of_nil & _)]; done.
  - rewrite IH. case_bool_decide as Hc.
    + rewrite elem_of_union, elem_of_singleton. split.
      * intros [[?| ->]|(cp & ? & ? & ?)]; [by left|right..].
        -- exists c. split_and!; [left|done..].
        -- exists cp. split_and!; [by right|done..].
      * intros [?|(cp & [-> | ?]%elem_of_cons & ? & ?)]; [by left; left|..].
        -- left. right. done.
        -- right. by exists cp.
    + split.
      * intros [?|(cp & ? & ? & ?)]; [by left|right].
        exists cp. split_and!; [by right|done..].
      * intros [?|(cp & [-> | ?]%elem_of_cons & ? & ?)]; [by left|done|].
        right. by exists cp.
Qed.

(** C6. In every state of either backend, [get_incomplete_workflows]
    returns, each once, the workflow ids that have a checkpoint whose
    status is PENDING or IN_PROGRESS, and no others; so a workflow whose
    checkpoints are all COMPLETED or FAILED is not among them. *)
Theorem get_incomplete_workflows_exact :
  (∀ (self : Memory.MemoryCheckpointBackend) (wf : string),
     let stored := dict_values (Memory._checkpoints self) in
     NoDup (Memory.get_incomplete_workflows self)
     ∧ (wf ∈ Memory.get_incomplete_workflows self
        ↔ ∃ cp, cp ∈ stored ∧ workflow_id cp = wf
                ∧ (status cp = PENDING ∨ status cp = IN_PROGRESS))
     ∧ ((∀ cp, cp ∈ stored → workflow_id cp = wf →
               status cp = COMPLETED ∨ status cp = FAILED) →
        wf ∉ Memory.get_incomplete_workflows self))
  ∧ (∀ (self : SQLite.SQLiteCheckpointBackend) (wf : string),
     NoDup (SQLite.get_incomplete_workflows self)
     ∧ (wf ∈ SQLite.get_incomplete_workflows self
        ↔ ∃ r s, r ∈ SQLite.table self ∧ SQLite.r_workflow_id r = wf
                 ∧ CheckpointStatus_of_value (SQLite.r_status r) = Ok s
                 ∧ (s = PENDING ∨ s = IN_PROGRESS))
     ∧ ((∀ r s, r ∈ SQLite.table self → SQLite.r_workflow_id r = wf →
                CheckpointStatus_of_value (SQLite.r_status r) = Ok s →
                s = COMPLETED ∨ s = FAILED) →
        wf ∉ SQLite.get_incomplete_workflows self)).
Proof.
  split.
  - intros self wf stored.
    assert (Hiff : wf ∈ Memory.get_incomplete_workflows self
        ↔ ∃ cp, cp ∈ stored ∧ workflow_id cp = wf
                ∧ (status cp = PENDING ∨ status cp = IN_PROGRESS)).
    { unfold Memory.get_incomplete_workflows. rewrite elem_of_elements.
      rewrite incomplete_loop. split; [|by right].
      intros [?%elem_of_empty|?]; done. }
    split_and!; [unfold Memory.get_incomplete_workflows; apply NoDup_elements|done|].
    intros Hall. rewrite Hiff. intros (cp & Hcp & Hwf & Hst).
    destruct (Hall cp Hcp Hwf) as [H|H]; rewrite H in Hst;
      by destruct Hst.
  - intros self wf.
    assert (Hiff : wf ∈ SQLite.get_incomplete_workflows self
        ↔ ∃ r s, r ∈ SQLite.table self ∧ SQLite.r_workflow_id r = wf
                 ∧ CheckpointStatus_of_value (SQLite.r_status r) = Ok s
                 ∧ (s = PENDING ∨ s = IN_PROGRESS)).
    { unfold SQLite.get_incomplete_workflows.
      rewrite elem_of_remove_dups, list_elem_of_fmap. split.
      - intros (r & -> & [Hst Hr]%list_elem_of_filter).
        destruct Hst as [Hst|Hst].
        + exists r, PENDING. rewrite CheckpointStatus_of_value_Ok. eauto.
        + exists r, IN_PROGRESS. rewrite CheckpointStatus_of_value_Ok. eauto.
      - intros (r & s & Hr & <- & Hs%CheckpointStatus_of_value_Ok & Hst).
        exists r. split; [done|]. apply list_elem_of_filter. split; [|done].
        rewrite Hs. destruct Hst as [-> | ->]; [by left|by right]. }
    split_and!; [unfold SQLite.get_incomplete_workflows; apply NoDup_remove_dups|done|].
    intros Hall. rewrite Hiff. intros (r & s & Hr & Hwf & Hs & Hst).
    destruct (Hall r s Hr Hwf Hs) as [-> | ->]; by destruct Hst.
Qed.

(** ** Cleanup *)

Lemma filter_values {V} (P : V → Prop) `{!∀ x, Decision (P x)}
    (d : list (string * V)) :
  filter P (dict_values d) = dict_values (filter (λ kv, P kv.2) d).
Proof.
  unfold dict_values. induction d as [|[k v] d IH]; [done|].
  cbn [fmap list_fmap snd]. rewrite !filter_cons. simpl.
  case_decide; [cbn [fmap list_fmap snd]|]; by rewrite IH.
Qed.

Lemma filter_complement_nil {A} (P : A → Prop) `{!∀ x, Decision (P x)}
    (l : list A) :
  filter P (filter (λ x, ¬ P x) l) = [].
Proof.
  induction l as [|a l IH]; [done|].
  rewrite filter_cons. case_decide; [|done].
  by rewrite filter_cons_False by done.
Qed.

Lemma Memory_delete_state wf (self : Memory.MemoryCheckpointBackend) :
  dict_ok (Memory._checkpoints self) →
  Memory._checkpoints (Memory.delete_workflow_checkpoints wf self).2
  = filter (λ item, ¬ workflow_id item.2 = wf) (Memory._checkpoints self).
Proof. intros Hd. simpl. by apply dict_del_matching. Qed.

Lemma Memory_delete_count wf (self : Memory.MemoryCheckpointBackend) :
  (Memory.delete_workflow_checkpoints wf self).1
  = length (Memory.list_workflow_checkpoints wf self).
Proof.
  unfold Memory.list_workflow_checkpoints. simpl.
  rewrite (Permutation_length (sorted_by_key_perm _ _)).
  rewrite filter_values. unfold dict_values. by rewrite !length_fmap.
Qed.

Lemma find_filter_other {A} (p : A → bool) (Q : A → Prop)
    `{!∀ x, Decision (Q x)} (l : list A) :
  (∀ x, x ∈ l → p x = true → Q x) →
  List.find p (filter Q l) = List.find p l.
Proof.
  induction l as [|a l IH]; intros HpQ; [done|].
  rewrite filter_cons. simpl. destruct (p a) eqn:Hpa.
  - rewrite decide_True by (apply HpQ; [left|done]). simpl. by rewrite Hpa.
  - case_decide; simpl; rewrite ?Hpa; apply IH; intros; apply HpQ;
      done || by right.
Qed.

(** C8. On either backend [cleanup_workflow] returns the number of stored
    checkpoints of the workflow; afterwards the workflow has none, the
    checkpoints of every other workflow are listed and loaded as before,
    and a second call returns 0. *)
Theorem cleanup_workflow_deletes_all :
  (∀ (self : Checkpointer Memory.MemoryCheckpointBackend) (wf : string),
     dict_ok (Memory._checkpoints (_backend self)) →
     let n := (cleanup_workflow wf self).1 in
     let self' := (cleanup_workflow wf self).2 in
     (∃ l, list_checkpoints wf self = Ok l ∧ n = length l)
     ∧ list_checkpoints wf self' = Ok []
     ∧ (∀ wf', wf' ≠ wf → list_checkpoints wf' self' = list_checkpoints wf' self)
     ∧ (∀ cp_id cp, load cp_id (_backend self) = Ok (Some cp) →
          workflow_id cp ≠ wf → load cp_id (_backend self') = Ok (Some cp))
     ∧ (cleanup_workflow wf self').1 = 0
     ∧ dict_ok (Memory._checkpoints (_backend self')))
  ∧ (∀ (json_dumps : value → string) (json_loads : string → result value)
       (self : Checkpointer SQLite.SQLiteCheckpointBackend) (wf : string),
     let sqlite := SQLite_backend json_dumps json_loads in
     let n := (cleanup_workflow (backend := sqlite) wf self).1 in
     let self' := (cleanup_workflow (backend := sqlite) wf self).2 in
     n = length (filter (λ r, SQLite.r_workflow_id r = wf) (SQLite.table (_backend self)))
     ∧ list_checkpoints (backend := sqlite) wf self' = Ok []
     ∧ (∀ wf', wf' ≠ wf →
          list_checkpoints (backend := sqlite) wf' self'
          = list_checkpoints (backend := sqlite) wf' self)
     ∧ (∀ cp_id,
          (∀ r, r ∈ SQLite.table (_backend self) → SQLite.r_id r = cp_id →
                SQLite.r_workflow_id r ≠ wf) →
          load (CheckpointBackend := sqlite) cp_id (_backend self')
          = load (CheckpointBackend := sqlite) cp_id (_backend self))
     ∧ (cleanup_workflow (backend := sqlite) wf self').1 = 0).
Proof.
  split.
  - intros [b mode] wf Hd n self'. subst n self'.
    unfold cleanup_workflow, list_checkpoints. simpl in Hd.
    cbn [_backend with_backend fst snd delete_workflow_checkpoints
         list_workflow_checkpoints load Memory_backend].
    destruct (Memory.delete_workflow_checkpoints wf b) as [n b'] eqn:Hdel.
    cbn [_backend with_backend fst snd].
    assert (Hn : n = length (Memory.list_workflow_checkpoints wf b)).
    { rewrite <-Memory_delete_count. by rewrite Hdel. }
    assert (Hb' : Memory._checkpoints b'
              = filter (λ item, ¬ workflow_id item.2 = wf) (Memory._checkpoints b)).
    { rewrite <-Memory_delete_state by done. by rewrite Hdel. }
    assert (Hok : dict_ok (Memory._checkpoints b')).
    { rewrite Hb'. by apply dict_ok_filter. }
    assert (Hempty : Memory.list_workflow_checkpoints wf b' = []).
    { unfold Memory.list_workflow_checkpoints.
      rewrite filter_values, Hb'.
      by rewrite (filter_complement_nil (λ kv, workflow_id kv.2 = wf)). }
    split_and!.
    + by eexists.
    + by rewrite Hempty.
    + intros wf' Hne. f_equal. unfold Memory.list_workflow_checkpoints.
      f_equal. rewrite !filter_values, Hb'. f_equal.
      apply list_filter_filter_l. simpl. congruence.
    + intros cp_id cp [= Hload] Hne. f_equal.
      unfold Memory.load in *. apply dict_get_Some; [done|].
      rewrite Hb'. apply list_elem_of_filter. split; [done|].
      by apply dict_get_Some.
    + pose proof (Memory_delete_count wf b') as Hc. rewrite Hempty in Hc.
      by destruct (Memory.delete_workflow_checkpoints wf b').
    + done.
  - intros json_dumps json_loads [b mode] wf sqlite n self'. subst n self' sqlite.
    unfold cleanup_workflow, list_checkpoints.
    cbn [_backend with_backend fst snd delete_workflow_checkpoints
         list_workflow_checkpoints load SQLite_backend
         SQLite.delete_workflow_checkpoints SQLite.table].
    unfold SQLite.list_workflow_checkpoints, SQLite.load.
    cbn [SQLite.table].
    split_and!.
    + done.
    + by rewrite (filter_complement_nil (λ r, SQLite.r_workflow_id r = wf)).
    + intros wf' Hne. do 2 f_equal.
      apply list_filter_filter_l. simpl. congruence.
    + intros cp_id Hother. rewrite find_filter_other; [done|].
      intros r Hr Hid%bool_decide_eq_true. by apply Hother.
    + by rewrite (filter_complement_nil (λ r, SQLite.r_workflow_id r = wf)).
Qed.

(** ** The recovery point *)

Lemma first_match_reverse (P : Checkpoint → Prop) `{!∀ c, Decision (P c)}
    (l : list Checkpoint) :
  last_such P l (first_match (λ cp, bool_decide (P cp)) (reverse l)).
Proof.
  induction l as [|x l IH] using rev_ind; [by constructor|].
  rewrite reverse_snoc. simpl. case_bool_decide as Hx.
  - exists l, []. by split_and!.
  - destruct (first_match _ (reverse l)) as [cp|]; simpl in *.
    + destruct IH as (before & after & -> & Hcp & Hafter).
      exists before, (after ++ [x]). split_and!; [by rewrite <-app_assoc|done|].
      apply Forall_app. split; [done|]. by constructor.
    + apply Forall_app. split; [done|]. by constructor.
Qed.

Lemma last_such_greatest (P : Checkpoint → Prop) (l : list Checkpoint) r :
  ascending step_index l → last_such P l r → greatest_such P l r.
Proof.
  intros Hasc. destruct r as [cp|]; simpl.
  - intros (before & after & -> & Hcp & Hafter). split_and!; [|done|].
    + apply elem_of_app. right. by left.
    + intros c Hc HPc. rewrite Forall_forall in Hafter.
      apply elem_of_app in Hc as [Hc|[->|Hc]%elem_of_cons].
      * eapply ascending_app_inv; [done..|]. by left.
      * lia.
      * by destruct (Hafter c Hc).
  - intros Hall c Hc. rewrite Forall_forall in Hall. by apply Hall.
Qed.

Lemma last_greatest (l : list Checkpoint) :
  ascending step_index l → greatest_such (λ _, True) l (last l).
Proof.
  intros Hasc. destruct (last l) as [cp|] eqn:Hlast; simpl.
  - split_and!; [by eapply last_Some_elem_of|done|].
    intros c Hc _. by eapply ascending_last.
  - apply last_None in Hlast as ->. by intros c ?%elem_of_nil.
Qed.

(** C1. [get_recovery_point] over the list [list_workflow_checkpoints]
    gives for the workflow, ascending by [step_index].  RESUME_FROM_LAST:
    the last checkpoint, which has the greatest [step_index], or nothing
    when the list is empty.  RESTART_TASK: the last checkpoint that is
    FAILED or IN_PROGRESS, none after it and none with a greater
    [step_index] being so; when there is none, the last checkpoint, or
    nothing when the list is empty.  SKIP_FAILED: the last COMPLETED
    checkpoint, in the same sense, or nothing when none is COMPLETED.
    MANUAL: nothing, whatever is stored. *)
Theorem get_recovery_point_branches {B : Type} {backend : CheckpointBackend B}
    (self : Checkpointer B) (wf : string) :
  (recovery_mode self = MANUAL → get_recovery_point wf self = Ok None)
  ∧ ∀ checkpoints,
      list_workflow_checkpoints wf (_backend self) = Ok checkpoints →
      ascending step_index checkpoints →
      ∃ r, get_recovery_point wf self = Ok r
        ∧ match recovery_mode self with
          | RESUME_FROM_LAST =>
              r = last checkpoints ∧ greatest_such (λ _, True) checkpoints r
          | RESTART_TASK =>
              ∃ found, last_such restartable checkpoints found
                ∧ greatest_such restartable checkpoints found
                ∧ match found with
                  | Some cp => r = Some cp
                  | None => r = last checkpoints
                            ∧ greatest_such (λ _, True) checkpoints r
                  end
          | SKIP_FAILED =>
              last_such (λ cp, status cp = COMPLETED) checkpoints r
              ∧ greatest_such (λ cp, status cp = COMPLETED) checkpoints r
          | MANUAL => r = None
          end.
Proof.
  split.
  - intros Hmode. unfold get_recovery_point. by rewrite decide_True.
  - intros checkpoints Hlist Hasc. unfold get_recovery_point. rewrite Hlist.
    simpl.
    pose proof (last_greatest checkpoints Hasc) as Hlast.
    pose proof (first_match_reverse restartable checkpoints) as Hrestart.
    pose proof (first_match_reverse (λ cp, status cp = COMPLETED) checkpoints)
      as Hskip.
    destruct (recovery_mode self) eqn:Hmode; simpl.
    + (* RESUME_FROM_LAST *)
      destruct checkpoints as [|c l]; [by eexists|].
      eexists. split; [done|]. by split.
    + (* RESTART_TASK *)
      clear Hskip. destruct checkpoints as [|c l].
      { exists None. split; [done|]. exists None.
        split_and!; [constructor|by intros c ?%elem_of_nil|done..]. }
      unfold restartable in *.
      destruct (first_match _ (reverse (c :: l))) as [cp|].
      * exists (Some cp). split; [done|]. exists (Some cp).
        split_and!; [done| |done]. by apply last_such_greatest.
      * eexists. split; [done|]. exists None.
        split_and!; [done| |done..]. by apply (last_such_greatest _ _ None).
    + (* SKIP_FAILED *)
      clear Hrestart. destruct checkpoints as [|c l].
      { exists None. split; [done|].
        split; [constructor|by intros c ?%elem_of_nil]. }
      destruct (first_match _ (reverse (c :: l))) as [cp|].
      * exists (Some cp). split; [done|]. split; [done|].
        by apply last_such_greatest.
      * exists None. split; [done|]. split; [done|].
        by apply (last_such_greatest _ _ None).
    + (* MANUAL *)
      by exists None.
Qed.

(** ** Checkpoint ids *)

Lemma chars_app (s1 s2 : string) :
  String.list_ascii_of_string (s1 +:+ s2)
  = String.list_ascii_of_string s1 ++ String.list_ascii_of_string s2.
Proof. induction s1 as [|c s1 IH]; simpl; [done|]. by rewrite IH. Qed.

Lemma chars_inj (s1 s2 : string) :
  String.list_ascii_of_string s1 = String.list_ascii_of_string s2 → s1 = s2.
Proof.
  intros H. rewrite <-(String.string_of_list_ascii_of_string s1),
    <-(String.string_of_list_ascii_of_string s2). by rewrite H.
Qed.

(** A list is cut in one way only at the last occurrence of an element. *)
Lemma split_at_last {A} (x : A) (l1 l2 d1 d2 : list A) :
  x ∉ d1 → x ∉ d2 → l1 ++ x :: d1 = l2 ++ x :: d2 → l1 = l2 ∧ d1 = d2.
Proof.
  intros Hd1 Hd2. revert l2. induction l1 as [|a l1 IH]; intros [|b l2] Heq;
    simplify_eq/=.
  - done.
  - destruct Hd1. apply elem_of_app. right. by left.
  - destruct Hd2. apply elem_of_app. right. by left.
  - destruct (IH l2) as [-> ->]; done.
Qed.

Lemma pretty_N_go_chars (c : ascii) (x : N) (s : string) :
  (∀ d, (d < 10)%N → pretty_N_char d ≠ c) →
  c ∉ String.list_ascii_of_string s → c ∉ String.list_ascii_of_string (pretty_N_go x s).
Proof.
  intros Hc. revert s. induction (N.lt_wf_0 x) as [x _ IH]; intros s Hs.
  destruct (decide (x = 0)%N) as [->|Hx]; [by rewrite pretty_N_go_0|].
  rewrite pretty_N_go_step by lia. apply IH.
  - apply N.div_lt; lia.
  - simpl. apply not_elem_of_cons. split; [|done].
    intros Heq. eapply Hc; [|done]. by apply N.mod_lt.
Qed.

Lemma pretty_N_char_not_underscore d : pretty_N_char d ≠ "_"%char.
Proof. unfold pretty_N_char. by repeat case_match. Qed.

(** The decimal form of an integer has no underscore. *)
Lemma pretty_Z_no_underscore (z : Z) :
  "_"%char ∉ String.list_ascii_of_string (pretty z).
Proof.
  assert (HN : ∀ n : N, "_"%char ∉ String.list_ascii_of_string (pretty n)).
  { intros n. unfold pretty, pretty_N. case_decide.
    - simpl. by intros [?|?%elem_of_nil]%elem_of_cons.
    - apply pretty_N_go_chars; [|by apply not_elem_of_nil].
      intros d _. apply pretty_N_char_not_underscore. }
  destruct z as [|p|p]; unfold pretty, pretty_Z.
  - simpl. by intros [?|?%elem_of_nil]%elem_of_cons.
  - apply HN.
  - rewrite chars_app. apply not_elem_of_app. split; [|apply HN].
    simpl. by intros [?|?%elem_of_nil]%elem_of_cons.
Qed.

Lemma generate_checkpoint_id_chars (wf : string) (i : Z) :
  String.list_ascii_of_string (generate_checkpoint_id wf i)
  = (String.list_ascii_of_string wf ++ String.list_ascii_of_string "_step")
    ++ "_"%char :: String.list_ascii_of_string (pretty i).
Proof.
  unfold generate_checkpoint_id. rewrite !chars_app.
  by rewrite <-app_assoc.
Qed.

(** C9. [generate_checkpoint_id] is a function of its two arguments, and
    two calls give the same id only for the same workflow id and the same
    step index, over all strings and all integers. *)
Theorem generate_checkpoint_id_injective (wf1 wf2 : string) (i1 i2 : Z) :
  generate_checkpoint_id wf1 i1 = generate_checkpoint_id wf2 i2
  ↔ wf1 = wf2 ∧ i1 = i2.
Proof.
  split; [|by intros [-> ->]].
  intros Heq. apply (f_equal String.list_ascii_of_string) in Heq.
  rewrite !generate_checkpoint_id_chars in Heq.
  apply split_at_last in Heq as [Hwf Hi]; [|apply pretty_Z_no_underscore..].
  apply app_inv_tail in Hwf. apply chars_inj in Hwf, Hi.
  split; [done|]. by apply (inj pretty).
Qed.

(** ** Saving *)

Lemma find_insert_or_replace (r : SQLite.Row) (t : list SQLite.Row) i :
  SQLite.r_id r = i →
  List.find (λ r', bool_decide (SQLite.r_id r' = i))
    (SQLite.insert_or_replace r t) = Some r.
Proof.
  intros <-. unfold SQLite.insert_or_replace. induction t as [|a t IH]; simpl.
  - by rewrite bool_decide_eq_true_2.
  - rewrite filter_cons. case_decide as Ha; [|done]. simpl.
    by rewrite bool_decide_eq_false_2.
Qed.

Lemma filter_insert_or_replace (r : SQLite.Row) (t : list SQLite.Row) i :
  SQLite.r_id r = i →
  filter (λ r', SQLite.r_id r' = i) (SQLite.insert_or_replace r t) = [r].
Proof.
  intros <-. unfold SQLite.insert_or_replace. rewrite filter_app.
  rewrite (filter_complement_nil (λ r', SQLite.r_id r' = SQLite.r_id r)).
  by rewrite filter_cons_True.
Qed.

(** What [save] does on the in-memory backend. *)
Lemma Memory_save_eq cp (b : Memory.MemoryCheckpointBackend) k :
  let now := readings k (ticks k) in
  save cp b k
  = (None, set_updated_at now cp,
     {| Memory._checkpoints :=
          dict_set (id cp) (set_updated_at now cp) (Memory._checkpoints b) |},
     (utcnow_isoformat k).2).
Proof. done. Qed.

(** What [save] does on the table backend. *)
Lemma SQLite_save_eq json_dumps json_loads cp
    (b : SQLite.SQLiteCheckpointBackend) k :
  let now := readings k (ticks k) in
  save (CheckpointBackend := SQLite_backend json_dumps json_loads) cp b k
  = if SQLite.fits_int64 (step_index cp)
    then (None, set_updated_at now cp,
          {| SQLite.table :=
               SQLite.insert_or_replace
                 (SQLite.checkpoint_row json_dumps (set_updated_at now cp))
                 (SQLite.table b) |},
          (utcnow_isoformat k).2)
    else (Some SQLite.OverflowError, set_updated_at now cp, b,
          (utcnow_isoformat k).2).
Proof. done. Qed.

(** On either backend [save] hands the argument on with [updated_at]
    assigned, whether it raises or not. *)
Lemma Memory_save_record cp (b : Memory.MemoryCheckpointBackend) k :
  (save cp b k).1.1.2 = set_updated_at (readings k (ticks k)) cp.
Proof. done. Qed.

Lemma SQLite_save_record json_dumps json_loads cp
    (b : SQLite.SQLiteCheckpointBackend) k :
  (save (CheckpointBackend := SQLite_backend json_dumps json_loads) cp b k).1.1.2
  = set_updated_at (readings k (ticks k)) cp.
Proof. rewrite SQLite_save_eq. by case_match. Qed.

(** ** The frame of completing and failing *)


(** ** The error field *)

Lemma checkpoint_start_record {B} {backend : CheckpointBackend B}
    wf name idx input meta (self : Checkpointer B) k :
  (∀ cp b k0, (save cp b k0).1.1.2 = set_updated_at (readings k0 (ticks k0)) cp) →
  (checkpoint_start wf name idx input meta self k).1.1.2
  = {| id := generate_checkpoint_id wf idx; workflow_id := wf;
       step_name := name; step_index := idx; status := IN_PROGRESS;
       input_data := input; output_data := VNone; error := None;
       created_at := readings k (ticks k);
       updated_at := readings k (S (S (ticks k)));
       metadata := if truthy meta then meta else VDict [] |}.
Proof.
  intros Hsave. unfold checkpoint_start, Checkpoint_init. simpl.
  save_step Hsave. by subst.
Qed.

(** On a backend whose [save] only assigns [updated_at], a produced record
    that is FAILED has an error. *)
Lemma produced_failed_has_error {B} {backend : CheckpointBackend B} cp :
  (∀ cp b k0, (save cp b k0).1.1.2 = set_updated_at (readings k0 (ticks k0)) cp) →
  produced cp → failed_has_error cp.
Proof.
  intros Hsave. unfold failed_has_error.
  induction 1 as [wf name idx input meta self k|cp out self k _ _
                 |cp err self k _ _|cp self k _ _].
  - by rewrite checkpoint_start_record.
  - unfold checkpoint_complete.
    save_step Hsave. by subst.
  - unfold checkpoint_failed.
    save_step Hsave. subst. simpl. by eexists.
  - unfold mark_recovered.
    save_step Hsave. by subst.
Qed.

Lemma stamping_keeps_error_contract {B} (backend : CheckpointBackend B) :
  (∀ cp b k0, (save cp b k0).1.1.2 = set_updated_at (readings k0 (ticks k0)) cp) →
  error_contract_kept backend.
Proof.
  intros Hsave. unfold error_contract_kept, error_iff_failed. split_and!.
  - intros cp. by apply produced_failed_has_error.
  - intros. rewrite checkpoint_start_record by done. simpl.
    split; [by intros [? ?]|done].
  - intros. unfold checkpoint_failed. save_step Hsave. subst. simpl.
    split; [done|by eexists].
  - intros cp out self k. unfold checkpoint_complete. save_step Hsave. subst.
    simpl. split; [done|]. intros Hinv Hst. split; [|done].
    intros Herr. by destruct Hst; apply Hinv.
  - intros cp self k. unfold mark_recovered. save_step Hsave. subst.
    simpl. split; [done|]. intros Hinv Hst. split; [|done].
    intros Herr. by destruct Hst; apply Hinv.
Qed.

(** C4, as the code has it. On either backend a record that the operations
    produce and that is FAILED has an error; [checkpoint_start] and
    [checkpoint_failed] give a record with an error exactly when it is
    FAILED; [checkpoint_complete] and [mark_recovered] leave the error
    field as it is, so they keep the invariant of a record that is not
    FAILED. *)
Theorem error_contract_of_operations :
  error_contract_kept Memory_backend
  ∧ ∀ json_dumps json_loads,
      error_contract_kept (SQLite_backend json_dumps json_loads).
Proof.
  split; [|intros json_dumps json_loads];
    apply stamping_keeps_error_contract.
  - apply Memory_save_record.
  - apply SQLite_save_record.
Qed.

(** C4 as stated fails: a step is started, fails, and is marked as
    recovered; the record before [mark_recovered] has an error exactly as
    it is FAILED, the record after is RECOVERED and still has the error. *)
Lemma mark_recovered_keeps_error :
  let started :=
    checkpoint_start "wf" "step_1" 0 (VDict []) VNone
      (memory_checkpointer RESUME_FROM_LAST) example_clock in
  let failed := checkpoint_failed started.1.1.2 "boom" started.1.2 started.2 in
  let recovered := mark_recovered failed.1.1.2 failed.1.2 failed.2 in
  error_iff_failed failed.1.1.2
  ∧ status recovered.1.1.2 = RECOVERED
  ∧ error recovered.1.1.2 = Some "boom"
  ∧ ¬ error_iff_failed recovered.1.1.2.
Proof.
  unfold error_iff_failed. simpl. split_and!; [|done..|].
  - split; [done|by eexists].
  - intros [Hfailed _]. by specialize (Hfailed (ex_intro _ "boom" eq_refl)).
Qed.

(** ** Starting a step twice *)

Lemma Memory_checkpoint_start_eq wf name idx input meta
    (self : Checkpointer Memory.MemoryCheckpointBackend) k :
  checkpoint_start wf name idx input meta self k
  = (None, started_record wf name idx input meta k,
     {| _backend :=
          {| Memory._checkpoints :=
               dict_set (generate_checkpoint_id wf idx)
                 (started_record wf name idx input meta k)
                 (Memory._checkpoints (_backend self)) |};
        recovery_mode := recovery_mode self |},
     {| readings := readings k; ticks := 3 + ticks k |}).
Proof. done. Qed.

Lemma SQLite_checkpoint_start_eq json_dumps json_loads wf name idx input meta
    (self : Checkpointer SQLite.SQLiteCheckpointBackend) k :
  checkpoint_start (backend := SQLite_backend json_dumps json_loads)
    wf name idx input meta self k
  = if SQLite.fits_int64 idx
    then (None, started_record wf name idx input meta k,
          {| _backend :=
               {| SQLite.table :=
                    SQLite.insert_or_replace
                      (SQLite.checkpoint_row json_dumps
                         (started_record wf name idx input meta k))
                      (SQLite.table (_backend self)) |};
             recovery_mode := recovery_mode self |},
          {| readings := readings k; ticks := 3 + ticks k |})
    else (Some SQLite.OverflowError, started_record wf name idx input meta k,
          {| _backend := _backend self; recovery_mode := recovery_mode self |},
          {| readings := readings k; ticks := 3 + ticks k |}).
Proof.
  unfold checkpoint_start, Checkpoint_init.
  cbn [utcnow_isoformat readings ticks]. rewrite SQLite_save_eq.
  cbn [step_index]. by destruct (SQLite.fits_int64 idx).
Qed.

(** C2, as the code has it. A second [checkpoint_start] for the same
    workflow and step index replaces the record of the first: the backend
    then holds under the id one record, the one the second call made, with
    the fields given to the second call; its [created_at] is the reading of
    the clock at the second call, while the record of the first call has
    the reading at the first.  On the table this is so for a step index of
    64 bits; for another one both calls raise and no row is written.
    Completing, failing and marking as recovered do keep [created_at]: the
    record that the backend holds under the id afterwards, in the
    dictionary or as a row, has the [created_at] of the record given. *)
Theorem second_start_overwrites :
  (∀ (self : Checkpointer Memory.MemoryCheckpointBackend) (k : Clock)
     (wf : string) (idx : Z) (name1 name2 : string)
     (input1 meta1 input2 meta2 : value),
     dict_ok (Memory._checkpoints (_backend self)) →
     let first := checkpoint_start wf name1 idx input1 meta1 self k in
     let second := checkpoint_start wf name2 idx input2 meta2 first.1.2 first.2 in
     let cp_id := generate_checkpoint_id wf idx in
     first.1.1.1 = None ∧ second.1.1.1 = None
     ∧ id first.1.1.2 = cp_id ∧ id second.1.1.2 = cp_id
     ∧ load cp_id (_backend second.1.2) = Ok (Some second.1.1.2)
     ∧ filter (λ item, item.1 = cp_id) (Memory._checkpoints (_backend second.1.2))
       = [(cp_id, second.1.1.2)]
     ∧ step_name second.1.1.2 = name2 ∧ input_data second.1.1.2 = input2
     ∧ metadata second.1.1.2 = (if truthy meta2 then meta2 else VDict [])
     ∧ status second.1.1.2 = IN_PROGRESS
     ∧ created_at first.1.1.2 = readings k (ticks k)
     ∧ created_at second.1.1.2 = readings k (3 + ticks k))
  ∧ (∀ (json_dumps : value → string) (json_loads : string → result value)
       (self : Checkpointer SQLite.SQLiteCheckpointBackend) (k : Clock)
       (wf : string) (idx : Z) (name1 name2 : string)
       (input1 meta1 input2 meta2 : value),
     let sqlite := SQLite_backend json_dumps json_loads in
     let first := checkpoint_start (backend := sqlite) wf name1 idx input1 meta1 self k in
     let second :=
       checkpoint_start (backend := sqlite) wf name2 idx input2 meta2
         first.1.2 first.2 in
     let cp_id := generate_checkpoint_id wf idx in
     if SQLite.fits_int64 idx
     then
       first.1.1.1 = None ∧ second.1.1.1 = None
       ∧ id first.1.1.2 = cp_id ∧ id second.1.1.2 = cp_id
       ∧ filter (λ r, SQLite.r_id r = cp_id) (SQLite.table (_backend second.1.2))
         = [SQLite.checkpoint_row json_dumps second.1.1.2]
       ∧ step_name second.1.1.2 = name2 ∧ input_data second.1.1.2 = input2
       ∧ metadata second.1.1.2 = (if truthy meta2 then meta2 else VDict [])
       ∧ status second.1.1.2 = IN_PROGRESS
       ∧ created_at first.1.1.2 = readings k (ticks k)
       ∧ created_at second.1.1.2 = readings k (3 + ticks k)
     else
       first.1.1.1 = Some SQLite.OverflowError
       ∧ second.1.1.1 = Some SQLite.OverflowError
       ∧ _backend second.1.2 = _backend self)
  ∧ (∀ (self : Checkpointer Memory.MemoryCheckpointBackend) (k : Clock)
       (cp : Checkpoint) (output : value) (err : string),
     let kept (r : option Exception * Checkpoint
                   * Checkpointer Memory.MemoryCheckpointBackend * Clock) :=
       r.1.1.1 = None
       ∧ created_at r.1.1.2 = created_at cp
       ∧ ∃ stored, load (id cp) (_backend r.1.2) = Ok (Some stored)
                   ∧ created_at stored = created_at cp in
     kept (checkpoint_complete cp output self k)
     ∧ kept (checkpoint_failed cp err self k)
     ∧ kept (mark_recovered cp self k))
  ∧ (∀ (json_dumps : value → string) (json_loads : string → result value)
       (self : Checkpointer SQLite.SQLiteCheckpointBackend) (k : Clock)
       (cp : Checkpoint) (output : value) (err : string),
     let sqlite := SQLite_backend json_dumps json_loads in
     let kept (r : option Exception * Checkpoint
                   * Checkpointer SQLite.SQLiteCheckpointBackend * Clock) :=
       created_at r.1.1.2 = created_at cp
       ∧ if SQLite.fits_int64 (step_index cp)
         then r.1.1.1 = None
              ∧ ∃ row, filter (λ r', SQLite.r_id r' = id cp)
                         (SQLite.table (_backend r.1.2)) = [row]
                       ∧ SQLite.r_created_at row = created_at cp
         else r.1.1.1 = Some SQLite.OverflowError
              ∧ _backend r.1.2 = _backend self in
     kept (checkpoint_complete (backend := sqlite) cp output self k)
     ∧ kept (checkpoint_failed (backend := sqlite) cp err self k)
     ∧ kept (mark_recovered (backend := sqlite) cp self k)).
Proof.
  split_and!.
  - intros self k wf idx name1 name2 input1 meta1 input2 meta2 Hok
      first second cp_id. subst first second cp_id.
    rewrite !Memory_checkpoint_start_eq.
    cbn [fst snd _backend readings ticks started_record id step_name
         input_data metadata status created_at load Memory_backend
         Memory._checkpoints].
    unfold Memory.load. cbn [Memory._checkpoints].
    rewrite dict_get_set, decide_True by done.
    rewrite dict_set_one_entry by by apply dict_ok_set.
    done.
  - intros json_dumps json_loads self k wf idx name1 name2 input1 meta1
      input2 meta2 sqlite first second cp_id. subst sqlite first second cp_id.
    rewrite !SQLite_checkpoint_start_eq.
    destruct (SQLite.fits_int64 idx);
      cbn [fst snd _backend readings ticks started_record id step_name
           input_data metadata status created_at SQLite.table].
    + split_and!; try done.
      by apply filter_insert_or_replace.
    + done.
  - intros [b mode] k cp output err kept. subst kept.
    unfold checkpoint_complete, checkpoint_failed, mark_recovered.
    rewrite !Memory_save_eq.
    cbn [fst snd _backend with_backend load Memory_backend Memory._checkpoints].
    unfold Memory.load. cbn [Memory._checkpoints]. simpl.
    rewrite !dict_get_set, !decide_True by done.
    split_and!; try done; by eexists.
  - intros json_dumps json_loads [b mode] k cp output err sqlite kept.
    subst kept sqlite.
    unfold checkpoint_complete, checkpoint_failed, mark_recovered.
    rewrite !SQLite_save_eq.
    cbn [step_index set_status set_output_data set_error].
    destruct (SQLite.fits_int64 (step_index cp));
      cbn [fst snd _backend with_backend SQLite.table]; [|done].
    split_and!; try done;
      (eexists; split; [by apply filter_insert_or_replace|done]).
Qed.

(** C2 as stated fails: the clock moves on between two starts of step 0 of
    one workflow; the record the backend holds afterwards is the second
    one, and its [created_at] is not the one the first start set. *)
Lemma second_start_resets_created_at :
  let first :=
    checkpoint_start "wf" "step_1" 0 (VDict []) VNone
      (memory_checkpointer RESUME_FROM_LAST) example_clock in
  let second :=
    checkpoint_start "wf" "step_1" 0 (VDict []) VNone first.1.2 first.2 in
  created_at first.1.1.2 = "2024-01-01T00:00:00.0"
  ∧ (∃ stored, load "wf_step_0" (_backend second.1.2) = Ok (Some stored)
       ∧ created_at stored = "2024-01-01T00:00:00.3"
       ∧ created_at stored ≠ created_at first.1.1.2).
Proof.
  split; [done|]. eexists. split_and!; [done..|]. by vm_compute.
Qed.

(** ** Saving and loading a row *)

Lemma CheckpointStatus_round_trip s :
  CheckpointStatus_of_value (status_value s) = Ok s.
Proof. by apply CheckpointStatus_of_value_Ok. Qed.

Lemma column_truthy_dumps json_dumps json_loads v :
  json_representable json_dumps json_loads v →
  column_truthy (Some (json_dumps v)) = true.
Proof.
  intros [Hne _]. simpl. apply negb_true_iff. by apply String.eqb_neq.
Qed.

(** What a saved row decodes to: the checkpoint, with a falsy output
    turned into [None]. *)
Lemma row_to_checkpoint_row json_dumps json_loads cp :
  json_loads (json_dumps (input_data cp)) = Ok (input_data cp) →
  json_representable json_dumps json_loads (metadata cp) →
  (truthy (output_data cp) = true →
   json_representable json_dumps json_loads (output_data cp)) →
  SQLite._row_to_checkpoint json_loads (SQLite.checkpoint_row json_dumps cp)
  = Ok (set_output_data
          (if truthy (output_data cp) then output_data cp else VNone) cp).
Proof.
  intros Hin Hmeta Hout. unfold SQLite._row_to_checkpoint.
  cbn [SQLite.checkpoint_row SQLite.r_id SQLite.r_workflow_id
       SQLite.r_step_name SQLite.r_step_index SQLite.r_status
       SQLite.r_input_data SQLite.r_output_data SQLite.r_error
       SQLite.r_created_at SQLite.r_updated_at SQLite.r_metadata].
  rewrite CheckpointStatus_round_trip. cbn [mbind result_bind].
  rewrite Hin. cbn [mbind result_bind].
  rewrite (column_truthy_dumps _ _ _ Hmeta). simpl.
  destruct Hmeta as [_ Hmeta].
  destruct (truthy (output_data cp)) eqn:Htruthy.
  - rewrite (column_truthy_dumps _ _ _ (Hout eq_refl)). simpl.
    destruct (Hout eq_refl) as [_ Hout']. rewrite Hout'. cbn [mbind result_bind].
    rewrite Hmeta. cbn [mbind result_bind]. by destruct cp.
  - cbn [column_truthy mbind result_bind].
    rewrite Hmeta. cbn [mbind result_bind]. by destruct cp.
Qed.

(** C3, as the code has it. A checkpoint whose payloads JSON can carry
    and whose step index has 64 bits is saved to the table and loaded by
    its id: nothing is raised, and what comes back is the saved record with
    [updated_at] as [save] refreshed it and with an output that is falsy
    (absent, or an empty map) turned into the absent one; so an absent
    output comes back absent, and an empty or absent metadata comes back
    as it was.  For another step index [save] raises OverflowError and the
    table is as it was. *)
Theorem save_then_load (json_dumps : value → string)
    (json_loads : string → result value)
    (self : SQLite.SQLiteCheckpointBackend) (k : Clock) (cp : Checkpoint) :
  json_loads (json_dumps (input_data cp)) = Ok (input_data cp) →
  json_representable json_dumps json_loads (metadata cp) →
  (truthy (output_data cp) = true →
   json_representable json_dumps json_loads (output_data cp)) →
  let saved := SQLite.save json_dumps cp self k in
  saved.1.1.2 = set_updated_at (readings k (ticks k)) cp
  ∧ (SQLite.fits_int64 (step_index cp) = true →
     saved.1.1.1 = None
     ∧ SQLite.load json_loads (id cp) saved.1.2
       = Ok (Some (set_output_data
                     (if truthy (output_data cp) then output_data cp else VNone)
                     saved.1.1.2))
     ∧ (truthy (output_data cp) = true ∨ output_data cp = VNone →
        SQLite.load json_loads (id cp) saved.1.2 = Ok (Some saved.1.1.2)))
  ∧ (SQLite.fits_int64 (step_index cp) = false →
     saved.1.1.1 = Some SQLite.OverflowError ∧ saved.1.2 = self).
Proof.
  intros Hin Hmeta Hout saved. subst saved. unfold SQLite.save.
  cbn [utcnow_isoformat SQLite.checkpoint_row SQLite.r_step_index
       step_index set_updated_at].
  split_and!.
  - by destruct (SQLite.fits_int64 (step_index cp)).
  - intros ->. cbn [fst snd].
    assert (Hload : ∀ b,
      b = {| SQLite.table :=
               SQLite.insert_or_replace
                 (SQLite.checkpoint_row json_dumps
                    (set_updated_at (readings k (ticks k)) cp))
                 (SQLite.table self) |} →
      SQLite.load json_loads (id cp) b
      = Ok (Some (set_output_data
                    (if truthy (output_data cp) then output_data cp else VNone)
                    (set_updated_at (readings k (ticks k)) cp)))).
    { intros b ->. unfold SQLite.load. cbn [SQLite.table].
      rewrite find_insert_or_replace by done.
      by rewrite (row_to_checkpoint_row json_dumps). }
    split_and!; [done|by apply Hload|].
    intros Hcase. rewrite (Hload _ eq_refl). do 2 f_equal.
    destruct Hcase as [-> | Hnone]; [by destruct cp|].
    destruct cp; simpl in *. by subst.
  - by intros ->.
Qed.

(** C3 as stated fails: a step is started and completed with an empty
    output, as the scoped context does when no output was recorded; the
    record saved has the empty map as its output, the record loaded from
    the table has none. *)
Lemma empty_output_loads_as_none :
  let sqlite := SQLite_backend Json.dumps Json.loads in
  let started :=
    checkpoint_start (backend := sqlite) "wf" "step_1" 0
      (VDict [("x", VInt 1)]) VNone
      {| _backend := SQLite.init; recovery_mode := RESUME_FROM_LAST |}
      example_clock in
  let completed :=
    checkpoint_complete (backend := sqlite) started.1.1.2 (VDict [])
      started.1.2 started.2 in
  completed.1.1.1 = None
  ∧ output_data completed.1.1.2 = VDict []
  ∧ (∃ loaded,
       load (CheckpointBackend := sqlite) "wf_step_0" (_backend completed.1.2)
       = Ok (Some loaded)
       ∧ output_data loaded = VNone
       ∧ output_data loaded ≠ output_data completed.1.1.2).
Proof.
  split; [done|]. split; [done|].
  eexists. split_and!; [by vm_compute|done..].
Qed.

(** ** The scoped context *)

Lemma run_body_checkpoint body ctx :
  _checkpoint (run_body body ctx).1 = _checkpoint ctx.
Proof.
  revert ctx. induction body as [|[output|e] body IH]; intros ctx; simpl;
    [done| |done].
  by rewrite IH.
Qed.

(** A body that records [output] last and does not raise leaves it as the
    recorded output. *)
Lemma run_body_records body output ctx :
  Forall (λ s, ∀ e, s ≠ RaiseStmt e) body →
  run_body (body ++ [SetOutput output]) ctx
  = (set_output output (run_body body ctx).1, None).
Proof.
  revert ctx. induction body as [|[o|e] body IH]; intros ctx Hbody; simpl.
  - done.
  - apply IH. by apply Forall_inv_tail in Hbody.
  - apply Forall_inv in Hbody. by destruct (Hbody e).
Qed.

Lemma dict_set_set {V} k (v1 v2 : V) d :
  dict_set k v2 (dict_set k v1 d) = dict_set k v2 d.
Proof.
  induction d as [|[k0 v0] d IH]; simpl.
  - by rewrite decide_True.
  - case_decide; simpl; [by rewrite decide_True|].
    rewrite decide_False by done. by rewrite IH.
Qed.

Lemma run_body_set_checkpoint body cp ctx :
  run_body body (set_checkpoint cp ctx)
  = (set_checkpoint cp (run_body body ctx).1, (run_body body ctx).2).
Proof.
  revert ctx. induction body as [|[output|e] body IH]; intros ctx; simpl;
    [done| |done].
  by rewrite <-IH.
Qed.

(** A body that records nothing leaves the recorded output of the context
    as it was, whether it raises or not. *)
Lemma run_body_keeps_output body ctx :
  Forall (λ s, ∀ output, s ≠ SetOutput output) body →
  _output (run_body body ctx).1 = _output ctx.
Proof.
  revert ctx. induction body as [|[o|e] body IH]; intros ctx Hbody; simpl.
  - done.
  - apply Forall_inv in Hbody. by destruct (Hbody o).
  - done.
Qed.

Lemma exit_never_suppresses {B} {backend : CheckpointBackend B}
    exc ctx (cpr : Checkpointer B) k :
  (__exit__ exc ctx cpr k).1.1.1 ≠ inr true.
Proof.
  unfold __exit__. destruct (_checkpoint ctx); [|done].
  destruct exc.
  - by destruct (checkpoint_failed _ _ _ _) as [[[[?|] ?] ?] ?].
  - destruct (_output ctx);
      by destruct (checkpoint_complete _ _ _ _) as [[[[?|] ?] ?] ?].
Qed.

(** A scope over any backend, whatever the context held before: it is the
    start on entry, then the body, then one end. *)
Lemma with_sync_eq {B : Type} {backend : CheckpointBackend B}
    (cpr : Checkpointer B) (k : Clock) (mgr : CheckpointContext)
    (body : list stmt) :
  let started :=
    checkpoint_start (_workflow_id mgr) (_step_name mgr) (_step_index mgr)
      (_input_data mgr) (_metadata mgr) cpr k in
  let ran := run_body body (set_checkpoint started.1.1.2 mgr) in
  let failed e :=
    checkpoint_failed started.1.1.2 (exc_str e) started.1.2 started.2 in
  let completed :=
    checkpoint_complete started.1.1.2 (output_or_empty (_output ran.1))
      started.1.2 started.2 in
  with_sync mgr body cpr k
  = match started.1.1.1 with
    | Some e0 => (Some e0, mgr, started.1.2, started.2)
    | None =>
        match ran.2 with
        | Some e =>
            (Some (default e (failed e).1.1.1),
             set_checkpoint (failed e).1.1.2 ran.1, (failed e).1.2, (failed e).2)
        | None =>
            (completed.1.1.1,
             set_checkpoint completed.1.1.2 ran.1, completed.1.2, completed.2)
        end
    end.
Proof.
  intros started ran failed completed.
  unfold with_sync, with_stmt, __enter__. fold started.
  subst failed completed ran.
  destruct started as [[[[e0|] cp] cpr1] k1]; cbn [fst snd]; [done|].
  pose proof (run_body_checkpoint body (set_checkpoint cp mgr)) as Hcp.
  destruct (run_body body (set_checkpoint cp mgr)) as [ctx exc].
  cbn [fst snd] in *. unfold __exit__. rewrite Hcp. cbn [_checkpoint set_checkpoint].
  destruct exc as [e|].
  - by destruct (checkpoint_failed cp (exc_str e) cpr1 k1) as [[[[?|] ?] ?] ?].
  - destruct (_output ctx); cbn [output_or_empty];
      by destruct (checkpoint_complete cp _ cpr1 k1) as [[[[?|] ?] ?] ?].
Qed.

(** What a scope does on the in-memory backend. *)
Lemma Memory_with_sync_finished
    (cpr : Checkpointer Memory.MemoryCheckpointBackend) k mgr body :
  with_sync mgr body cpr k
  = ((run_body body mgr).2,
     set_checkpoint (finished_record mgr body k) (run_body body mgr).1,
     {| _backend :=
          {| Memory._checkpoints :=
               dict_set (generate_checkpoint_id (_workflow_id mgr) (_step_index mgr))
                 (finished_record mgr body k)
                 (Memory._checkpoints (_backend cpr)) |};
        recovery_mode := recovery_mode cpr |},
     {| readings := readings k; ticks := 4 + ticks k |}).
Proof.
  rewrite with_sync_eq. rewrite !Memory_checkpoint_start_eq.
  cbn [fst snd]. rewrite run_body_set_checkpoint. unfold finished_record.
  destruct (run_body body mgr) as [ctx exc]. cbn [fst snd].
  destruct exc as [e|];
    unfold checkpoint_failed, checkpoint_complete;
    rewrite Memory_save_eq;
    cbn [fst snd _backend with_backend Memory._checkpoints recovery_mode
         set_checkpoint _workflow_id _step_name _step_index _input_data
         _metadata _output default];
    rewrite dict_set_set; reflexivity.
Qed.

(** What a scope does on the table. *)
Lemma SQLite_with_sync_finished json_dumps json_loads
    (cpr : Checkpointer SQLite.SQLiteCheckpointBackend) k mgr body :
  with_sync (backend := SQLite_backend json_dumps json_loads) mgr body cpr k
  = if SQLite.fits_int64 (_step_index mgr)
    then
      ((run_body body mgr).2,
       set_checkpoint (finished_record mgr body k) (run_body body mgr).1,
       {| _backend :=
            {| SQLite.table :=
                 SQLite.insert_or_replace
                   (SQLite.checkpoint_row json_dumps (finished_record mgr body k))
                   (SQLite.insert_or_replace
                      (SQLite.checkpoint_row json_dumps
                         (started_record (_workflow_id mgr) (_step_name mgr)
                            (_step_index mgr) (_input_data mgr) (_metadata mgr) k))
                      (SQLite.table (_backend cpr))) |};
          recovery_mode := recovery_mode cpr |},
       {| readings := readings k; ticks := 4 + ticks k |})
    else
      (Some SQLite.OverflowError, mgr,
       {| _backend := _backend cpr; recovery_mode := recovery_mode cpr |},
       {| readings := readings k; ticks := 3 + ticks k |}).
Proof.
  rewrite with_sync_eq. rewrite !SQLite_checkpoint_start_eq.
  destruct (SQLite.fits_int64 (_step_index mgr)) eqn:Hfits; cbn [fst snd]; [|done].
  rewrite run_body_set_checkpoint. unfold finished_record.
  destruct (run_body body mgr) as [ctx exc]. cbn [fst snd].
  destruct exc as [e|];
    unfold checkpoint_failed, checkpoint_complete;
    rewrite SQLite_save_eq;
    cbn [step_index set_status set_error set_output_data started_record];
    rewrite Hfits;
    cbn [fst snd _backend with_backend SQLite.table recovery_mode
         set_checkpoint _workflow_id _step_name _step_index _input_data
         _metadata _output default];
    reflexivity.
Qed.

(** The fields of the record that a scope leaves. *)
Lemma finished_record_fields mgr body k :
  let cp := finished_record mgr body k in
  let ran := run_body body mgr in
  id cp = generate_checkpoint_id (_workflow_id mgr) (_step_index mgr)
  ∧ workflow_id cp = _workflow_id mgr ∧ step_name cp = _step_name mgr
  ∧ step_index cp = _step_index mgr ∧ input_data cp = _input_data mgr
  ∧ created_at cp = readings k (ticks k)
  ∧ match ran.2 with
    | Some e => status cp = FAILED ∧ error cp = Some (exc_str e)
                ∧ output_data cp = VNone
    | None => status cp = COMPLETED ∧ error cp = None
              ∧ output_data cp = output_or_empty (_output ran.1)
    end.
Proof. unfold finished_record. by destruct (run_body body mgr).2. Qed.

(** C5. A scope starts its checkpoint on entry and ends it once, whatever
    the context held before.  Over any backend it is [checkpoint_start],
    then the body, then one call: [checkpoint_failed] with the text of the
    exception when the body raises, and the exception goes on to the
    caller; otherwise [checkpoint_complete] with the output that the
    context holds, or with the empty map when it holds none.  [__exit__]
    never asks for the exception to be suppressed, and [async with] does
    what [with] does.  On the in-memory backend, and on the table for a
    step index of 64 bits, nothing else is raised and the backend then
    holds under the id of the step one record: FAILED with the text of the
    exception as its error, or COMPLETED with that output.  On the table
    for another step index entering raises OverflowError: the body is not
    run and no row is written.  The output that the context holds is the
    one recorded last; a body that records nothing leaves the one the
    context had, which is none for a context that [context] has just
    made. *)
Theorem context_finalizes_once :
  (∀ (B : Type) (backend : CheckpointBackend B) (cpr : Checkpointer B)
     (k : Clock) (mgr : CheckpointContext) (body : list stmt),
     let started :=
       checkpoint_start (_workflow_id mgr) (_step_name mgr) (_step_index mgr)
         (_input_data mgr) (_metadata mgr) cpr k in
     let ran := run_body body (set_checkpoint started.1.1.2 mgr) in
     let failed e :=
       checkpoint_failed started.1.1.2 (exc_str e) started.1.2 started.2 in
     let completed :=
       checkpoint_complete started.1.1.2 (output_or_empty (_output ran.1))
         started.1.2 started.2 in
     with_sync mgr body cpr k
     = match started.1.1.1 with
       | Some e0 => (Some e0, mgr, started.1.2, started.2)
       | None =>
           match ran.2 with
           | Some e =>
               (Some (default e (failed e).1.1.1),
                set_checkpoint (failed e).1.1.2 ran.1,
                (failed e).1.2, (failed e).2)
           | None =>
               (completed.1.1.1,
                set_checkpoint completed.1.1.2 ran.1,
                completed.1.2, completed.2)
           end
       end
     ∧ with_async mgr body cpr k = with_sync mgr body cpr k
     ∧ (∀ exc ctx (cpr' : Checkpointer B) k',
          (__exit__ exc ctx cpr' k').1.1.1 ≠ inr true)
     ∧ (∀ exc ctx (cpr' : Checkpointer B) k',
          __aexit__ exc ctx cpr' k' = __exit__ exc ctx cpr' k'))
  ∧ (∀ (cpr : Checkpointer Memory.MemoryCheckpointBackend) (k : Clock)
       (mgr : CheckpointContext) (body : list stmt),
     let result := with_sync mgr body cpr k in
     let ran := run_body body mgr in
     let cp_id := generate_checkpoint_id (_workflow_id mgr) (_step_index mgr) in
     result.1.1.1 = ran.2
     ∧ (∀ i, i ≠ cp_id →
          load i (_backend result.1.2) = load i (_backend cpr))
     ∧ ∃ cp,
         _checkpoint result.1.1.2 = Some cp
         ∧ load cp_id (_backend result.1.2) = Ok (Some cp)
         ∧ id cp = cp_id ∧ workflow_id cp = _workflow_id mgr
         ∧ step_name cp = _step_name mgr ∧ step_index cp = _step_index mgr
         ∧ input_data cp = _input_data mgr
         ∧ match ran.2 with
           | Some e => status cp = FAILED ∧ error cp = Some (exc_str e)
                       ∧ output_data cp = VNone
           | None => status cp = COMPLETED ∧ error cp = None
                     ∧ output_data cp = output_or_empty (_output ran.1)
           end)
  ∧ (∀ (json_dumps : value → string) (json_loads : string → result value)
       (cpr : Checkpointer SQLite.SQLiteCheckpointBackend) (k : Clock)
       (mgr : CheckpointContext) (body : list stmt),
     let sqlite := SQLite_backend json_dumps json_loads in
     let result := with_sync (backend := sqlite) mgr body cpr k in
     let ran := run_body body mgr in
     let cp_id := generate_checkpoint_id (_workflow_id mgr) (_step_index mgr) in
     if SQLite.fits_int64 (_step_index mgr)
     then
       result.1.1.1 = ran.2
       ∧ (∀ r, SQLite.r_id r ≠ cp_id →
            r ∈ SQLite.table (_backend result.1.2)
            ↔ r ∈ SQLite.table (_backend cpr))
       ∧ ∃ cp,
           _checkpoint result.1.1.2 = Some cp
           ∧ filter (λ r, SQLite.r_id r = cp_id)
               (SQLite.table (_backend result.1.2))
             = [SQLite.checkpoint_row json_dumps cp]
           ∧ id cp = cp_id ∧ workflow_id cp = _workflow_id mgr
           ∧ step_name cp = _step_name mgr ∧ step_index cp = _step_index mgr
           ∧ input_data cp = _input_data mgr
           ∧ match ran.2 with
             | Some e => status cp = FAILED ∧ error cp = Some (exc_str e)
                         ∧ output_data cp = VNone
             | None => status cp = COMPLETED ∧ error cp = None
                       ∧ output_data cp = output_or_empty (_output ran.1)
             end
     else
       result.1.1.1 = Some SQLite.OverflowError
       ∧ result.1.1.2 = mgr
       ∧ _backend result.1.2 = _backend cpr)
  ∧ (∀ (mgr : CheckpointContext) (body : list stmt),
       (∀ prefix output, Forall (λ s, ∀ e, s ≠ RaiseStmt e) prefix →
          body = prefix ++ [SetOutput output] →
          (run_body body mgr).2 = None ∧ _output (run_body body mgr).1 = output)
       ∧ (Forall (λ s, ∀ output, s ≠ SetOutput output) body →
          _output (run_body body mgr).1 = _output mgr))
  ∧ (∀ wf name idx input meta,
       _output (context wf name idx input meta) = VNone
       ∧ _checkpoint (context wf name idx input meta) = None).
Proof.
  split_and!.
  - intros B backend cpr k mgr body started ran failed completed.
    split_and!.
    + apply with_sync_eq.
    + done.
    + intros. apply exit_never_suppresses.
    + done.
  - intros cpr k mgr body result ran cp_id. subst result ran cp_id.
    rewrite Memory_with_sync_finished.
    cbn [fst snd _backend _checkpoint set_checkpoint load Memory_backend].
    unfold Memory.load. cbn [Memory._checkpoints].
    pose proof (finished_record_fields mgr body k) as Hfields.
    cbv zeta in Hfields. destruct Hfields as (? & ? & ? & ? & ? & _ & ?).
    split_and!; [done| |].
    + intros i Hi. by rewrite dict_get_set, decide_False.
    + eexists. split_and!; [done| |done..].
      by rewrite dict_get_set, decide_True.
  - intros json_dumps json_loads cpr k mgr body sqlite result ran cp_id.
    subst sqlite result ran cp_id. rewrite SQLite_with_sync_finished.
    destruct (SQLite.fits_int64 (_step_index mgr));
      cbn [fst snd _backend _checkpoint set_checkpoint SQLite.table]; [|done].
    pose proof (finished_record_fields mgr body k) as Hfields.
    cbv zeta in Hfields. destruct Hfields as (Hid & ? & ? & ? & ? & _ & ?).
    split_and!; [done| |].
    + intros r Hr. unfold SQLite.insert_or_replace.
      rewrite !elem_of_app, !list_elem_of_filter, elem_of_app,
        list_elem_of_filter, !list_elem_of_singleton.
      cbn [SQLite.checkpoint_row SQLite.r_id started_record id].
      rewrite Hid. split.
      * intros [[_ [[_ ?]| ->]]| ->]; [done|by destruct Hr..].
      * intros ?. left. split; [done|]. left. by split.
    + eexists. split_and!; [done| |done..].
      by apply filter_insert_or_replace.
  - intros mgr body. split.
    + intros prefix output Hprefix ->. by rewrite run_body_records.
    + apply run_body_keeps_output.
  - done.
Qed.

(** * The properties on example runs *)

(** The scenario of the specification: step 0 COMPLETED, step 1 FAILED. *)
Example recovery_scenario :
  let point mode := get_recovery_point "wf" (completed_then_failed mode).1 in
  (∃ cp, point RESUME_FROM_LAST = Ok (Some cp)
         ∧ step_index cp = 1%Z ∧ status cp = FAILED)
  ∧ (∃ cp, point RESTART_TASK = Ok (Some cp)
           ∧ step_index cp = 1%Z ∧ status cp = FAILED)
  ∧ (∃ cp, point SKIP_FAILED = Ok (Some cp)
           ∧ step_index cp = 0%Z ∧ status cp = COMPLETED)
  ∧ point MANUAL = Ok None.
Proof.
  split_and!; [eexists; split_and!; [by vm_compute|done..]..|done].
Qed.

(** The theorem on the recovery point, applied to that run under
    RESTART_TASK. *)
Lemma get_recovery_point_branches_witness :
  let self := (completed_then_failed RESTART_TASK).1 in
  ∃ checkpoints,
    list_workflow_checkpoints "wf" (_backend self) = Ok checkpoints
    ∧ ascending step_index checkpoints
    ∧ ∃ cp, get_recovery_point "wf" self = Ok (Some cp)
            ∧ last_such restartable checkpoints (Some cp)
            ∧ greatest_such restartable checkpoints (Some cp).
Proof.
  intros self.
  pose (checkpoints := Memory.list_workflow_checkpoints "wf" (_backend self)).
  assert (Hlist : list_workflow_checkpoints "wf" (_backend self) = Ok checkpoints)
    by reflexivity.
  assert (Hasc : ascending step_index checkpoints)
    by apply sorted_by_key_ascending.
  exists checkpoints. split; [exact Hlist|]. split; [exact Hasc|].
  destruct (proj2 (get_recovery_point_branches self "wf") checkpoints Hlist Hasc)
    as (r & Hr & found & Hlast & Hgreatest & Hfound).
  destruct found as [cp|].
  - exists cp. subst r. by split_and!.
  - exfalso. simpl in Hlast. rewrite Forall_forall in Hlast.
    assert (∃ c, c ∈ checkpoints ∧ status c = FAILED) as (c & Hc & Hst).
    { eexists. split;
        [unfold checkpoints; cbv; apply list_elem_of_further, list_elem_of_here
        |reflexivity]. }
    apply (Hlast c Hc). by left.
Defined.

(** Saving and loading on the table, applied to a record with a non-empty
    output and an empty metadata. *)
Lemma save_then_load_witness :
  let cp :=
    {| id := "wf_step_0"; workflow_id := "wf"; step_name := "step_1";
       step_index := 0; status := COMPLETED;
       input_data := VDict [("test", VStr "data")];
       output_data := VDict [("result", VStr "ok")]; error := None;
       created_at := "2024-01-01T00:00:00.0";
       updated_at := "2024-01-01T00:00:00.1"; metadata := VDict [] |} in
  let saved := SQLite.save Json.dumps cp SQLite.init example_clock in
  Json.loads (Json.dumps (input_data cp)) = Ok (input_data cp)
  ∧ json_representable Json.dumps Json.loads (metadata cp)
  ∧ json_representable Json.dumps Json.loads (output_data cp)
  ∧ SQLite.fits_int64 (step_index cp) = true
  ∧ saved.1.1.1 = None
  ∧ SQLite.load Json.loads "wf_step_0" saved.1.2 = Ok (Some saved.1.1.2).
Proof.
  intros cp saved.
  assert (Hin : Json.loads (Json.dumps (input_data cp)) = Ok (input_data cp))
    by (vm_compute; reflexivity).
  assert (Hmeta : json_representable Json.dumps Json.loads (metadata cp))
    by (split; [discriminate|vm_compute; reflexivity]).
  assert (Hout : json_representable Json.dumps Json.loads (output_data cp))
    by (split; [discriminate|vm_compute; reflexivity]).
  assert (Hfits : SQLite.fits_int64 (step_index cp) = true) by reflexivity.
  destruct (save_then_load Json.dumps Json.loads SQLite.init example_clock cp
              Hin Hmeta (λ _, Hout)) as (_ & Hstored & _).
  destruct (Hstored Hfits) as (Hnone & _ & Hsame).
  split; [exact Hin|]. split; [exact Hmeta|]. split; [exact Hout|].
  split; [exact Hfits|]. split; [exact Hnone|].
  apply Hsame. left. reflexivity.
Defined.

(** The listing of a workflow on the table, applied to the run that starts
    steps 2, 0 and 1 in that order. *)
Lemma list_workflow_checkpoints_sorted_witness :
  let self := _backend started_out_of_order.1 in
  let rows := filter (λ r, SQLite.r_workflow_id r = "wf") (SQLite.table self) in
  Forall (λ r, ∃ cp, SQLite._row_to_checkpoint Json.loads r = Ok cp) rows
  ∧ SQLite.r_step_index <$> rows = [2; 0; 1]%Z
  ∧ ∃ l, SQLite.list_workflow_checkpoints Json.loads "wf" self = Ok l
         ∧ step_index <$> l = [0; 1; 2]%Z
         ∧ ascending step_index l
         ∧ ∃ cp, SQLite.get_last_checkpoint Json.loads "wf" self = Ok (Some cp)
                 ∧ step_index cp = 2%Z.
Proof.
  intros self rows.
  eassert (Hrows : rows = _) by (unfold rows, self; vm_compute; reflexivity).
  assert (Hdec : Forall (λ r, ∃ cp, SQLite._row_to_checkpoint Json.loads r = Ok cp) rows).
  { rewrite Hrows. repeat constructor; eexists; vm_compute; reflexivity. }
  split; [exact Hdec|]. split; [by rewrite Hrows|].
  destruct (proj2 (proj2 list_workflow_checkpoints_sorted) Json.loads self "wf" Hdec)
    as (l & Hl & _ & Hasc & last_cp & Hlast & _).
  exists l. split; [exact Hl|].
  vm_compute in Hl. injection Hl as <-. split; [reflexivity|].
  split; [exact Hasc|].
  vm_compute in Hlast. injection Hlast as <-. eexists. split; reflexivity.
Defined.

(** Cleanup on the in-memory backend, applied to the run of the recovery
    tests, which leaves two checkpoints of the workflow. *)
Lemma cleanup_workflow_deletes_all_witness :
  let self := (completed_then_failed RESUME_FROM_LAST).1 in
  let cleaned := cleanup_workflow "wf" self in
  dict_ok (Memory._checkpoints (_backend self))
  ∧ cleaned.1 = 2
  ∧ list_checkpoints "wf" cleaned.2 = Ok []
  ∧ (cleanup_workflow "wf" cleaned.2).1 = 0.
Proof.
  intros self cleaned.
  assert (Hok : dict_ok (Memory._checkpoints (_backend self))).
  { unfold dict_ok. apply (bool_decide_unpack _). vm_compute. exact I. }
  destruct (proj1 cleanup_workflow_deletes_all self "wf" Hok)
    as (_ & Hempty & _ & _ & Hzero & _).
  split; [exact Hok|]. split; [vm_compute; reflexivity|].
  split; [exact Hempty|exact Hzero].
Defined.

(** Two starts of one step, applied to an empty in-memory backend. *)
Lemma second_start_overwrites_witness :
  let self := memory_checkpointer RESUME_FROM_LAST in
  let first :=
    checkpoint_start "wf" "step_1" 0 (VDict [("try", VInt 1)]) VNone
      self example_clock in
  let second :=
    checkpoint_start "wf" "step_1" 0 (VDict [("try", VInt 2)]) VNone
      first.1.2 first.2 in
  dict_ok (Memory._checkpoints (_backend self))
  ∧ second.1.1.1 = None
  ∧ load "wf_step_0" (_backend second.1.2) = Ok (Some second.1.1.2)
  ∧ input_data second.1.1.2 = VDict [("try", VInt 2)]
  ∧ created_at second.1.1.2 = readings example_clock 3.
Proof.
  intros self first second.
  assert (Hok : dict_ok (Memory._checkpoints (_backend self)))
    by apply NoDup_nil_2.
  destruct (proj1 second_start_overwrites self example_clock "wf" 0%Z
              "step_1" "step_1" (VDict [("try", VInt 1)]) VNone
              (VDict [("try", VInt 2)]) VNone Hok)
    as (_ & Hnone & _ & _ & Hload & _ & _ & Hinput & _ & _ & _ & Hcreated).
  split; [exact Hok|]. split; [exact Hnone|]. split; [exact Hload|].
  split; [exact Hinput|exact Hcreated].
Defined.

(** The error contract, applied to a record that was started, failed and
    marked as recovered, and then failed again. *)
Lemma error_contract_of_operations_witness :
  let self := memory_checkpointer RESUME_FROM_LAST in
  let started := checkpoint_start "wf" "step_1" 0 (VDict []) VNone self example_clock in
  let failed := checkpoint_failed started.1.1.2 "boom" started.1.2 started.2 in
  let recovered := mark_recovered failed.1.1.2 failed.1.2 failed.2 in
  let again :=
    checkpoint_failed recovered.1.1.2 "boom again" recovered.1.2 recovered.2 in
  produced again.1.1.2
  ∧ status again.1.1.2 = FAILED
  ∧ is_Some (error again.1.1.2).
Proof.
  intros self started failed recovered again.
  assert (Hprod : produced again.1.1.2).
  { apply produced_failed, produced_recovered, produced_failed, produced_start. }
  split; [exact Hprod|]. split; [reflexivity|].
  apply (proj1 (proj1 error_contract_of_operations) _ Hprod). reflexivity.
Defined.

(** Incomplete workflows, applied to the run with a running step of [wf1]
    and a completed step of [wf2]. *)
Lemma get_incomplete_workflows_exact_witness :
  let self := _backend one_running_one_done.1 in
  let stored := dict_values (Memory._checkpoints self) in
  (∀ cp, cp ∈ stored → workflow_id cp = "wf2" →
         status cp = COMPLETED ∨ status cp = FAILED)
  ∧ ("wf2" ∉ Memory.get_incomplete_workflows self)
  ∧ ("wf1" ∈ Memory.get_incomplete_workflows self).
Proof.
  intros self stored.
  destruct (proj1 get_incomplete_workflows_exact self "wf2") as (_ & _ & Hdone).
  destruct (proj1 get_incomplete_workflows_exact self "wf1") as (_ & Hiff & _).
  assert (Hall : ∀ cp, cp ∈ stored → workflow_id cp = "wf2" →
                       status cp = COMPLETED ∨ status cp = FAILED).
  { intros cp Hcp Hwf. unfold stored, self in Hcp. cbv in Hcp.
    apply elem_of_cons in Hcp as [-> | Hcp]; [discriminate Hwf|].
    apply elem_of_cons in Hcp as [-> | Hcp]; [by left|].
    by apply elem_of_nil in Hcp. }
  split; [exact Hall|]. split; [exact (Hdone Hall)|].
  apply Hiff. eexists. split_and!;
    [unfold stored, self; cbv; apply list_elem_of_here|reflexivity|by right].
Defined.

(** The scope with a body that records an output and then raises, on the
    in-memory backend; with a body that records an output, on an empty
    table; and for a step index that no INTEGER column holds. *)
Lemma context_finalizes_once_witness :
  let e := {| exc_type := "ValueError"; exc_str := "Test error" |} in
  let output := VDict [("y", VInt 2)] in
  let mgr := context "wf" "step_1" 0 (VDict [("x", VInt 1)]) VNone in
  let empty_table :=
    {| _backend := SQLite.init; recovery_mode := RESUME_FROM_LAST |} in
  let failing :=
    with_sync mgr [SetOutput output; RaiseStmt e]
      (memory_checkpointer RESUME_FROM_LAST) example_clock in
  let passing :=
    with_sync (backend := sqlite_backend) mgr [SetOutput output]
      empty_table example_clock in
  let refused :=
    with_sync (backend := sqlite_backend)
      (context "wf" "step_1" (2 ^ 63) (VDict []) VNone) [SetOutput output]
      empty_table example_clock in
  failing.1.1.1 = Some e
  ∧ (∃ cp, load "wf_step_0" (_backend failing.1.2) = Ok (Some cp)
           ∧ status cp = FAILED ∧ error cp = Some "Test error")
  ∧ passing.1.1.1 = None
  ∧ (∃ cp, filter (λ r, SQLite.r_id r = "wf_step_0")
             (SQLite.table (_backend passing.1.2))
           = [SQLite.checkpoint_row Json.dumps cp]
           ∧ status cp = COMPLETED ∧ output_data cp = output)
  ∧ refused.1.1.1 = Some SQLite.OverflowError
  ∧ SQLite.table (_backend refused.1.2) = [].
Proof.
  intros e output mgr empty_table failing passing refused.
  destruct context_finalizes_once as (_ & Hmemory & Htable & _ & _).
  pose proof (Hmemory (memory_checkpointer RESUME_FROM_LAST) example_clock mgr
                [SetOutput output; RaiseStmt e]) as Hfailing.
  cbv zeta in Hfailing.
  destruct Hfailing as (Hexc & _ & cp & _ & Hload & _ & _ & _ & _ & _ & Hend).
  cbn [run_body snd] in Hend. destruct Hend as (Hst & Herr & _).
  pose proof (Htable Json.dumps Json.loads empty_table example_clock mgr
                [SetOutput output]) as Hpassing.
  cbv zeta in Hpassing.
  change (SQLite.fits_int64 (_step_index mgr)) with true in Hpassing.
  cbv iota in Hpassing.
  destruct Hpassing
    as (Hexc2 & _ & cp2 & _ & Hrow & _ & _ & _ & _ & _ & Hend2).
  cbn [run_body fst snd] in Hend2. destruct Hend2 as (Hst2 & _ & Hout2).
  pose proof (Htable Json.dumps Json.loads empty_table example_clock
                (context "wf" "step_1" (2 ^ 63) (VDict []) VNone)
                [SetOutput output]) as Hrefused.
  cbv zeta in Hrefused.
  change (SQLite.fits_int64 _) with false in Hrefused.
  cbv iota in Hrefused. destruct Hrefused as (Hexc3 & _ & Hsame).
  split; [exact Hexc|]. split; [by exists cp|].
  split; [exact Hexc2|]. split; [by exists cp2|].
  split; [exact Hexc3|]. unfold refused. unfold sqlite_backend.
  by rewrite Hsame.
Defined.

(** The scope with a body that raises, as in the test of a failing
    context: the exception reaches the caller and the one checkpoint of the
    workflow is FAILED with the text of the exception. *)
Example context_failure_scenario :
  let e := {| exc_type := "ValueError"; exc_str := "Test error" |} in
  let result :=
    with_sync (context "wf" "step_1" 0 (VDict [("x", VInt 1)]) VNone)
      [SetOutput (VDict [("y", VInt 2)]); RaiseStmt e]
      (memory_checkpointer RESUME_FROM_LAST) example_clock in
  result.1.1.1 = Some e
  ∧ ∃ cp, list_checkpoints "wf" result.1.2 = Ok [cp]
          ∧ status cp = FAILED ∧ error cp = Some "Test error".
Proof.
  split; [done|]. eexists. split_and!; [by vm_compute|done..].
Qed.

(** * More of the module *)

(** ** Workflow ids *)

Lemma pretty_nat_no_underscore (n : nat) :
  "_"%char ∉ String.list_ascii_of_string (pretty n).
Proof.
  assert (Heq : pretty n = pretty (Z.of_nat n)).
  { unfold pretty at 1, pretty_nat. unfold pretty at 2, pretty_Z.
    rewrite <-nat_N_Z. by destruct (N.of_nat n). }
  rewrite Heq. apply pretty_Z_no_underscore.
Qed.

Lemma generate_workflow_id_chars prefix timestamp counter :
  String.list_ascii_of_string (generate_workflow_id prefix timestamp counter).1
  = String.list_ascii_of_string (prefix +:+ "_" +:+ pretty timestamp)
    ++ "_"%char :: String.list_ascii_of_string (pretty (S counter)).
Proof.
  unfold generate_workflow_id. cbn [fst]. rewrite !chars_app.
  by rewrite <-!app_assoc.
Qed.

(** The counter can be read off an id. *)
Lemma generate_workflow_id_counter p1 t1 c1 p2 t2 c2 :
  (generate_workflow_id p1 t1 c1).1 = (generate_workflow_id p2 t2 c2).1 →
  c1 = c2.
Proof.
  intros Heq. apply (f_equal String.list_ascii_of_string) in Heq.
  rewrite !generate_workflow_id_chars in Heq.
  apply split_at_last in Heq as [_ Hc]; [|apply pretty_nat_no_underscore..].
  apply chars_inj in Hc. apply (inj pretty) in Hc. by injection Hc.
Qed.

Lemma generate_workflow_ids_counter calls counter :
  (generate_workflow_ids calls counter).2 = length calls + counter.
Proof.
  revert counter. induction calls as [|[p t] calls IH]; intros counter; [done|].
  simpl. specialize (IH (S counter)).
  destruct (generate_workflow_ids calls (S counter)) as [ids c2].
  simpl in *. lia.
Qed.

Lemma generate_workflow_ids_later calls counter wf :
  wf ∈ (generate_workflow_ids calls counter).1 →
  ∃ p t c, counter ≤ c ∧ wf = (generate_workflow_id p t c).1.
Proof.
  revert counter. induction calls as [|[p t] calls IH]; intros counter; simpl.
  - by intros ?%elem_of_nil.
  - specialize (IH (S counter)).
    destruct (generate_workflow_ids calls (S counter)) as [ids c2]. simpl in *.
    intros [->|Hin]%elem_of_cons.
    + by exists p, t, counter.
    + destruct (IH Hin) as (p' & t' & c & Hc & ->).
      exists p', t', c. split; [lia|done].
Qed.

(** X1. The workflow ids that one checkpointer generates are pairwise
    different, whatever the prefixes of the calls and whatever the clock
    reads at them, also when it stands still or goes back; the counter
    grows by one with each call. *)
Theorem generate_workflow_ids_distinct (calls : list (string * Z))
    (counter : nat) :
  NoDup (generate_workflow_ids calls counter).1
  ∧ length (generate_workflow_ids calls counter).1 = length calls
  ∧ (generate_workflow_ids calls counter).2 = length calls + counter.
Proof.
  split_and!; [| |apply generate_workflow_ids_counter].
  - revert counter. induction calls as [|[p t] calls IH]; intros counter; simpl.
    + constructor.
    + pose proof (generate_workflow_ids_later calls (S counter)) as Hlater.
      specialize (IH (S counter)).
      destruct (generate_workflow_ids calls (S counter)) as [ids c2]. simpl in *.
      constructor; [|done].
      intros Hin. destruct (Hlater _ Hin) as (p' & t' & c & Hc & Heq).
      apply generate_workflow_id_counter in Heq. lia.
  - revert counter. induction calls as [|[p t] calls IH]; intros counter; [done|].
    simpl. specialize (IH (S counter)).
    destruct (generate_workflow_ids calls (S counter)) as [ids c2].
    simpl in *. by rewrite IH.
Qed.

(** ** The record as a dictionary *)

Lemma raw_of_inj cp1 cp2 : raw_of cp1 = raw_of cp2 → cp1 = cp2.
Proof.
  destruct cp1 as [? ? ? ? ? ? ? e1 ? ? ?], cp2 as [? ? ? ? ? ? ? e2 ? ? ?].
  unfold raw_of. simpl. intros H. injection H as -> -> -> -> -> -> -> He -> -> ->.
  f_equal. destruct e1, e2; by simplify_eq.
Qed.

Lemma CheckpointStatus_call_value s :
  CheckpointStatus_call (VStr (status_value s)) = inr s.
Proof. by destruct s. Qed.

Lemma CheckpointStatus_call_inr v s :
  CheckpointStatus_call v = inr s ↔ v = VStr (status_value s).
Proof.
  split; [|intros ->; apply CheckpointStatus_call_value].
  destruct v as [| | |tag| |]; simpl; try done.
  destruct (CheckpointStatus_of_value tag) as [s'|] eqn:Htag; [|done].
  intros [= <-]. by apply CheckpointStatus_of_value_Ok in Htag as ->.
Qed.

Lemma from_dict_to_dict_aux cp :
  (from_dict (to_dict cp) example_clock).1 = inr (raw_of cp).
Proof.
  destruct cp as [? ? ? ? s ? ? ? ? ? ?]. by destruct s.
Qed.

(** X2. [from_dict] after [to_dict] builds an object with the fields of the
    checkpoint, and two checkpoints with the same dictionary are the same;
    the clock is read twice even so.  Of a dictionary [from_dict] needs six
    keys: it raises KeyError for the first that is missing of [id],
    [workflow_id], [step_name], [step_index] and [status]; with these, a
    status that is no status value raises ValueError, also when
    [input_data] is missing, and a missing [input_data] raises KeyError
    under a status that is one; the clock is not read then.  Otherwise an
    object is built: a missing [output_data] or [error] is None, a missing
    [metadata] the empty map, a missing [created_at] and [updated_at] the
    two readings of the clock. *)
Theorem from_dict_to_dict :
  (∀ cp k,
     from_dict (to_dict cp) k
     = (inr (raw_of cp), {| readings := readings k; ticks := 2 + ticks k |}))
  ∧ (∀ cp1 cp2, to_dict cp1 = to_dict cp2 → cp1 = cp2)
  ∧ (∀ data k before key after,
       ["id"; "workflow_id"; "step_name"; "step_index"; "status"]
       = before ++ key :: after →
       Forall (λ key', is_Some (dict_get key' data)) before →
       dict_get key data = None →
       from_dict data k = (inl (KeyError key), k))
  ∧ (∀ data k v,
       Forall (λ key', is_Some (dict_get key' data))
         ["id"; "workflow_id"; "step_name"; "step_index"] →
       dict_get "status" data = Some v →
       (∀ s, v ≠ VStr (status_value s)) →
       from_dict data k = (inl (StatusValueError v), k))
  ∧ (∀ data k s,
       Forall (λ key', is_Some (dict_get key' data))
         ["id"; "workflow_id"; "step_name"; "step_index"] →
       dict_get "status" data = Some (VStr (status_value s)) →
       dict_get "input_data" data = None →
       from_dict data k = (inl (KeyError "input_data"), k))
  ∧ (∀ data k s,
       Forall (λ key', is_Some (dict_get key' data)) required_keys →
       dict_get "status" data = Some (VStr (status_value s)) →
       ∃ raw, from_dict data k
              = (inr raw, {| readings := readings k; ticks := 2 + ticks k |})
         ∧ raw_status raw = s
         ∧ raw_output_data raw = default VNone (dict_get "output_data" data)
         ∧ raw_error raw = default VNone (dict_get "error" data)
         ∧ raw_metadata raw = default (VDict []) (dict_get "metadata" data)
         ∧ raw_created_at raw
           = default (VStr (readings k (ticks k))) (dict_get "created_at" data)
         ∧ raw_updated_at raw
           = default (VStr (readings k (S (ticks k)))) (dict_get "updated_at" data)).
Proof.
  split_and!.
  - intros cp k. destruct cp as [? ? ? ? s ? ? ? ? ? ?]. by destruct s.
  - intros cp1 cp2 Heq. apply raw_of_inj.
    pose proof (from_dict_to_dict_aux cp1) as H1.
    pose proof (from_dict_to_dict_aux cp2) as H2.
    rewrite Heq in H1. congruence.
  - intros data k before key after Hkeys Hbefore Hmissing.
    unfold from_dict, dict_item.
    repeat (destruct before as [|? before]; simplify_eq/=;
            [by rewrite Hmissing|];
            apply Forall_cons in Hbefore as [[? ->] Hbefore]).
    by destruct before.
  - intros data k v Hkeys Hstatus Hbad.
    unfold from_dict, dict_item.
    repeat (apply Forall_cons in Hkeys as [[? ->] Hkeys]). rewrite Hstatus.
    destruct (CheckpointStatus_call v) as [e|s] eqn:Hcall.
    + destruct v as [| | |tag| |]; simpl in Hcall; simplify_eq; try done.
      by destruct (CheckpointStatus_of_value tag); simplify_eq.
    + apply CheckpointStatus_call_inr in Hcall. by destruct (Hbad s).
  - intros data k s Hkeys Hstatus Hmissing.
    unfold from_dict, dict_item.
    repeat (apply Forall_cons in Hkeys as [[? ->] Hkeys]). rewrite Hstatus.
    by rewrite CheckpointStatus_call_value, Hmissing.
  - intros data k s Hkeys Hstatus.
    unfold from_dict, dict_item, required_keys in *.
    apply Forall_cons in Hkeys as [[? ->] Hkeys].
    apply Forall_cons in Hkeys as [[? ->] Hkeys].
    apply Forall_cons in Hkeys as [[? ->] Hkeys].
    apply Forall_cons in Hkeys as [[? ->] Hkeys].
    apply Forall_cons in Hkeys as [_ Hkeys].
    apply Forall_cons in Hkeys as [[? ->] Hkeys].
    rewrite Hstatus, CheckpointStatus_call_value. simpl.
    eexists. split; [done|]. by simpl.
Qed.

(** [from_dict] on the dictionary of its test, which has the six keys
    only. *)
Lemma from_dict_to_dict_witness :
  let data :=
    [("id", VStr "test_1"); ("workflow_id", VStr "workflow_1");
     ("step_name", VStr "step_1"); ("step_index", VInt 0);
     ("status", VStr "in_progress");
     ("input_data", VDict [("task", VStr "test")])] in
  Forall (λ key', is_Some (dict_get key' data)) required_keys
  ∧ dict_get "status" data = Some (VStr (status_value IN_PROGRESS))
  ∧ ∃ raw, (from_dict data example_clock).1 = inr raw
           ∧ raw_status raw = IN_PROGRESS
           ∧ raw_output_data raw = VNone
           ∧ raw_error raw = VNone
           ∧ raw_metadata raw = VDict []
           ∧ raw_created_at raw = VStr (readings example_clock 0).
Proof.
  intros data.
  assert (Hkeys : Forall (λ key', is_Some (dict_get key' data)) required_keys).
  { unfold required_keys.
    repeat (apply Forall_cons; split; [by eexists|]). apply Forall_nil_2. }
  assert (Hstatus : dict_get "status" data = Some (VStr (status_value IN_PROGRESS)))
    by reflexivity.
  split; [exact Hkeys|]. split; [exact Hstatus|].
  destruct (proj2 (proj2 (proj2 (proj2 (proj2 from_dict_to_dict))))
              data example_clock IN_PROGRESS Hkeys Hstatus)
    as (raw & Hraw & Hs & Hout & Herr & Hmeta & Hcreated & _).
  exists raw. rewrite Hraw. split_and!; done.
Defined.

(** ** Saving as an upsert *)

Lemma dict_get_None {V} k (d : list (string * V)) :
  dict_get k d = None ↔ k ∉ dict_keys d.
Proof.
  unfold dict_keys. induction d as [|[k0 v0] d IH]; simpl.
  - split; [intros _; apply not_elem_of_nil|done].
  - rewrite not_elem_of_cons. case_decide as Hk.
    + split; [done|]. intros [Hne _]. by destruct Hne.
    + rewrite IH. split; [by intros; split; [congruence|]|by intros [_ ?]].
Qed.

Lemma elem_of_dict_set {V} k (v : V) d key x :
  (key, x) ∈ dict_set k v d → (key, x) = (k, v) ∨ (key, x) ∈ d.
Proof.
  induction d as [|[k0 v0] d IH]; simpl.
  - intros ->%list_elem_of_singleton. by left.
  - case_decide.
    + intros [->|?]%elem_of_cons; [by left|right; by right].
    + intros [->|?]%elem_of_cons; [right; by left|].
      destruct IH as [?|?]; [done|by left|right; by right].
Qed.

(** X3. [save] on the in-memory backend is an upsert by id, in a
    dictionary whose entries are under the ids of their checkpoints.
    Afterwards [load] of the id gives the checkpoint as saved, which is the
    argument with [updated_at] read off the clock; every other id loads
    what it loaded before; the entries are still under their ids and the
    keys stay unique, a new id going last and a known one keeping its
    place.  [load] gives None exactly for the ids that are no key.  The
    [save] of the backend interface is this one, and raises nothing. *)
Theorem Memory_save_upsert (self : Memory.MemoryCheckpointBackend)
    (k : Clock) (cp : Checkpoint) :
  keyed_by_id (Memory._checkpoints self) →
  let saved := Memory.save cp self k in
  let before := Memory._checkpoints self in
  let after := Memory._checkpoints saved.1.2 in
  saved.1.1 = set_updated_at (readings k (ticks k)) cp
  ∧ Memory.load (id cp) saved.1.2 = Some saved.1.1
  ∧ (∀ i, i ≠ id cp → Memory.load i saved.1.2 = Memory.load i self)
  ∧ keyed_by_id after
  ∧ (dict_ok before → dict_ok after)
  ∧ dict_keys after
    = (if decide (id cp ∈ dict_keys before) then dict_keys before
       else dict_keys before ++ [id cp])
  ∧ (∀ i, Memory.load i self = None ↔ i ∉ dict_keys before)
  ∧ ticks saved.2 = S (ticks k)
  ∧ save cp self k = (None, saved.1.1, saved.1.2, saved.2).
Proof.
  intros Hkeyed saved before after. subst saved before after.
  unfold Memory.save, Memory.load. simpl. split_and!.
  - done.
  - by rewrite dict_get_set, decide_True.
  - intros i Hi. by rewrite dict_get_set, decide_False.
  - intros key c [[= -> ->]|Hin]%elem_of_dict_set; [done|]. by apply Hkeyed.
  - apply dict_ok_set.
  - apply dict_keys_set.
  - intros i. apply dict_get_None.
  - done.
  - done.
Qed.

Lemma find_id_None (t : list SQLite.Row) i :
  List.find (λ r, bool_decide (SQLite.r_id r = i)) t = None
  ↔ i ∉ SQLite.r_id <$> t.
Proof.
  induction t as [|r t IH]; simpl.
  - split; [intros _; apply not_elem_of_nil|done].
  - rewrite not_elem_of_cons. case_bool_decide as Hr.
    + split; [done|]. intros [Hne _]. by destruct Hne.
    + rewrite IH. split; [by intros; split; [congruence|]|by intros [_ ?]].
Qed.

Lemma find_insert_or_replace_other (r : SQLite.Row) (t : list SQLite.Row) i :
  i ≠ SQLite.r_id r →
  List.find (λ r', bool_decide (SQLite.r_id r' = i)) (SQLite.insert_or_replace r t)
  = List.find (λ r', bool_decide (SQLite.r_id r' = i)) t.
Proof.
  intros Hi. unfold SQLite.insert_or_replace.
  induction t as [|a t IH]; simpl.
  - by rewrite bool_decide_eq_false_2.
  - rewrite filter_cons. case_decide as Ha; simpl.
    + case_bool_decide; [done|apply IH].
    + rewrite bool_decide_eq_false_2 by congruence. apply IH.
Qed.

Lemma insert_or_replace_ids (r : SQLite.Row) (t : list SQLite.Row) :
  NoDup (SQLite.r_id <$> t) → NoDup (SQLite.r_id <$> SQLite.insert_or_replace r t).
Proof.
  intros Ht. unfold SQLite.insert_or_replace. rewrite fmap_app.
  apply NoDup_app. split_and!.
  - clear -Ht. induction t as [|a t IH]; [constructor|].
    simpl in Ht. apply NoDup_cons in Ht as [Ha Ht].
    rewrite filter_cons. case_decide; [|by apply IH]. simpl.
    apply NoDup_cons. split; [|by apply IH].
    intros (y & Hy1 & [_ Hy2]%list_elem_of_filter)%list_elem_of_fmap.
    apply Ha. apply list_elem_of_fmap. exists y. split; [congruence|done].
  - intros i (y & -> & [Hy _]%list_elem_of_filter)%list_elem_of_fmap.
    by intros Heq%list_elem_of_singleton.
  - apply NoDup_singleton.
Qed.

(** X4. [save] on the table is an upsert by primary key.  For a step
    index of 64 bits nothing is raised and afterwards the table has one
    row with the id, the row of the checkpoint as saved; every other id is
    loaded as before; ids that were unique stay unique.  For another step
    index [save] raises OverflowError and the table is as it was.  [load]
    gives None, and raises nothing, exactly for the ids that no row has,
    whatever else the table holds. *)
Theorem SQLite_save_upsert (json_dumps : value → string)
    (json_loads : string → result value)
    (self : SQLite.SQLiteCheckpointBackend) (k : Clock) (cp : Checkpoint) :
  let saved := SQLite.save json_dumps cp self k in
  let before := SQLite.table self in
  let after := SQLite.table saved.1.2 in
  saved.1.1.2 = set_updated_at (readings k (ticks k)) cp
  ∧ (if SQLite.fits_int64 (step_index cp)
     then
       saved.1.1.1 = None
       ∧ filter (λ r, SQLite.r_id r = id cp) after
         = [SQLite.checkpoint_row json_dumps saved.1.1.2]
       ∧ (∀ i, i ≠ id cp →
            SQLite.load json_loads i saved.1.2 = SQLite.load json_loads i self)
       ∧ (∀ r, SQLite.r_id r ≠ id cp → r ∈ after ↔ r ∈ before)
       ∧ (NoDup (SQLite.r_id <$> before) → NoDup (SQLite.r_id <$> after))
     else
       saved.1.1.1 = Some SQLite.OverflowError ∧ saved.1.2 = self)
  ∧ (∀ i, SQLite.load json_loads i self = Ok None ↔ i ∉ SQLite.r_id <$> before).
Proof.
  intros saved before after. subst saved before after.
  unfold SQLite.save, SQLite.load.
  cbn [utcnow_isoformat SQLite.checkpoint_row SQLite.r_step_index
       step_index set_updated_at].
  split_and!.
  - by destruct (SQLite.fits_int64 (step_index cp)).
  - destruct (SQLite.fits_int64 (step_index cp)); cbn [fst snd SQLite.table];
      [|done].
    split_and!.
    + done.
    + by apply filter_insert_or_replace.
    + intros i Hi. by rewrite find_insert_or_replace_other.
    + intros r Hr. unfold SQLite.insert_or_replace.
      rewrite elem_of_app, list_elem_of_filter, list_elem_of_singleton.
      split; [|by left]. intros [[_ ?]| ->]; [done|]. by destruct Hr.
    + apply insert_or_replace_ids.
  - intros i. rewrite <-find_id_None.
    destruct (List.find _ (SQLite.table self)) as [row|]; [|done].
    split; [|done]. by destruct (SQLite._row_to_checkpoint json_loads row).
Qed.

(** ** Reachable states *)

Lemma produced_id (cp : Checkpoint) :
  produced (backend := Memory_backend) cp →
  id cp = generate_checkpoint_id (workflow_id cp) (step_index cp).
Proof. induction 1; done. Qed.

Lemma keyed_by_step_set cp d :
  id cp = generate_checkpoint_id (workflow_id cp) (step_index cp) →
  keyed_by_step d → keyed_by_step (dict_set (id cp) cp d).
Proof.
  intros Hcp Hd key x [[= -> ->]|Hin]%elem_of_dict_set; [done|].
  by apply Hd.
Qed.

Lemma reachable_keyed self :
  reachable self →
  dict_ok (Memory._checkpoints (_backend self))
  ∧ keyed_by_step (Memory._checkpoints (_backend self)).
Proof.
  induction 1 as [mode|wf name idx input meta self k _ [IHok IHkey]
                 |cp out self k _ [IHok IHkey] Hcp
                 |cp err self k _ [IHok IHkey] Hcp
                 |cp self k _ [IHok IHkey] Hcp
                 |wf self _ [IHok IHkey]].
  - split; [apply NoDup_nil_2|]. by intros key cp ?%elem_of_nil.
  - split; [by apply dict_ok_set|]. simpl.
    by apply (keyed_by_step_set (set_updated_at _ (Build_Checkpoint _ _ _ _ _ _ _ _ _ _ _))).
  - apply produced_id in Hcp.
    split; [by apply dict_ok_set|]. simpl.
    by apply (keyed_by_step_set
                (set_updated_at _ (set_output_data _ (set_status _ cp)))).
  - apply produced_id in Hcp.
    split; [by apply dict_ok_set|]. simpl.
    by apply (keyed_by_step_set
                (set_updated_at _ (set_error _ (set_status _ cp)))).
  - apply produced_id in Hcp.
    split; [by apply dict_ok_set|]. simpl.
    by apply (keyed_by_step_set (set_updated_at _ (set_status _ cp))).
  - unfold cleanup_workflow. cbn [delete_workflow_checkpoints Memory_backend].
    destruct (Memory.delete_workflow_checkpoints wf (_backend self))
      as [n b'] eqn:Hdel.
    assert (Hb' : Memory._checkpoints b'
              = filter (λ item, ¬ workflow_id item.2 = wf)
                  (Memory._checkpoints (_backend self))).
    { rewrite <-Memory_delete_state by done. by rewrite Hdel. }
    simpl. rewrite Hb'. split; [by apply dict_ok_filter|].
    intros key cp [_ Hin]%list_elem_of_filter. by apply IHkey.
Qed.

Lemma ascending_strict {A} (key : A → Z) (l : list A) :
  ascending key l → NoDup (key <$> l) →
  StronglySorted (λ a b, (key a < key b)%Z) l.
Proof.
  unfold ascending. induction 1 as [|x l Hl IH Hx]; [constructor|].
  intros [Hnin Hnd]%NoDup_cons. constructor; [by apply IH|].
  rewrite Forall_forall in Hx. apply Forall_forall. intros y Hy.
  specialize (Hx y Hy).
  assert (key x ≠ key y); [|lia].
  intros Heq. apply Hnin. rewrite Heq. by apply list_elem_of_fmap_2.
Qed.

(** X5. In a state that operations reach from a new checkpointer on the
    in-memory backend, every entry of the dictionary is under the id of
    its checkpoint, which is the id of the workflow and step of the
    checkpoint, and no key occurs twice.  So two stored checkpoints of one
    workflow have different step indices, the listing of a workflow is
    strictly ascending, and every stored checkpoint is loaded by the id of
    its workflow and step. *)
Theorem reachable_one_checkpoint_per_step
    (self : Checkpointer Memory.MemoryCheckpointBackend) :
  reachable self →
  let d := Memory._checkpoints (_backend self) in
  dict_ok d
  ∧ keyed_by_step d
  ∧ (∀ cp1 cp2, cp1 ∈ dict_values d → cp2 ∈ dict_values d →
       workflow_id cp1 = workflow_id cp2 → step_index cp1 = step_index cp2 →
       cp1 = cp2)
  ∧ (∀ wf, StronglySorted (λ a b, (step_index a < step_index b)%Z)
             (Memory.list_workflow_checkpoints wf (_backend self)))
  ∧ (∀ cp, cp ∈ dict_values d →
       load (generate_checkpoint_id (workflow_id cp) (step_index cp))
         (_backend self) = Ok (Some cp)).
Proof.
  intros [Hok Hkey]%reachable_keyed d. fold d in Hok, Hkey.
  assert (Hentry : ∀ cp, cp ∈ dict_values d → (id cp, cp) ∈ d).
  { intros cp ([key cp'] & -> & Hin)%list_elem_of_fmap. simpl.
    by destruct (Hkey _ _ Hin) as [<- _]. }
  assert (Hsame : ∀ cp1 cp2, cp1 ∈ dict_values d → cp2 ∈ dict_values d →
       workflow_id cp1 = workflow_id cp2 → step_index cp1 = step_index cp2 →
       cp1 = cp2).
  { intros cp1 cp2 H1%Hentry H2%Hentry Hwf Hidx.
    assert (Hid : id cp1 = id cp2).
    { destruct (Hkey _ _ H1) as [_ ->], (Hkey _ _ H2) as [_ ->]. congruence. }
    pose proof (dict_ok_key_inj d _ _ Hok H1 H2 Hid) as Heq. by simplify_eq. }
  split_and!; [done..| |].
  - intros wf. apply ascending_strict; [apply sorted_by_key_ascending|].
    unfold Memory.list_workflow_checkpoints.
    rewrite sorted_by_key_perm. fold d.
    apply NoDup_fmap_2_strong.
    + intros cp1 cp2 [Hwf1 H1]%list_elem_of_filter [Hwf2 H2]%list_elem_of_filter.
      apply Hsame; [done..|congruence].
    + apply NoDup_filter.
      apply (NoDup_fmap_1 id). unfold dict_values, dict_ok, dict_keys in *.
      rewrite <-list_fmap_compose.
      erewrite list_fmap_ext; [exact Hok|].
      intros i [key cp] Hi. simpl.
      apply list_elem_of_lookup_2 in Hi. by destruct (Hkey _ _ Hi) as [<- _].
  - intros cp Hcp%Hentry. simpl. f_equal. unfold Memory.load. fold d.
    destruct (Hkey _ _ Hcp) as [_ <-]. by apply dict_get_Some.
Qed.

(** The invariant of reachable states, applied to the run of the recovery
    tests. *)
Lemma reachable_one_checkpoint_per_step_witness :
  let self := (completed_then_failed RESTART_TASK).1 in
  reachable self
  ∧ StronglySorted (λ a b, (step_index a < step_index b)%Z)
      (Memory.list_workflow_checkpoints "wf" (_backend self))
  ∧ length (Memory.list_workflow_checkpoints "wf" (_backend self)) = 2.
Proof.
  intros self.
  assert (Hreach : reachable self).
  { unfold self, completed_then_failed. cbn [fst].
    apply reachable_failed; [|apply produced_start].
    apply reachable_start.
    apply reachable_complete; [|apply produced_start].
    apply reachable_start, reachable_init. }
  split; [exact Hreach|].
  destruct (reachable_one_checkpoint_per_step self Hreach)
    as (_ & _ & _ & Hsorted & _).
  split; [apply Hsorted|reflexivity].
Defined.

(** ** A workflow without checkpoints *)

Lemma filter_none {A} (P : A → Prop) `{!∀ x, Decision (P x)} (l : list A) :
  (∀ x, x ∈ l → ¬ P x) → filter P l = [].
Proof.
  induction l as [|a l IH]; intros Hl; [done|].
  rewrite filter_cons_False by (apply Hl; left).
  apply IH. intros x Hx. apply Hl. by right.
Qed.

(** X6. For a workflow of which the backend holds no checkpoint the
    listing is empty, and [get_last_checkpoint] and [get_recovery_point]
    give None under every recovery mode; nothing is raised for it, on the
    table whatever the rows of other workflows hold. *)
Theorem recovery_point_of_unknown_workflow :
  (∀ (self : Checkpointer Memory.MemoryCheckpointBackend) (wf : string),
     (∀ cp, cp ∈ dict_values (Memory._checkpoints (_backend self)) →
            workflow_id cp ≠ wf) →
     list_checkpoints wf self = Ok []
     ∧ get_last_checkpoint wf (_backend self) = Ok None
     ∧ get_recovery_point wf self = Ok None)
  ∧ (∀ (json_dumps : value → string) (json_loads : string → result value)
       (self : Checkpointer SQLite.SQLiteCheckpointBackend) (wf : string),
     let sqlite := SQLite_backend json_dumps json_loads in
     (∀ r, r ∈ SQLite.table (_backend self) → SQLite.r_workflow_id r ≠ wf) →
     list_checkpoints (backend := sqlite) wf self = Ok []
     ∧ get_last_checkpoint (CheckpointBackend := sqlite) wf (_backend self) = Ok None
     ∧ get_recovery_point (backend := sqlite) wf self = Ok None).
Proof.
  split.
  - intros self wf Hnone.
    assert (Hlist : Memory.list_workflow_checkpoints wf (_backend self) = []).
    { unfold Memory.list_workflow_checkpoints. by rewrite filter_none. }
    unfold list_checkpoints, get_recovery_point.
    cbn [list_workflow_checkpoints get_last_checkpoint Memory_backend].
    unfold Memory.get_last_checkpoint. rewrite Hlist. simpl.
    split_and!; [done..|]. by case_decide.
  - intros json_dumps json_loads self wf sqlite Hnone. subst sqlite.
    unfold list_checkpoints, get_recovery_point.
    cbn [list_workflow_checkpoints get_last_checkpoint SQLite_backend].
    unfold SQLite.list_workflow_checkpoints, SQLite.get_last_checkpoint.
    rewrite filter_none by done. simpl.
    split_and!; [done..|]. by case_decide.
Qed.

(** ** The last checkpoint and the recovery point *)

Lemma NoDup_fmap_elem_inj {A B} (f : A → B) (l : list A) x y :
  NoDup (f <$> l) → x ∈ l → y ∈ l → f x = f y → x = y.
Proof.
  induction l as [|a l IH]; simpl; [by intros _ ?%elem_of_nil|].
  intros [Ha Hl]%NoDup_cons [->|Hx]%elem_of_cons [->|Hy]%elem_of_cons Heq;
    [done| | |by apply IH].
  - destruct Ha. rewrite Heq. by apply list_elem_of_fmap_2.
  - destruct Ha. rewrite <-Heq. by apply list_elem_of_fmap_2.
Qed.

(** X7. Under RESUME_FROM_LAST the recovery point of a workflow is its
    last checkpoint: [get_recovery_point] gives what [get_last_checkpoint]
    gives, on the in-memory backend always, and on the table when the rows
    of the workflow decode and have different step indices. *)
Theorem resume_from_last_is_last_checkpoint :
  (∀ (self : Checkpointer Memory.MemoryCheckpointBackend) (wf : string),
     recovery_mode self = RESUME_FROM_LAST →
     get_recovery_point wf self = get_last_checkpoint wf (_backend self))
  ∧ (∀ (json_dumps : value → string) (json_loads : string → result value)
       (self : Checkpointer SQLite.SQLiteCheckpointBackend) (wf : string),
     let sqlite := SQLite_backend json_dumps json_loads in
     let rows :=
       filter (λ r, SQLite.r_workflow_id r = wf) (SQLite.table (_backend self)) in
     recovery_mode self = RESUME_FROM_LAST →
     Forall (λ r, ∃ cp, SQLite._row_to_checkpoint json_loads r = Ok cp) rows →
     NoDup (SQLite.r_step_index <$> rows) →
     get_recovery_point (backend := sqlite) wf self
     = get_last_checkpoint (CheckpointBackend := sqlite) wf (_backend self)).
Proof.
  split.
  - intros self wf Hmode. unfold get_recovery_point. rewrite Hmode.
    cbn [list_workflow_checkpoints get_last_checkpoint Memory_backend].
    unfold Memory.get_last_checkpoint. simpl.
    by destruct (Memory.list_workflow_checkpoints wf (_backend self)).
  - intros json_dumps json_loads self wf sqlite rows Hmode Hdec Hnd.
    subst sqlite. unfold get_recovery_point. rewrite Hmode.
    cbn [list_workflow_checkpoints get_last_checkpoint SQLite_backend].
    unfold SQLite.list_workflow_checkpoints, SQLite.get_last_checkpoint.
    fold rows. simpl.
    pose proof (sorted_by_key_perm SQLite.r_step_index rows) as Hperm.
    pose proof (sorted_by_key_ascending SQLite.r_step_index rows) as Hasc.
    destruct (sorted_by_key (λ r, - SQLite.r_step_index r)%Z rows)
      as [|r rs] eqn:Hdesc.
    + pose proof (sorted_by_key_perm (λ r, - SQLite.r_step_index r)%Z rows) as Hp.
      rewrite Hdesc in Hp. apply Permutation_nil_l in Hp. by rewrite <-Hp.
    + apply descending_head in Hdesc as [Hr Hmax].
      destruct (last (sorted_by_key SQLite.r_step_index rows)) as [r'|] eqn:Hlast.
      2:{ apply last_None in Hlast. rewrite Hlast in Hperm.
          apply Permutation_nil_l in Hperm. rewrite <-Hperm in Hr.
          by apply elem_of_nil in Hr. }
      assert (r' = r) as ->.
      { pose proof (last_Some_elem_of _ _ Hlast) as Hr'. rewrite Hperm in Hr'.
        apply (NoDup_fmap_elem_inj SQLite.r_step_index rows); [done..|].
        pose proof (Hmax r' Hr').
        pose proof (ascending_last _ _ _ Hasc Hlast r) as Hle.
        rewrite Hperm in Hle. specialize (Hle Hr). lia. }
      apply last_Some in Hlast as [init Hinit]. rewrite Hinit.
      rewrite Forall_forall in Hdec. destruct (Hdec r Hr) as [cp Hcp].
      rewrite Hcp. simpl.
      destruct (rmap_list_total (SQLite._row_to_checkpoint json_loads) init)
        as [l0 Hl0].
      { apply Forall_forall. intros x Hx. apply Hdec. rewrite <-Hperm, Hinit.
        apply elem_of_app. by left. }
      assert (Hall : rmap_list (SQLite._row_to_checkpoint json_loads) (init ++ [r])
                     = Ok (l0 ++ [cp])).
      { apply rmap_list_Ok. apply Forall2_app; [by apply rmap_list_Ok|].
        by repeat constructor. }
      rewrite Hall. simpl. rewrite last_snoc.
      by destruct (l0 ++ [cp]) eqn:Happ; [destruct l0|].
Qed.

(** ** Operations and incomplete workflows *)

Lemma Memory_incomplete_iff (self : Memory.MemoryCheckpointBackend) wf :
  wf ∈ Memory.get_incomplete_workflows self
  ↔ ∃ key cp, (key, cp) ∈ Memory._checkpoints self ∧ workflow_id cp = wf
              ∧ (status cp = PENDING ∨ status cp = IN_PROGRESS).
Proof.
  unfold Memory.get_incomplete_workflows. rewrite elem_of_elements.
  rewrite incomplete_loop. unfold dict_values. split.
  - intros [?%elem_of_empty|(cp & ([key cp'] & -> & Hin)%list_elem_of_fmap & ? & ?)];
      [done|]. by exists key, cp'.
  - intros (key & cp & Hin & ? & ?). right. exists cp. split; [|done].
    apply list_elem_of_fmap. by exists (key, cp).
Qed.

Lemma SQLite_incomplete_iff (self : SQLite.SQLiteCheckpointBackend) wf :
  wf ∈ SQLite.get_incomplete_workflows self
  ↔ ∃ r, r ∈ SQLite.table self ∧ SQLite.r_workflow_id r = wf
         ∧ (SQLite.r_status r = status_value PENDING
            ∨ SQLite.r_status r = status_value IN_PROGRESS).
Proof.
  unfold SQLite.get_incomplete_workflows.
  rewrite elem_of_remove_dups, list_elem_of_fmap. split.
  - intros (r & -> & [? ?]%list_elem_of_filter). by exists r.
  - intros (r & ? & <- & ?). exists r. split; [done|].
    by apply list_elem_of_filter.
Qed.

Lemma elem_of_dict_set_iff {V} k (v : V) d key x :
  dict_ok d →
  (key, x) ∈ dict_set k v d ↔ (key, x) = (k, v) ∨ (key ≠ k ∧ (key, x) ∈ d).
Proof.
  unfold dict_ok, dict_keys. induction d as [|[k0 v0] d IH]; simpl.
  - intros _. rewrite list_elem_of_singleton. split; [by left|].
    intros [?|[_ ?%elem_of_nil]]; done.
  - intros [Hk0 Hd]%NoDup_cons. case_decide as Hk; rewrite !elem_of_cons.
    + subst k0. split.
      * intros [?|Hin]; [by left|]. right. split; [|by right].
        intros ->. apply Hk0. apply list_elem_of_fmap. by exists (k, x).
      * intros [?|[Hne [[= ? ?]|?]]]; [by left|done|by right].
    + rewrite IH by done. split.
      * intros [[= -> ->]|[?|[? ?]]]; [right|by left|right]; split;
          [done|by left|done|by right].
      * intros [?|[? [?|?]]]; [right; by left|by left|right; right; by split].
Qed.

Lemma elem_of_dict_set_here {V} k (v : V) d : (k, v) ∈ dict_set k v d.
Proof.
  induction d as [|[k0 v0] d IH]; simpl; [apply list_elem_of_here|].
  case_decide; [apply list_elem_of_here|by right].
Qed.

(** X8. Saving a checkpoint decides whether its workflow is incomplete as
    far as that checkpoint goes.  After [checkpoint_start] the workflow is
    incomplete.  After [checkpoint_complete], [checkpoint_failed] and
    [mark_recovered] of a checkpoint a workflow is incomplete exactly when
    the backend held, under another id, a PENDING or IN_PROGRESS
    checkpoint of it; so a workflow whose one open step is ended is no
    longer incomplete.  On the in-memory backend the entries are taken to
    be under the ids of their checkpoints; on the table the step index is
    taken to have 64 bits, and for another one the operation raises and
    the table is as it was. *)
Theorem operations_and_incomplete_workflows :
  (∀ (self : Checkpointer Memory.MemoryCheckpointBackend) (k : Clock),
     let open_elsewhere cp_id wf :=
       ∃ key cp, (key, cp) ∈ Memory._checkpoints (_backend self) ∧ key ≠ cp_id
                 ∧ workflow_id cp = wf
                 ∧ (status cp = PENDING ∨ status cp = IN_PROGRESS) in
     (∀ wf name idx input meta,
        wf ∈ get_incomplete_workflows
               (_backend (checkpoint_start wf name idx input meta self k).1.2))
     ∧ (dict_ok (Memory._checkpoints (_backend self)) →
        keyed_by_id (Memory._checkpoints (_backend self)) →
        ∀ cp output err wf,
          (wf ∈ get_incomplete_workflows
                  (_backend (checkpoint_complete cp output self k).1.2)
           ↔ open_elsewhere (id cp) wf)
          ∧ (wf ∈ get_incomplete_workflows
                    (_backend (checkpoint_failed cp err self k).1.2)
             ↔ open_elsewhere (id cp) wf)
          ∧ (wf ∈ get_incomplete_workflows
                    (_backend (mark_recovered cp self k).1.2)
             ↔ open_elsewhere (id cp) wf)))
  ∧ (∀ (json_dumps : value → string) (json_loads : string → result value)
       (self : Checkpointer SQLite.SQLiteCheckpointBackend) (k : Clock),
     let sqlite := SQLite_backend json_dumps json_loads in
     let open_elsewhere cp_id wf :=
       ∃ r, r ∈ SQLite.table (_backend self) ∧ SQLite.r_id r ≠ cp_id
            ∧ SQLite.r_workflow_id r = wf
            ∧ (SQLite.r_status r = status_value PENDING
               ∨ SQLite.r_status r = status_value IN_PROGRESS) in
     let refused (r : option Exception * Checkpoint
                      * Checkpointer SQLite.SQLiteCheckpointBackend * Clock) :=
       r.1.1.1 = Some SQLite.OverflowError ∧ _backend r.1.2 = _backend self in
     (∀ wf name idx input meta,
        let started :=
          checkpoint_start (backend := sqlite) wf name idx input meta self k in
        if SQLite.fits_int64 idx
        then started.1.1.1 = None
             ∧ wf ∈ get_incomplete_workflows (CheckpointBackend := sqlite)
                      (_backend started.1.2)
        else refused started)
     ∧ (∀ cp output err,
          let done := checkpoint_complete (backend := sqlite) cp output self k in
          let failed := checkpoint_failed (backend := sqlite) cp err self k in
          let recovered := mark_recovered (backend := sqlite) cp self k in
          if SQLite.fits_int64 (step_index cp)
          then
            ∀ wf,
              (wf ∈ get_incomplete_workflows (CheckpointBackend := sqlite)
                      (_backend done.1.2)
               ↔ open_elsewhere (id cp) wf)
              ∧ (wf ∈ get_incomplete_workflows (CheckpointBackend := sqlite)
                        (_backend failed.1.2)
                 ↔ open_elsewhere (id cp) wf)
              ∧ (wf ∈ get_incomplete_workflows (CheckpointBackend := sqlite)
                        (_backend recovered.1.2)
                 ↔ open_elsewhere (id cp) wf)
          else refused done ∧ refused failed ∧ refused recovered)).
Proof.
  split.
  - intros self k open_elsewhere. split.
    + intros wf name idx input meta.
      cbn [get_incomplete_workflows Memory_backend].
      apply Memory_incomplete_iff. eexists _, _. split_and!.
      * simpl. apply elem_of_dict_set_here.
      * done.
      * by right.
    + intros Hok _ cp output err wf.
      cbn [get_incomplete_workflows Memory_backend].
      rewrite !Memory_incomplete_iff. simpl.
      split_and!; (split;
        [intros (key & c & Hin & Hwf & Hst);
         apply elem_of_dict_set_iff in Hin as [Heq|[Hne Hin]];
           [injection Heq as -> ->; by destruct Hst|by exists key, c|done]
        |intros (key & c & Hin & Hne & Hwf & Hst); exists key, c;
         split; [|done]; apply elem_of_dict_set_iff; [done|]; by right]).
  - intros json_dumps json_loads self k sqlite open_elsewhere refused.
    subst sqlite refused. split.
    + intros wf name idx input meta started. subst started.
      rewrite SQLite_checkpoint_start_eq.
      destruct (SQLite.fits_int64 idx); cbn [fst snd _backend]; [|done].
      split; [done|].
      cbn [get_incomplete_workflows SQLite_backend].
      apply SQLite_incomplete_iff. eexists. split_and!.
      * simpl. unfold SQLite.insert_or_replace.
        apply elem_of_app. right. apply list_elem_of_here.
      * done.
      * by right.
    + intros cp output err done failed recovered. subst done failed recovered.
      unfold checkpoint_complete, checkpoint_failed, mark_recovered.
      rewrite !SQLite_save_eq.
      cbn [step_index set_status set_output_data set_error].
      destruct (SQLite.fits_int64 (step_index cp));
        cbn [fst snd _backend with_backend]; [|done].
      intros wf. cbn [get_incomplete_workflows SQLite_backend].
      rewrite !SQLite_incomplete_iff. simpl. unfold SQLite.insert_or_replace.
      split_and!; (split;
        [intros (r & Hin & Hwf & Hst);
         apply elem_of_app in Hin as [[Hne Hin]%list_elem_of_filter
                                     |Heq%list_elem_of_singleton];
         [by exists r|subst r; by destruct Hst]
        |intros (r & Hin & Hne & Hwf & Hst); exists r;
         split; [|done]; apply elem_of_app; left;
         by apply list_elem_of_filter]).
Qed.

(** ** Cleanup, incomplete workflows and recovery *)

(** X9. After [cleanup_workflow] the workflow is not incomplete and has no
    recovery point under any recovery mode, and every other workflow is
    incomplete exactly when it was before. *)
Theorem cleanup_forgets_workflow :
  (∀ (self : Checkpointer Memory.MemoryCheckpointBackend) (wf : string),
     dict_ok (Memory._checkpoints (_backend self)) →
     let self' := (cleanup_workflow wf self).2 in
     (wf ∉ Checkpointer_get_incomplete_workflows self')
     ∧ get_recovery_point wf self' = Ok None
     ∧ (∀ wf', wf' ≠ wf →
          wf' ∈ Checkpointer_get_incomplete_workflows self'
          ↔ wf' ∈ Checkpointer_get_incomplete_workflows self))
  ∧ (∀ (json_dumps : value → string) (json_loads : string → result value)
       (self : Checkpointer SQLite.SQLiteCheckpointBackend) (wf : string),
     let sqlite := SQLite_backend json_dumps json_loads in
     let self' := (cleanup_workflow (backend := sqlite) wf self).2 in
     (wf ∉ Checkpointer_get_incomplete_workflows (backend := sqlite) self')
     ∧ get_recovery_point (backend := sqlite) wf self' = Ok None
     ∧ (∀ wf', wf' ≠ wf →
          wf' ∈ Checkpointer_get_incomplete_workflows (backend := sqlite) self'
          ↔ wf' ∈ Checkpointer_get_incomplete_workflows (backend := sqlite) self)).
Proof.
  split.
  - intros [b mode] wf Hok self'. subst self'. simpl in Hok.
    unfold cleanup_workflow, Checkpointer_get_incomplete_workflows.
    cbn [_backend delete_workflow_checkpoints get_incomplete_workflows
         Memory_backend].
    destruct (Memory.delete_workflow_checkpoints wf b) as [n b'] eqn:Hdel.
    assert (Hb' : Memory._checkpoints b'
              = filter (λ item, ¬ workflow_id item.2 = wf) (Memory._checkpoints b)).
    { rewrite <-Memory_delete_state by done. by rewrite Hdel. }
    cbn [snd with_backend _backend].
    split_and!.
    + intros (key & cp & Hin & Hwf & _)%Memory_incomplete_iff.
      rewrite Hb' in Hin. by apply list_elem_of_filter in Hin as [Hne _].
    + unfold get_recovery_point.
      cbn [_backend recovery_mode list_workflow_checkpoints Memory_backend].
      unfold Memory.list_workflow_checkpoints, with_backend.
      cbn [_backend recovery_mode]. rewrite filter_values, Hb'.
      rewrite (filter_complement_nil (λ kv, workflow_id kv.2 = wf)). simpl.
      by case_decide.
    + intros wf' Hne. split.
      * intros (key & cp & Hin & Hwf & Hst)%Memory_incomplete_iff.
        apply Memory_incomplete_iff. rewrite Hb' in Hin.
        apply list_elem_of_filter in Hin as [_ Hin]. by exists key, cp.
      * intros (key & cp & Hin & Hwf & Hst)%Memory_incomplete_iff.
        apply Memory_incomplete_iff. exists key, cp.
        split; [|done]. rewrite Hb'. apply list_elem_of_filter. split; [|done].
        simpl. congruence.
  - intros json_dumps json_loads [b mode] wf sqlite self'. subst sqlite self'.
    unfold cleanup_workflow, Checkpointer_get_incomplete_workflows.
    cbn [_backend delete_workflow_checkpoints get_incomplete_workflows
         SQLite_backend SQLite.delete_workflow_checkpoints snd with_backend].
    split_and!.
    + intros (r & Hin & Hwf & _)%SQLite_incomplete_iff. simpl in Hin.
      by apply list_elem_of_filter in Hin as [Hne _].
    + unfold get_recovery_point.
      cbn [_backend recovery_mode list_workflow_checkpoints SQLite_backend].
      unfold SQLite.list_workflow_checkpoints, with_backend.
      cbn [_backend recovery_mode SQLite.table].
      rewrite (filter_complement_nil (λ r, SQLite.r_workflow_id r = wf)). simpl.
      by case_decide.
    + intros wf' Hne. split.
      * intros (r & Hin & Hwf & Hst)%SQLite_incomplete_iff. simpl in Hin.
        apply SQLite_incomplete_iff.
        apply list_elem_of_filter in Hin as [_ Hin]. by exists r.
      * intros (r & Hin & Hwf & Hst)%SQLite_incomplete_iff.
        apply SQLite_incomplete_iff. exists r.
        split; [|done]. simpl. apply list_elem_of_filter.
        split; [congruence|done].
Qed.

(** ** A scope and the checkpoints of its workflow *)

Lemma filter_values_dict_set (P : Checkpoint → Prop) `{!∀ x, Decision (P x)}
    k v (d : list (string * Checkpoint)) :
  P v → (∀ x, x ∈ dict_values d → ¬ P x) →
  filter P (dict_values (dict_set k v d)) = [v].
Proof.
  unfold dict_values. intros Hv. induction d as [|[k0 v0] d IH]; intros Hd; simpl.
  - by rewrite filter_cons_True.
  - case_decide; simpl.
    + rewrite filter_cons_True by done. f_equal. apply filter_none.
      intros x Hx. apply Hd. by right.
    + rewrite filter_cons_False by (apply Hd; left). apply IH.
      intros x Hx. apply Hd. by right.
Qed.

(** X10. A scope on the in-memory backend, for a workflow of which the
    backend holds no checkpoint, leaves exactly one: when the body raises,
    a FAILED one with the text of the exception as its error, and the
    exception goes on to the caller; otherwise a COMPLETED one with the
    recorded output, or the empty map.  It has the step and the input the
    scope was made with, and the workflow is not incomplete afterwards. *)
Theorem scope_leaves_one_checkpoint
    (cpr : Checkpointer Memory.MemoryCheckpointBackend) (k : Clock)
    (wf name : string) (idx : Z) (input meta : value) (body : list stmt) :
  (∀ cp, cp ∈ dict_values (Memory._checkpoints (_backend cpr)) →
         workflow_id cp ≠ wf) →
  let ran := run_body body (context wf name idx input meta) in
  let result := with_sync (context wf name idx input meta) body cpr k in
  result.1.1.1 = ran.2
  ∧ ∃ cp, list_checkpoints wf result.1.2 = Ok [cp]
      ∧ _checkpoint result.1.1.2 = Some cp
      ∧ id cp = generate_checkpoint_id wf idx ∧ step_name cp = name
      ∧ step_index cp = idx ∧ input_data cp = input
      ∧ match ran.2 with
        | Some e => status cp = FAILED ∧ error cp = Some (exc_str e)
                    ∧ output_data cp = VNone
        | None => status cp = COMPLETED ∧ error cp = None
                  ∧ output_data cp = output_or_empty (_output ran.1)
        end
      ∧ (wf ∉ Checkpointer_get_incomplete_workflows result.1.2).
Proof.
  intros Hnone ran result. subst ran result.
  set (mgr := context wf name idx input meta).
  rewrite Memory_with_sync_finished.
  set (cp := finished_record mgr body k).
  pose proof (finished_record_fields mgr body k) as Hfields.
  cbv zeta in Hfields. fold cp in Hfields.
  destruct Hfields as (Hid & Hwf & Hname & Hidx & Hinput & _ & Hend).
  cbn [fst snd _checkpoint set_checkpoint].
  split; [done|]. exists cp.
  unfold list_checkpoints, Checkpointer_get_incomplete_workflows.
  cbn [_backend list_workflow_checkpoints get_incomplete_workflows
       Memory_backend].
  split_and!; [|done..| |].
  - unfold Memory.list_workflow_checkpoints. cbn [Memory._checkpoints].
    by rewrite filter_values_dict_set.
  - destruct (run_body body mgr).2; [by destruct Hend as (? & ? & ?)|done].
  - intros (key & c & Hin & Hc & Hopen)%Memory_incomplete_iff.
    cbn [Memory._checkpoints] in Hin.
    apply elem_of_dict_set in Hin as [[= -> ->]|Hin].
    + destruct (run_body body mgr).2;
        [destruct Hend as (Hst & _)|destruct Hend as (Hst & _)];
        destruct Hopen; congruence.
    + apply (Hnone c); [|done]. apply list_elem_of_fmap. by exists (key, c).
Qed.

(** ** The extras on example runs *)

(** The upsert on the in-memory backend, applied to the run of the
    recovery tests and a second save of its step 0. *)
Lemma Memory_save_upsert_witness :
  let self := _backend (completed_then_failed RESUME_FROM_LAST).1 in
  let cp := started_record "wf" "step_1" 0 (VDict []) VNone example_clock in
  let saved := Memory.save cp self example_clock in
  keyed_by_id (Memory._checkpoints self)
  ∧ dict_ok (Memory._checkpoints self)
  ∧ dict_ok (Memory._checkpoints saved.1.2)
  ∧ keyed_by_id (Memory._checkpoints saved.1.2)
  ∧ dict_keys (Memory._checkpoints saved.1.2) = ["wf_step_0"; "wf_step_1"]
  ∧ Memory.load "wf_step_0" saved.1.2 = Some saved.1.1.
Proof.
  intros self cp saved.
  assert (Hkeyed : keyed_by_id (Memory._checkpoints self)).
  { intros key c Hin. unfold self in Hin. cbv in Hin.
    apply elem_of_cons in Hin as [Heq | Hin]; [by injection Heq as -> ->|].
    apply elem_of_cons in Hin as [Heq | Hin]; [by injection Heq as -> ->|].
    by apply elem_of_nil in Hin. }
  assert (Hok : dict_ok (Memory._checkpoints self)).
  { unfold dict_ok. apply (bool_decide_unpack _). vm_compute. exact I. }
  destruct (Memory_save_upsert self example_clock cp Hkeyed)
    as (_ & Hload & _ & Hkeyed' & Hkeep & _ & _ & _ & _).
  split; [exact Hkeyed|]. split; [exact Hok|]. split; [exact (Hkeep Hok)|].
  split; [exact Hkeyed'|].
  split; [vm_compute; reflexivity|exact Hload].
Defined.

(** The upsert on the table, applied to the run that starts steps out of
    order and a second save of step 0. *)
Lemma SQLite_save_upsert_witness :
  let self := _backend started_out_of_order.1 in
  let cp := started_record "wf" "step_0" 0 (VDict []) VNone example_clock in
  let saved := SQLite.save Json.dumps cp self example_clock in
  NoDup (SQLite.r_id <$> SQLite.table self)
  ∧ saved.1.1.1 = None
  ∧ NoDup (SQLite.r_id <$> SQLite.table saved.1.2)
  ∧ length (SQLite.table saved.1.2) = 4
  ∧ SQLite.load Json.loads "missing" self = Ok None.
Proof.
  intros self cp saved.
  assert (Hnd : NoDup (SQLite.r_id <$> SQLite.table self)).
  { apply (bool_decide_unpack _). vm_compute. exact I. }
  destruct (SQLite_save_upsert Json.dumps Json.loads self example_clock cp)
    as (_ & Hsaved & Hmissing).
  change (SQLite.fits_int64 (step_index cp)) with true in Hsaved.
  cbv iota in Hsaved. destruct Hsaved as (Hnone & _ & _ & _ & Hkeep).
  split; [exact Hnd|]. split; [exact Hnone|]. split; [exact (Hkeep Hnd)|].
  split; [vm_compute; reflexivity|].
  apply Hmissing. apply (bool_decide_unpack _). vm_compute. exact I.
Defined.

(** A workflow without checkpoints, applied to the run of the recovery
    tests under SKIP_FAILED and a workflow it has not seen. *)
Lemma recovery_point_of_unknown_workflow_witness :
  let self := (completed_then_failed SKIP_FAILED).1 in
  (∀ cp, cp ∈ dict_values (Memory._checkpoints (_backend self)) →
         workflow_id cp ≠ "other")
  ∧ get_recovery_point "other" self = Ok None.
Proof.
  intros self.
  assert (Hnone : ∀ cp, cp ∈ dict_values (Memory._checkpoints (_backend self)) →
                        workflow_id cp ≠ "other").
  { intros cp Hcp. unfold self in Hcp. cbv in Hcp.
    apply elem_of_cons in Hcp as [-> | Hcp]; [discriminate|].
    apply elem_of_cons in Hcp as [-> | Hcp]; [discriminate|].
    by apply elem_of_nil in Hcp. }
  split; [exact Hnone|].
  exact (proj2 (proj2 (proj1 recovery_point_of_unknown_workflow self "other" Hnone))).
Defined.

(** The last checkpoint and the recovery point, applied to the table of
    the run that starts steps out of order. *)
Lemma resume_from_last_is_last_checkpoint_witness :
  let self := started_out_of_order.1 in
  let rows :=
    filter (λ r, SQLite.r_workflow_id r = "wf") (SQLite.table (_backend self)) in
  recovery_mode self = RESUME_FROM_LAST
  ∧ Forall (λ r, ∃ cp, SQLite._row_to_checkpoint Json.loads r = Ok cp) rows
  ∧ NoDup (SQLite.r_step_index <$> rows)
  ∧ get_recovery_point (backend := sqlite_backend) "wf" self
    = get_last_checkpoint (CheckpointBackend := sqlite_backend) "wf" (_backend self).
Proof.
  intros self rows.
  eassert (Hrows : rows = _) by (unfold rows, self; vm_compute; reflexivity).
  assert (Hmode : recovery_mode self = RESUME_FROM_LAST) by reflexivity.
  assert (Hdec : Forall (λ r, ∃ cp, SQLite._row_to_checkpoint Json.loads r = Ok cp) rows).
  { rewrite Hrows. repeat constructor; eexists; vm_compute; reflexivity. }
  assert (Hnd : NoDup (SQLite.r_step_index <$> rows)).
  { rewrite Hrows. apply (bool_decide_unpack _). vm_compute. exact I. }
  split; [exact Hmode|]. split; [exact Hdec|]. split; [exact Hnd|].
  exact (proj2 resume_from_last_is_last_checkpoint Json.dumps Json.loads self "wf"
           Hmode Hdec Hnd).
Defined.

(** Ending the one open step of a workflow, applied to a checkpointer
    that has started one step. *)
Lemma operations_and_incomplete_workflows_witness :
  let started :=
    checkpoint_start "wf" "step_1" 0 (VDict []) VNone
      (memory_checkpointer RESUME_FROM_LAST) example_clock in
  let completed :=
    checkpoint_complete started.1.1.2 (VDict []) started.1.2 started.2 in
  dict_ok (Memory._checkpoints (_backend started.1.2))
  ∧ keyed_by_id (Memory._checkpoints (_backend started.1.2))
  ∧ ("wf" ∈ get_incomplete_workflows (_backend started.1.2))
  ∧ ("wf" ∉ get_incomplete_workflows (_backend completed.1.2)).
Proof.
  intros started completed.
  assert (Hok : dict_ok (Memory._checkpoints (_backend started.1.2))).
  { apply dict_ok_set, NoDup_nil_2. }
  assert (Hkeyed : keyed_by_id (Memory._checkpoints (_backend started.1.2))).
  { intros key c Hin. cbv in Hin.
    apply elem_of_cons in Hin as [Heq | Hin]; [by injection Heq as -> ->|].
    by apply elem_of_nil in Hin. }
  destruct (proj1 operations_and_incomplete_workflows
              (memory_checkpointer RESUME_FROM_LAST) example_clock)
    as [Hstart _].
  destruct (proj1 operations_and_incomplete_workflows started.1.2 started.2)
    as [_ Hend].
  split; [exact Hok|]. split; [exact Hkeyed|]. split; [apply Hstart|].
  destruct (Hend Hok Hkeyed started.1.1.2 (VDict []) "" "wf") as (Hiff & _ & _).
  intros Hin. apply Hiff in Hin as (key & cp & Hcp & Hne & _).
  cbv in Hcp. apply elem_of_cons in Hcp as [Heq | Hcp].
  - injection Heq as -> _. by apply Hne.
  - by apply elem_of_nil in Hcp.
Defined.

(** Cleanup, applied to the run of the recovery tests. *)
Lemma cleanup_forgets_workflow_witness :
  let self := (one_running_one_done).1 in
  let self' := (cleanup_workflow "wf1" self).2 in
  dict_ok (Memory._checkpoints (_backend self))
  ∧ ("wf1" ∈ Checkpointer_get_incomplete_workflows self)
  ∧ ("wf1" ∉ Checkpointer_get_incomplete_workflows self')
  ∧ get_recovery_point "wf1" self' = Ok None.
Proof.
  intros self self'.
  assert (Hok : dict_ok (Memory._checkpoints (_backend self))).
  { unfold dict_ok. apply (bool_decide_unpack _). vm_compute. exact I. }
  destruct (proj1 cleanup_forgets_workflow self "wf1" Hok) as (Hnot & Hnone & _).
  split; [exact Hok|]. split; [|split; [exact Hnot|exact Hnone]].
  apply (bool_decide_unpack _). vm_compute. exact I.
Defined.

(** A scope, applied to a new checkpointer and the body of the test of a
    failing context. *)
Lemma scope_leaves_one_checkpoint_witness :
  let e := {| exc_type := "ValueError"; exc_str := "Test error" |} in
  let cpr := memory_checkpointer RESUME_FROM_LAST in
  let result :=
    with_sync (context "wf" "step_1" 0 (VDict [("x", VInt 1)]) VNone)
      [RaiseStmt e] cpr example_clock in
  (∀ cp, cp ∈ dict_values (Memory._checkpoints (_backend cpr)) →
         workflow_id cp ≠ "wf")
  ∧ result.1.1.1 = Some e
  ∧ ∃ cp, list_checkpoints "wf" result.1.2 = Ok [cp]
          ∧ status cp = FAILED ∧ error cp = Some "Test error".
Proof.
  intros e cpr result.
  assert (Hnone : ∀ cp, cp ∈ dict_values (Memory._checkpoints (_backend cpr)) →
                        workflow_id cp ≠ "wf")
    by (intros cp Hcp; by apply elem_of_nil in Hcp).
  destruct (scope_leaves_one_checkpoint cpr example_clock "wf" "step_1" 0%Z
              (VDict [("x", VInt 1)]) VNone [RaiseStmt e] Hnone)
    as (Hexc & cp & Hlist & _ & _ & _ & _ & _ & Hfailed & _).
  split; [exact Hnone|]. split; [exact Hexc|].
  exists cp. simpl in Hfailed. destruct Hfailed as (Hst & Herr & _).
  split; [exact Hlist|]. split; [exact Hst|exact Herr].
Defined.

(** ** One workflow seen beside another *)

Lemma generate_checkpoint_id_eq (wf1 wf2 : string) (i1 i2 : Z) :
  generate_checkpoint_id wf1 i1 = generate_checkpoint_id wf2 i2 →
  wf1 = wf2 ∧ i1 = i2.
Proof.
  intros Heq. apply (f_equal String.list_ascii_of_string) in Heq.
  rewrite !generate_checkpoint_id_chars in Heq.
  apply split_at_last in Heq as [Hwf Hi]; [|apply pretty_Z_no_underscore..].
  apply app_inv_tail in Hwf. apply chars_inj in Hwf, Hi.
  split; [done|]. by apply (inj pretty).
Qed.

(** Setting a key does not touch the entries that a predicate selects,
    when it selects neither the new entry nor the one that was there. *)
Lemma filter_dict_set_other {V} (P : string * V → Prop)
    `{!∀ x, Decision (P x)} k v (d : list (string * V)) :
  ¬ P (k, v) → (∀ x, (k, x) ∈ d → ¬ P (k, x)) →
  filter P (dict_set k v d) = filter P d.
Proof.
  intros Hv. induction d as [|[k0 v0] d IH]; intros Hd; simpl.
  - by rewrite filter_cons_False.
  - case_decide as Hk.
    + subst k0. rewrite !filter_cons_False; [done| |done].
      apply Hd. by left.
    + rewrite !filter_cons. rewrite IH; [done|].
      intros x Hx. apply Hd. by right.
Qed.

(** The entries of a workflow decide what is shown of it. *)
Lemma same_entries_shows_the_same wf
    (self self' : Checkpointer Memory.MemoryCheckpointBackend) :
  recovery_mode self' = recovery_mode self →
  filter (λ kv : string * Checkpoint, workflow_id kv.2 = wf)
    (Memory._checkpoints (_backend self'))
  = filter (λ kv : string * Checkpoint, workflow_id kv.2 = wf)
      (Memory._checkpoints (_backend self)) →
  shows_the_same wf self self'.
Proof.
  intros Hmode Heq.
  assert (Hlist : Memory.list_workflow_checkpoints wf (_backend self')
                  = Memory.list_workflow_checkpoints wf (_backend self)).
  { unfold Memory.list_workflow_checkpoints. simpl.
    by rewrite !(filter_values (λ cp, workflow_id cp = wf)), Heq. }
  unfold shows_the_same, list_checkpoints, get_recovery_point,
    Checkpointer_get_incomplete_workflows.
  cbn [list_workflow_checkpoints get_incomplete_workflows Memory_backend].
  rewrite Hlist, Hmode. split_and!; [done..|].
  rewrite !Memory_incomplete_iff.
  assert (Hin : ∀ key cp, workflow_id cp = wf →
            (key, cp) ∈ Memory._checkpoints (_backend self')
            ↔ (key, cp) ∈ Memory._checkpoints (_backend self)).
  { intros key cp Hwf.
    trans ((key, cp) ∈ filter (λ kv : string * Checkpoint, workflow_id kv.2 = wf)
                         (Memory._checkpoints (_backend self'))).
    - rewrite list_elem_of_filter. simpl. split; [done|by intros [_ ?]].
    - rewrite Heq, list_elem_of_filter. simpl. split; [by intros [_ ?]|done]. }
  split; intros (key & cp & Hcp & Hwf & Hst); exists key, cp;
    (split; [by apply (Hin key cp Hwf)|done]).
Qed.

(** Saving a checkpoint of one workflow under the id of its step, in a
    dictionary that is keyed by step, keeps the entries of the others. *)
Lemma filter_other_workflow_set wf other cp (d : list (string * Checkpoint)) :
  keyed_by_step d → wf ≠ other → workflow_id cp = wf →
  id cp = generate_checkpoint_id wf (step_index cp) →
  filter (λ kv : string * Checkpoint, workflow_id kv.2 = other)
    (dict_set (id cp) cp d)
  = filter (λ kv : string * Checkpoint, workflow_id kv.2 = other) d.
Proof.
  intros Hkey Hne Hwf Hid. apply filter_dict_set_other; simpl.
  - congruence.
  - intros x Hx Hother. destruct (Hkey _ _ Hx) as [Hidx Hgen].
    rewrite Hid, Hgen in Hidx.
    apply generate_checkpoint_id_eq in Hidx as [Hw _]. congruence.
Qed.

(** X11. In a state that operations reach on the in-memory backend, an
    operation on one workflow leaves what is shown of every other workflow
    as it is: its checkpoints, its recovery point, and whether it is
    incomplete.  This holds for starting a step, for completing, failing
    and marking as recovered a record of the workflow, for a whole scope,
    and for the cleanup of the workflow. *)
Theorem operations_keep_other_workflows
    (self : Checkpointer Memory.MemoryCheckpointBackend) (wf other : string) :
  reachable self → wf ≠ other →
  (∀ name idx input meta k,
     shows_the_same other self
       (checkpoint_start wf name idx input meta self k).1.2)
  ∧ (∀ cp k, produced cp → workflow_id cp = wf →
       (∀ output,
          shows_the_same other self (checkpoint_complete cp output self k).1.2)
       ∧ (∀ err,
            shows_the_same other self (checkpoint_failed cp err self k).1.2)
       ∧ shows_the_same other self (mark_recovered cp self k).1.2)
  ∧ (∀ name idx input meta body k,
       shows_the_same other self
         (with_sync (context wf name idx input meta) body self k).1.2)
  ∧ shows_the_same other self (cleanup_workflow wf self).2.
Proof.
  intros Hreach Hne.
  pose proof (reachable_keyed self Hreach) as [Hok Hkey].
  assert (Hstart : ∀ name idx input meta k,
     shows_the_same other self
       (checkpoint_start wf name idx input meta self k).1.2).
  { intros name idx input meta k. apply same_entries_shows_the_same; [done|].
    rewrite Memory_checkpoint_start_eq. cbn [fst snd _backend Memory._checkpoints].
    by apply (filter_other_workflow_set wf other
                (started_record wf name idx input meta k)). }
  assert (Hend : ∀ cp k, produced cp → workflow_id cp = wf →
       (∀ output,
          shows_the_same other self (checkpoint_complete cp output self k).1.2)
       ∧ (∀ err,
            shows_the_same other self (checkpoint_failed cp err self k).1.2)
       ∧ shows_the_same other self (mark_recovered cp self k).1.2).
  { intros cp k Hcp%produced_id Hwf. rewrite Hwf in Hcp.
    split_and!; [intros output|intros err|];
      (apply same_entries_shows_the_same; [done|]); simpl.
    - by apply (filter_other_workflow_set wf other
                  (set_updated_at _ (set_output_data _ (set_status _ cp)))).
    - by apply (filter_other_workflow_set wf other
                  (set_updated_at _ (set_error _ (set_status _ cp)))).
    - by apply (filter_other_workflow_set wf other
                  (set_updated_at _ (set_status _ cp))). }
  split_and!; [done|done| |].
  - intros name idx input meta body k.
    rewrite Memory_with_sync_finished.
    apply same_entries_shows_the_same; [done|].
    cbn [fst snd _backend Memory._checkpoints].
    pose proof (finished_record_fields (context wf name idx input meta) body k)
      as Hfields.
    cbv zeta in Hfields. destruct Hfields as (Hid & Hwf & _ & Hidx & _).
    rewrite <-Hid.
    apply (filter_other_workflow_set wf other); [done..|].
    by rewrite Hid, Hidx.
  - apply same_entries_shows_the_same; [done|].
    unfold cleanup_workflow. cbn [delete_workflow_checkpoints Memory_backend].
    destruct (Memory.delete_workflow_checkpoints wf (_backend self))
      as [n b'] eqn:Hdel.
    assert (Hb' : Memory._checkpoints b'
              = filter (λ item, ¬ workflow_id item.2 = wf)
                  (Memory._checkpoints (_backend self))).
    { rewrite <-Memory_delete_state by done. by rewrite Hdel. }
    cbn [snd with_backend _backend Memory._checkpoints]. rewrite Hb'.
    rewrite list_filter_filter. apply list_filter_iff.
    intros [key cp]. simpl. split; [by intros [? ?]|].
    intros Hother. split; [done|congruence].
Qed.

(** Operations on a second workflow, applied to the run of the recovery
    tests. *)
Lemma operations_keep_other_workflows_witness :
  let self := (completed_then_failed RESTART_TASK).1 in
  let started :=
    checkpoint_start "wf2" "step_1" 0 (VDict []) VNone self example_clock in
  reachable self
  ∧ "wf2" ≠ "wf"
  ∧ list_checkpoints "wf" started.1.2 = list_checkpoints "wf" self
  ∧ get_recovery_point "wf" (cleanup_workflow "wf2" self).2
    = get_recovery_point "wf" self.
Proof.
  intros self started.
  assert (Hreach : reachable self).
  { unfold self, completed_then_failed. cbn [fst].
    apply reachable_failed; [|apply produced_start].
    apply reachable_start.
    apply reachable_complete; [|apply produced_start].
    apply reachable_start, reachable_init. }
  assert (Hne : "wf2" ≠ "wf") by discriminate.
  destruct (operations_keep_other_workflows self "wf2" "wf" Hreach Hne)
    as (Hstart & _ & _ & Hclean).
  split; [exact Hreach|]. split; [exact Hne|]. split.
  - exact (proj1 (Hstart "step_1" 0%Z (VDict []) VNone example_clock)).
  - exact (proj1 (proj2 Hclean)).
Defined.

(** ** The steps of a workflow, one scope each *)

(** What a scope does on the in-memory backend. *)
Lemma Memory_with_sync_eq (cpr : Checkpointer Memory.MemoryCheckpointBackend)
    k wf name idx input meta body :
  with_sync (context wf name idx input meta) body cpr k
  = ((run_body body (context wf name idx input meta)).2,
     set_checkpoint (scope_record wf name idx input meta body k)
       (run_body body (context wf name idx input meta)).1,
     {| _backend :=
          {| Memory._checkpoints :=
               dict_set (generate_checkpoint_id wf idx)
                 (scope_record wf name idx input meta body k)
                 (Memory._checkpoints (_backend cpr)) |};
        recovery_mode := recovery_mode cpr |},
     {| readings := readings k; ticks := 4 + ticks k |}).
Proof.
  unfold with_sync, with_stmt, __enter__, scope_record.
  change (checkpoint_start _ _ _ _ _ cpr k)
    with (checkpoint_start wf name idx input meta cpr k).
  rewrite Memory_checkpoint_start_eq, run_body_set_checkpoint.
  destruct (run_body body (context wf name idx input meta)) as [ctx exc].
  cbn [fst snd]. unfold __exit__. cbn [_checkpoint set_checkpoint _output].
  destruct exc as [e|]; [|destruct (_output ctx)];
    unfold checkpoint_failed, checkpoint_complete;
    rewrite Memory_save_eq;
    cbn [fst snd _backend with_backend Memory._checkpoints recovery_mode
         set_checkpoint _workflow_id _step_name _step_index _input_data
         _metadata _output output_or_empty];
    rewrite dict_set_set; reflexivity.
Qed.

(** Setting a key adds the new value to the selected values, when the
    value that was under the key was not selected. *)
Lemma filter_values_dict_set_perm {V} (P : V → Prop) `{!∀ x, Decision (P x)}
    k v (d : list (string * V)) :
  P v → (∀ x, (k, x) ∈ d → ¬ P x) →
  filter P (dict_values (dict_set k v d)) ≡ₚ filter P (dict_values d) ++ [v].
Proof.
  unfold dict_values. intros Hv.
  induction d as [|[k0 v0] d IH]; intros Hd; simpl.
  - by rewrite filter_cons_True.
  - case_decide as Hk; simpl.
    + subst k0. rewrite filter_cons_True by done.
      rewrite (filter_cons_False _ v0) by (apply Hd; left).
      by rewrite Permutation_app_comm.
    + rewrite !filter_cons.
      case_decide; simpl; by rewrite IH by (intros x Hx; apply Hd; by right).
Qed.

Lemma strictly_ascending_NoDup {A} (key : A → Z) (l : list A) :
  StronglySorted (λ a b, (key a < key b)%Z) l → NoDup (key <$> l).
Proof.
  induction 1 as [|x l _ IH Hx]; simpl; [apply NoDup_nil_2|].
  apply NoDup_cons. split; [|done].
  intros (y & Heq & Hy)%list_elem_of_fmap.
  rewrite Forall_forall in Hx. specialize (Hx y Hy). lia.
Qed.

(** Sorting a list by a key that is different for all its elements gives
    the one ascending order of the list. *)
Lemma sorted_by_key_perm_eq {A} (key : A → Z) (l l' : list A) :
  l ≡ₚ l' → StronglySorted (λ a b, (key a < key b)%Z) l' →
  sorted_by_key key l = l'.
Proof.
  intros Hperm Hs.
  pose proof (strictly_ascending_NoDup key l' Hs) as Hnd.
  assert (Hkeys : key <$> sorted_by_key key l = key <$> l').
  { apply (StronglySorted_unique Z.le).
    - apply (StronglySorted_fmap key (λ a b, key a ≤ key b)%Z Z.le); [done|].
      apply sorted_by_key_ascending.
    - apply (StronglySorted_fmap key (λ a b, key a < key b)%Z Z.le); [|done].
      intros a b. lia.
    - by rewrite sorted_by_key_perm, Hperm. }
  apply list_eq. intros p.
  apply (f_equal (λ ks, ks !! p)) in Hkeys. rewrite !list_lookup_fmap in Hkeys.
  destruct (sorted_by_key key l !! p) as [x|] eqn:Hx,
    (l' !! p) as [y|] eqn:Hy; simplify_eq/=; [|done].
  f_equal. apply (NoDup_fmap_elem_inj key l'); [done| |by eapply list_elem_of_lookup_2|done].
  rewrite <-Hperm, <-(sorted_by_key_perm key l). by eapply list_elem_of_lookup_2.
Qed.

Lemma ascending_from {A} (key : A → Z) (l : list A) (i : nat) :
  (∀ j x, l !! j = Some x → key x = Z.of_nat (i + j)) →
  StronglySorted (λ a b, (key a < key b)%Z) l.
Proof.
  revert i. induction l as [|x l IH]; intros i Hl; constructor.
  - apply (IH (S i)). intros j y Hy. rewrite (Hl (S j) y Hy). f_equal. lia.
  - apply Forall_forall. intros y [j Hj]%list_elem_of_lookup_1.
    rewrite (Hl 0%nat x eq_refl), (Hl (S j) y Hj). lia.
Qed.

Lemma first_match_all (P : Checkpoint → Prop) `{!∀ c, Decision (P c)}
    (l : list Checkpoint) :
  Forall P l → first_match (λ cp, bool_decide (P cp)) l = head l.
Proof. intros [|x l' Hx _]; simpl; [done|]. by rewrite bool_decide_eq_true_2. Qed.

Lemma first_match_none (P : Checkpoint → Prop) `{!∀ c, Decision (P c)}
    (l : list Checkpoint) :
  Forall (λ cp, ¬ P cp) l → first_match (λ cp, bool_decide (P cp)) l = None.
Proof.
  induction 1 as [|x l' Hx _ IH]; simpl; [done|].
  by rewrite bool_decide_eq_false_2.
Qed.

(** The fields of the record of a scope. *)
Lemma scope_record_fields wf name idx input meta body k :
  let cp := scope_record wf name idx input meta body k in
  let ran := run_body body (context wf name idx input meta) in
  id cp = generate_checkpoint_id wf idx ∧ workflow_id cp = wf
  ∧ step_name cp = name ∧ step_index cp = idx ∧ input_data cp = input
  ∧ match ran.2 with
    | Some e => status cp = FAILED ∧ error cp = Some (exc_str e)
    | None => status cp = COMPLETED ∧ error cp = None
              ∧ output_data cp = output_or_empty (_output ran.1)
    end.
Proof.
  unfold scope_record.
  by destruct (run_body body (context wf name idx input meta)).2.
Qed.

(** The loop from step [i] on, in a dictionary where the checkpoints of the
    workflow are under the ids of earlier steps. *)
Lemma for_each_step_from body wf todo :
  ∀ (i : nat) (cpr : Checkpointer Memory.MemoryCheckpointBackend) k,
  (∀ key c, (key, c) ∈ Memory._checkpoints (_backend cpr) → workflow_id c = wf →
     ∃ j, (j < i)%nat ∧ key = generate_checkpoint_id wf (Z.of_nat j)) →
  let result := for_each_step body wf i todo cpr k in
  ∃ cps,
    filter (λ cp, workflow_id cp = wf)
      (dict_values (Memory._checkpoints (_backend result.1.2)))
    ≡ₚ filter (λ cp, workflow_id cp = wf)
         (dict_values (Memory._checkpoints (_backend cpr))) ++ cps
    ∧ (∀ j cp, cps !! j = Some cp →
         ∃ name input k',
           todo !! j = Some (name, input)
           ∧ (run_body (body (i + j)%nat name)
                (context wf name (Z.of_nat (i + j)) input VNone)).2
             = (if decide (S j = length cps) then result.1.1 else None)
           ∧ cp = scope_record wf name (Z.of_nat (i + j)) input VNone
                    (body (i + j)%nat name) k')
    ∧ match result.1.1 with
      | None => length cps = length todo
      | Some e => cps ≠ []
      end.
Proof.
  induction todo as [|[name input] todo IH]; intros i cpr k Hkeys.
  - exists []. cbn [for_each_step fst snd]. split_and!; [by rewrite app_nil_r| |done].
    by intros j cp ?.
  - cbn [for_each_step].
    change (with_async ?mgr ?b cpr k) with (with_sync mgr b cpr k).
    rewrite Memory_with_sync_eq.
    set (cpF := scope_record wf name (Z.of_nat i) input VNone (body i name) k).
    set (d := Memory._checkpoints (_backend cpr)) in *.
    pose proof (scope_record_fields wf name (Z.of_nat i) input VNone
                  (body i name) k) as Hfields.
    cbv zeta in Hfields. fold cpF in Hfields.
    destruct Hfields as (Hid & Hwf & _ & _ & _ & Hst).
    assert (Hperm : filter (λ cp, workflow_id cp = wf)
                      (dict_values (dict_set (generate_checkpoint_id wf (Z.of_nat i)) cpF d))
                    ≡ₚ filter (λ cp, workflow_id cp = wf) (dict_values d) ++ [cpF]).
    { apply filter_values_dict_set_perm; [done|].
      intros x Hx Hx'. destruct (Hkeys _ _ Hx Hx') as (j & Hj & Heq).
      apply generate_checkpoint_id_eq in Heq as [_ Heq]. lia. }
    destruct (run_body (body i name) (context wf name (Z.of_nat i) input VNone)).2
      as [e|] eqn:Hexc.
    + exists [cpF]. cbn [fst snd _backend Memory._checkpoints]. split_and!; [done| |done].
      intros [|j] cp Hcp; [|done]. injection Hcp as <-.
      exists name, input, k. rewrite Nat.add_0_r. by split_and!.
    + edestruct (IH (S i)) as (cps & Hperm' & Hcps & Hlen).
      2:{ exists (cpF :: cps). split_and!.
          - rewrite Hperm'. cbn [_backend Memory._checkpoints].
            rewrite Hperm. by rewrite <-app_assoc.
          - intros [|j] cp Hcp.
            + injection Hcp as <-. exists name, input, k. rewrite Nat.add_0_r.
              split_and!; [done| |done]. rewrite Hexc.
              case_decide as Hl; [|done]. simpl in Hl.
              destruct cps; [|done].
              by destruct (for_each_step _ _ _ _ _ _).1.1.
            + destruct (Hcps j cp Hcp) as (name' & input' & k' & Hj & Hrun & ->).
              exists name', input', k'.
              replace (i + S j)%nat with (S i + j)%nat by lia.
              split_and!; [done| |done]. rewrite Hrun. simpl.
              case_decide; case_decide; done || lia.
          - destruct (for_each_step _ _ _ _ _ _).1.1; simpl; [done|].
            by rewrite Hlen. }
      cbn [_backend Memory._checkpoints]. intros key c Hin Hc.
      apply elem_of_dict_set in Hin as [[= -> ->]|Hin].
      * exists i. split; [lia|done].
      * destruct (Hkeys _ _ Hin Hc) as (j & Hj & ->). exists j. split; [lia|done].
Qed.

(** The recovery point on the in-memory backend, by the list of the
    workflow. *)
Lemma Memory_recovery_point_eq (b : Memory.MemoryCheckpointBackend)
    (mode : RecoveryMode) (wf : string) :
  let l := Memory.list_workflow_checkpoints wf b in
  get_recovery_point wf {| _backend := b; recovery_mode := mode |}
  = Ok match mode with
       | MANUAL => None
       | RESUME_FROM_LAST => last l
       | RESTART_TASK =>
           match first_match
                   (λ cp, bool_decide (status cp = FAILED ∨ status cp = IN_PROGRESS))
                   (reverse l) with
           | Some cp => Some cp
           | None => last l
           end
       | SKIP_FAILED =>
           first_match (λ cp, bool_decide (status cp = COMPLETED)) (reverse l)
       end.
Proof.
  intros l. unfold get_recovery_point.
  cbn [recovery_mode _backend list_workflow_checkpoints Memory_backend].
  fold l. destruct mode; simpl.
  - by destruct l.
  - destruct l as [|c l']; [done|]. by destruct (first_match _ _).
  - destruct l as [|c l']; [done|]. by destruct (first_match _ _).
  - done.
Qed.

(** X12. The steps of a workflow, run one scope each on the in-memory
    backend for a workflow that has no checkpoint yet.  The checkpoints of
    the workflow are then those of the steps that were entered, in order:
    the one of step [i] has index [i] and the name and input of the step.
    When no body raises there is one for every step and all are COMPLETED,
    and every recovery mode but MANUAL gives the last one.  When a body
    raises, the loop ends with its exception: the checkpoints before the
    last are COMPLETED, the last is FAILED with the text of the exception,
    and later steps have none; RESUME_FROM_LAST and RESTART_TASK give the
    failed one, SKIP_FAILED the one before it.  In both cases the workflow
    is not incomplete. *)
Theorem steps_leave_their_checkpoints
    (cpr : Checkpointer Memory.MemoryCheckpointBackend) (k : Clock)
    (body : nat → string → list stmt) (wf : string)
    (todo : list (string * value)) :
  (∀ cp, cp ∈ dict_values (Memory._checkpoints (_backend cpr)) →
         workflow_id cp ≠ wf) →
  let result := for_each_step body wf 0 todo cpr k in
  let recovery mode :=
    get_recovery_point wf
      {| _backend := _backend result.1.2; recovery_mode := mode |} in
  ∃ cps,
    list_checkpoints wf result.1.2 = Ok cps
    ∧ (∀ i cp, cps !! i = Some cp →
         ∃ name input,
           todo !! i = Some (name, input)
           ∧ id cp = generate_checkpoint_id wf (Z.of_nat i)
           ∧ workflow_id cp = wf ∧ step_name cp = name
           ∧ step_index cp = Z.of_nat i ∧ input_data cp = input
           ∧ (status cp = COMPLETED →
              error cp = None
              ∧ output_data cp
                = output_or_empty
                    (_output (run_body (body i name)
                                (context wf name (Z.of_nat i) input VNone)).1)))
    ∧ (wf ∉ Checkpointer_get_incomplete_workflows result.1.2)
    ∧ match result.1.1 with
      | None =>
          length cps = length todo
          ∧ Forall (λ cp, status cp = COMPLETED) cps
          ∧ ∀ mode, mode ≠ MANUAL → recovery mode = Ok (last cps)
      | Some e =>
          ∃ done failed,
            cps = done ++ [failed]
            ∧ Forall (λ cp, status cp = COMPLETED) done
            ∧ status failed = FAILED ∧ error failed = Some (exc_str e)
            ∧ recovery RESUME_FROM_LAST = Ok (Some failed)
            ∧ recovery RESTART_TASK = Ok (Some failed)
            ∧ recovery SKIP_FAILED = Ok (last done)
      end.
Proof.
  intros Hnone result recovery.
  destruct (for_each_step_from body wf todo 0 cpr k) as (cps & Hperm & Hcps & Hlen).
  { intros key c Hin Hc. destruct (Hnone c); [|done].
    apply list_elem_of_fmap. by exists (key, c). }
  fold result in Hperm, Hcps, Hlen.
  rewrite (filter_none _ (dict_values (Memory._checkpoints (_backend cpr))))
    in Hperm by (intros x Hx; by apply Hnone).
  cbn [app] in Hperm.
  assert (Hrec : ∀ j cp, cps !! j = Some cp →
            ∃ name input k',
              todo !! j = Some (name, input)
              ∧ (run_body (body j name)
                   (context wf name (Z.of_nat j) input VNone)).2
                = (if decide (S j = length cps) then result.1.1 else None)
              ∧ cp = scope_record wf name (Z.of_nat j) input VNone (body j name) k').
  { intros j cp Hj. exact (Hcps j cp Hj). }
  clear Hcps.
  assert (Hsorted : StronglySorted (λ a b, (step_index a < step_index b)%Z) cps).
  { apply (ascending_from step_index cps 0). intros j cp Hj.
    destruct (Hrec j cp Hj) as (name & input & k' & _ & _ & ->).
    by destruct (scope_record_fields wf name (Z.of_nat j) input VNone
                   (body j name) k') as (_ & _ & _ & ? & _). }
  assert (Hlist : Memory.list_workflow_checkpoints wf (_backend result.1.2) = cps).
  { unfold Memory.list_workflow_checkpoints. by apply sorted_by_key_perm_eq. }
  assert (Hstatus : ∀ j cp, cps !! j = Some cp →
            if decide (S j = length cps)
            then match result.1.1 with
                 | Some e => status cp = FAILED ∧ error cp = Some (exc_str e)
                 | None => status cp = COMPLETED
                 end
            else status cp = COMPLETED).
  { intros j cp Hj. destruct (Hrec j cp Hj) as (name & input & k' & _ & Hrun & ->).
    pose proof (scope_record_fields wf name (Z.of_nat j) input VNone
                  (body j name) k') as (_ & _ & _ & _ & _ & Hst).
    rewrite Hrun in Hst.
    case_decide; [destruct result.1.1|]; first [exact Hst|exact (proj1 Hst)]. }
  assert (Hrecovery : ∀ mode,
            recovery mode
            = Ok match mode with
                 | MANUAL => None
                 | RESUME_FROM_LAST => last cps
                 | RESTART_TASK =>
                     match first_match
                             (λ cp, bool_decide (status cp = FAILED
                                                 ∨ status cp = IN_PROGRESS))
                             (reverse cps) with
                     | Some cp => Some cp
                     | None => last cps
                     end
                 | SKIP_FAILED =>
                     first_match (λ cp, bool_decide (status cp = COMPLETED))
                       (reverse cps)
                 end).
  { intros mode. unfold recovery. rewrite Memory_recovery_point_eq.
    by rewrite Hlist. }
  exists cps. split_and!.
  - unfold list_checkpoints. cbn [list_workflow_checkpoints Memory_backend].
    by rewrite Hlist.
  - intros i cp Hi. destruct (Hrec i cp Hi) as (name & input & k' & Hstep & _ & ->).
    pose proof (scope_record_fields wf name (Z.of_nat i) input VNone
                  (body i name) k') as (? & ? & ? & ? & ? & Hst).
    exists name, input. split_and!; [done..|].
    intros Hc. cbv zeta in Hst.
    destruct (run_body (body i name) (context wf name (Z.of_nat i) input VNone)).2.
    + destruct Hst as [Hst _]. congruence.
    + by destruct Hst as (_ & ? & ?).
  - unfold Checkpointer_get_incomplete_workflows.
    cbn [get_incomplete_workflows Memory_backend].
    intros (key & c & Hin & Hwf & Hopen)%Memory_incomplete_iff.
    assert (Hc : c ∈ cps).
    { rewrite <-Hperm. apply list_elem_of_filter. split; [done|].
      apply list_elem_of_fmap. by exists (key, c). }
    apply list_elem_of_lookup_1 in Hc as [j Hj].
    pose proof (Hstatus j c Hj) as Hst.
    case_decide; [destruct result.1.1|]; destruct Hopen;
      first [congruence|destruct Hst; congruence].
  - destruct result.1.1 as [e|] eqn:Hexc.
    + destruct (exists_last Hlen) as (done & failed & Hsnoc).
      exists done, failed.
      pose proof (Hstatus (length done) failed) as Hfailed.
      rewrite Hsnoc, list_lookup_middle, length_app in Hfailed by done.
      simpl in Hfailed. rewrite decide_True in Hfailed by lia.
      destruct (Hfailed eq_refl) as [Hst Herr].
      assert (Hdone : Forall (λ cp, status cp = COMPLETED) done).
      { apply Forall_lookup. intros j cp Hj.
        pose proof (Hstatus j cp) as Hcp.
        rewrite Hsnoc, lookup_app_l, length_app in Hcp
          by by eapply lookup_lt_Some.
        apply lookup_lt_Some in Hj as Hlt. simpl in Hcp.
        rewrite decide_False in Hcp by lia. by apply Hcp. }
      split_and!; [done..| | |].
      * by rewrite Hrecovery, Hsnoc, last_snoc.
      * rewrite Hrecovery, Hsnoc, reverse_snoc. simpl.
        by rewrite bool_decide_eq_true_2 by by left.
      * rewrite Hrecovery, Hsnoc, reverse_snoc. simpl.
        rewrite bool_decide_eq_false_2 by congruence.
        rewrite (first_match_all (λ cp, status cp = COMPLETED))
          by by apply Forall_reverse.
        by rewrite head_reverse.
    + assert (Hall : Forall (λ cp, status cp = COMPLETED) cps).
      { apply Forall_lookup. intros j cp Hj.
        pose proof (Hstatus j cp Hj) as Hcp. by case_decide. }
      split_and!; [done..|].
      intros mode Hmode. rewrite Hrecovery. f_equal.
      destruct mode; [done| | |done].
      * rewrite (first_match_none (λ cp, status cp = FAILED ∨ status cp = IN_PROGRESS));
          [done|].
        apply Forall_reverse. eapply Forall_impl; [exact Hall|].
        intros cp Hcp [?|?]; congruence.
      * rewrite (first_match_all (λ cp, status cp = COMPLETED))
          by by apply Forall_reverse.
        by rewrite head_reverse.
Qed.

(** The workflow of the example, run on a new checkpointer. *)
Lemma steps_leave_their_checkpoints_witness :
  let cpr := memory_checkpointer RESUME_FROM_LAST in
  let wf := (generate_workflow_id "data_pipeline" 1700000000000 0).1 in
  let result := for_each_step step_body wf 0 steps cpr example_clock in
  (∀ cp, cp ∈ dict_values (Memory._checkpoints (_backend cpr)) →
         workflow_id cp ≠ wf)
  ∧ simulate_workflow 1700000000000 0 cpr example_clock
    = (inr wf, 1%nat, result.1.2, result.2)
  ∧ ∃ cps, list_checkpoints wf result.1.2 = Ok cps
           ∧ length cps = 4%nat
           ∧ Forall (λ cp, status cp = COMPLETED) cps.
Proof.
  intros cpr wf result.
  assert (Hnone : ∀ cp, cp ∈ dict_values (Memory._checkpoints (_backend cpr)) →
                        workflow_id cp ≠ wf)
    by (intros cp Hcp; by apply elem_of_nil in Hcp).
  assert (Hexc : result.1.1 = None) by (vm_compute; reflexivity).
  pose proof (steps_leave_their_checkpoints cpr example_clock step_body wf
                steps Hnone) as Hsteps.
  cbv zeta in Hsteps. fold result in Hsteps.
  destruct Hsteps as (cps & Hlist & _ & _ & Hend).
  rewrite Hexc in Hend. destruct Hend as (Hlen & Hall & _).
  split; [exact Hnone|]. split; [vm_compute; reflexivity|].
  exists cps. split; [exact Hlist|]. split; [exact Hlen|exact Hall].
Defined.

(** ** A row that does not decode *)

(** Mapping raises what the first element that fails raises; in a sorted
    list no element after it has a smaller key. *)
Lemma rmap_list_Raise {A B} (key : A → Z) (f : A → result B) (l : list A) x e :
  ascending key l → x ∈ l → f x = Raise e →
  ∃ x' e', x' ∈ l ∧ (key x' ≤ key x)%Z ∧ f x' = Raise e'
           ∧ rmap_list f l = Raise e'.
Proof.
  unfold ascending. induction 1 as [|a l Hl IH Ha]; [by intros ?%elem_of_nil|].
  intros Hx Hfx. rewrite Forall_forall in Ha. simpl.
  destruct (f a) as [b|e0] eqn:Hfa.
  - apply elem_of_cons in Hx as [->|Hx]; [congruence|].
    destruct (IH Hx Hfx) as (x' & e' & Hx' & Hle & Hfx' & Hall).
    exists x', e'. split_and!; [by right|done..|]. by rewrite Hall.
  - exists a, e0. split_and!; [by left| |done..].
    apply elem_of_cons in Hx as [->|Hx]; [lia|by apply Ha].
Qed.

(** X13. On the table, a row of a workflow that does not decode makes
    [list_checkpoints] of the workflow raise: the exception of a row of
    the workflow that does not decode and whose step index is not greater.
    [get_recovery_point] raises the same under every mode but MANUAL, under
    which it gives None without reading the table.  [get_last_checkpoint]
    decodes one row only, so it still gives the last checkpoint when the
    row with the greatest step index decodes.  A row whose status is no
    status value raises ValueError with that tag, whatever the JSON
    columns hold. *)
Theorem undecodable_row_raises
    (json_dumps : value → string) (json_loads : string → result value)
    (self : Checkpointer SQLite.SQLiteCheckpointBackend) (wf : string)
    (row : SQLite.Row) (e : exn) :
  let sqlite := SQLite_backend json_dumps json_loads in
  row ∈ SQLite.table (_backend self) →
  SQLite.r_workflow_id row = wf →
  SQLite._row_to_checkpoint json_loads row = Raise e →
  (∃ row' e',
     row' ∈ SQLite.table (_backend self) ∧ SQLite.r_workflow_id row' = wf
     ∧ (SQLite.r_step_index row' ≤ SQLite.r_step_index row)%Z
     ∧ SQLite._row_to_checkpoint json_loads row' = Raise e'
     ∧ list_checkpoints (backend := sqlite) wf self = Raise e'
     ∧ (recovery_mode self ≠ MANUAL →
        get_recovery_point (backend := sqlite) wf self = Raise e'))
  ∧ (recovery_mode self = MANUAL →
     get_recovery_point (backend := sqlite) wf self = Ok None)
  ∧ (∀ top cp,
       top ∈ SQLite.table (_backend self) → SQLite.r_workflow_id top = wf →
       (∀ r, r ∈ SQLite.table (_backend self) → SQLite.r_workflow_id r = wf →
             r = top ∨ (SQLite.r_step_index r < SQLite.r_step_index top)%Z) →
       SQLite._row_to_checkpoint json_loads top = Ok cp →
       get_last_checkpoint (CheckpointBackend := sqlite) wf (_backend self)
       = Ok (Some cp))
  ∧ (∀ r, (∀ s, SQLite.r_status r ≠ status_value s) →
          SQLite._row_to_checkpoint json_loads r
          = Raise (ValueError (SQLite.r_status r))).
Proof.
  intros sqlite Hrow Hwf Hdec. subst sqlite.
  set (rows := filter (λ r, SQLite.r_workflow_id r = wf)
                 (SQLite.table (_backend self))).
  assert (Hin : ∀ r, r ∈ rows
            ↔ SQLite.r_workflow_id r = wf ∧ r ∈ SQLite.table (_backend self)).
  { intros r. unfold rows. by rewrite list_elem_of_filter. }
  split_and!.
  - destruct (rmap_list_Raise SQLite.r_step_index
                (SQLite._row_to_checkpoint json_loads)
                (sorted_by_key SQLite.r_step_index rows) row e)
      as (row' & e' & Hrow' & Hle & Hdec' & Hall).
    { apply sorted_by_key_ascending. }
    { rewrite sorted_by_key_perm. by apply Hin. }
    { done. }
    rewrite sorted_by_key_perm in Hrow'. apply Hin in Hrow' as [Hwf' Hrow'].
    exists row', e'. split_and!; [done..| |].
    + unfold list_checkpoints.
      cbn [list_workflow_checkpoints SQLite_backend].
      unfold SQLite.list_workflow_checkpoints. by fold rows.
    + intros Hmode. unfold get_recovery_point.
      rewrite decide_False by done.
      cbn [list_workflow_checkpoints SQLite_backend].
      unfold SQLite.list_workflow_checkpoints. fold rows. by rewrite Hall.
  - intros Hmode. unfold get_recovery_point. by rewrite decide_True.
  - intros top cp Htop Htopwf Hgreatest Hcp.
    cbn [get_last_checkpoint SQLite_backend].
    unfold SQLite.get_last_checkpoint. fold rows.
    destruct (sorted_by_key (λ r, - SQLite.r_step_index r)%Z rows)
      as [|r rs] eqn:Hdesc.
    + pose proof (sorted_by_key_perm (λ r, - SQLite.r_step_index r)%Z rows) as Hp.
      rewrite Hdesc in Hp. apply Permutation_nil_l in Hp.
      assert (Ht : top ∈ rows) by by apply Hin.
      rewrite <-Hp in Ht. by apply elem_of_nil in Ht.
    + apply descending_head in Hdesc as [Hr Hmax].
      assert (r = top) as ->.
      { apply Hin in Hr as [Hrwf Hr].
        destruct (Hgreatest r Hr Hrwf) as [|Hlt]; [done|].
        assert (Ht : top ∈ rows) by by apply Hin.
        pose proof (Hmax top Ht). lia. }
      by rewrite Hcp.
  - intros r Hr. unfold SQLite._row_to_checkpoint, CheckpointStatus_of_value.
    repeat case_decide; try done.
    + by destruct (Hr PENDING).
    + by destruct (Hr IN_PROGRESS).
    + by destruct (Hr COMPLETED).
    + by destruct (Hr FAILED).
    + by destruct (Hr RECOVERED).
Qed.

(** A spoiled row of step 1, in the table of the run that starts steps
    out of order. *)
Lemma undecodable_row_raises_witness :
  spoiled_row ∈ SQLite.table (_backend spoiled)
  ∧ SQLite.r_workflow_id spoiled_row = "wf"
  ∧ SQLite._row_to_checkpoint Json.loads spoiled_row = Raise (ValueError "done")
  ∧ (∃ e', list_checkpoints (backend := sqlite_backend) "wf" spoiled = Raise e'
           ∧ get_recovery_point (backend := sqlite_backend) "wf" spoiled = Raise e')
  ∧ ∃ cp, get_last_checkpoint (CheckpointBackend := sqlite_backend) "wf"
            (_backend spoiled) = Ok (Some cp)
          ∧ step_index cp = 2%Z.
Proof.
  assert (Hrow : spoiled_row ∈ SQLite.table (_backend spoiled)).
  { unfold spoiled, SQLite.insert_or_replace. cbn [_backend SQLite.table].
    apply elem_of_app. right. apply list_elem_of_here. }
  assert (Hwf : SQLite.r_workflow_id spoiled_row = "wf") by reflexivity.
  assert (Hdec : SQLite._row_to_checkpoint Json.loads spoiled_row
                 = Raise (ValueError "done")) by (vm_compute; reflexivity).
  destruct (undecodable_row_raises Json.dumps Json.loads spoiled "wf"
              spoiled_row (ValueError "done") Hrow Hwf Hdec)
    as ((row' & e' & _ & _ & _ & _ & Hlist & Hrec) & _ & _ & _).
  split; [exact Hrow|]. split; [exact Hwf|]. split; [exact Hdec|]. split.
  - exists e'. split; [exact Hlist|]. apply Hrec. discriminate.
  - eexists. split; [vm_compute; reflexivity|reflexivity].
Defined.

(** ** Finishing a step that is stored *)

Lemma fmap_ext_on {A B} (f g : A → B) (l : list A) :
  (∀ x, x ∈ l → f x = g x) → f <$> l = g <$> l.
Proof.
  induction l as [|a l IH]; intros Hl; [done|]. rewrite !fmap_cons.
  f_equal; [apply Hl; left|]. apply IH. intros x Hx. apply Hl. by right.
Qed.

Lemma fmap_id_on {A} (g : A → A) (l : list A) :
  (∀ x, x ∈ l → g x = x) → g <$> l = l.
Proof.
  induction l as [|a l IH]; intros Hl; [done|]. rewrite fmap_cons.
  f_equal; [apply Hl; left|]. apply IH. intros x Hx. apply Hl. by right.
Qed.

Lemma filter_fmap_kept {A} (P : A → Prop) `{!∀ x, Decision (P x)}
    (g : A → A) (l : list A) :
  (∀ x, P (g x) ↔ P x) → filter P (g <$> l) = g <$> filter P l.
Proof.
  intros Hg. induction l as [|a l IH]; [done|]. rewrite fmap_cons.
  rewrite !filter_cons, IH.
  destruct (decide (P (g a))) as [H1|H1], (decide (P a)) as [H2|H2];
    [done|destruct H2; by apply Hg|destruct H1; by apply Hg|done].
Qed.

Lemma insert_by_key_fmap {A} (key : A → Z) (g : A → A) x (l : list A) :
  (∀ y, key (g y) = key y) →
  insert_by_key key (g x) (g <$> l) = g <$> insert_by_key key x l.
Proof.
  intros Hg. induction l as [|a l IH]; [done|].
  rewrite fmap_cons. cbn [insert_by_key]. rewrite !Hg.
  destruct (key x <=? key a)%Z; [by rewrite !fmap_cons|].
  by rewrite fmap_cons, IH.
Qed.

Lemma sorted_by_key_fmap {A} (key : A → Z) (g : A → A) (l : list A) :
  (∀ y, key (g y) = key y) →
  sorted_by_key key (g <$> l) = g <$> sorted_by_key key l.
Proof.
  intros Hg. induction l as [|a l IH]; [done|].
  rewrite fmap_cons. cbn [sorted_by_key]. by rewrite IH, insert_by_key_fmap.
Qed.

(** Saving a record under an id that is a key of a dictionary keyed by step
    replaces the record of its workflow and step, and nothing else. *)
Lemma values_dict_set_replace (d : list (string * Checkpoint)) v :
  dict_ok d → keyed_by_step d →
  id v = generate_checkpoint_id (workflow_id v) (step_index v) →
  id v ∈ dict_keys d →
  dict_values (dict_set (id v) v d)
  = (λ c, if decide (workflow_id c = workflow_id v ∧ step_index c = step_index v)
          then v else c) <$> dict_values d.
Proof.
  intros Hok Hkey Hv.
  assert (Hsame : ∀ key c, (key, c) ∈ d →
            key = id v ↔ workflow_id c = workflow_id v ∧ step_index c = step_index v).
  { intros key c Hc. destruct (Hkey _ _ Hc) as [-> Hid]. rewrite Hid, Hv. split.
    - by intros ?%generate_checkpoint_id_eq.
    - by intros [-> ->]. }
  clear Hkey. unfold dict_ok, dict_keys, dict_values in *.
  induction d as [|[k0 c0] d IH]; [by intros ?%elem_of_nil|].
  apply NoDup_cons in Hok as [Hk0 Hok]. cbn [dict_set fmap list_fmap fst snd].
  intros Hin. case_decide as Hk.
  - cbn [fmap list_fmap snd]. rewrite decide_True by (apply (Hsame k0); [left|done]).
    f_equal. symmetry. apply fmap_id_on.
    intros c ([key c'] & -> & Hc)%list_elem_of_fmap. simpl.
    rewrite decide_False; [done|]. intros Heq.
    apply (Hsame key c') in Heq; [|by right]. subst key. apply Hk0.
    rewrite Hk. apply list_elem_of_fmap. by exists (id v, c').
  - cbn [fmap list_fmap snd].
    rewrite decide_False by (intros Heq; apply Hk; apply (Hsame k0 c0); [left|done]).
    f_equal. apply IH; [done| |].
    + intros key c Hc. apply Hsame. by right.
    + apply elem_of_cons in Hin as [Heq|Hin]; [by destruct Hk|done].
Qed.

(** X14. In a state that operations reach on the in-memory backend,
    completing, failing or marking as recovered a record whose id is
    stored raises nothing and changes the list of its workflow in one
    place only: the record of its step is replaced by the record as the
    operation hands it back; no checkpoint is added, dropped or moved. *)
Theorem finishing_replaces_in_place
    (self : Checkpointer Memory.MemoryCheckpointBackend) (cp : Checkpoint)
    (k : Clock) :
  reachable self → produced cp →
  id cp ∈ dict_keys (Memory._checkpoints (_backend self)) →
  let before := Memory.list_workflow_checkpoints (workflow_id cp) (_backend self) in
  (∀ output,
     let r := checkpoint_complete cp output self k in
     r.1.1.1 = None
     ∧ list_checkpoints (workflow_id cp) r.1.2
       = Ok (with_step_replaced r.1.1.2 before))
  ∧ (∀ err,
       let r := checkpoint_failed cp err self k in
       r.1.1.1 = None
       ∧ list_checkpoints (workflow_id cp) r.1.2
         = Ok (with_step_replaced r.1.1.2 before))
  ∧ (let r := mark_recovered cp self k in
     r.1.1.1 = None
     ∧ list_checkpoints (workflow_id cp) r.1.2
       = Ok (with_step_replaced r.1.1.2 before)).
Proof.
  intros [Hok Hkey]%reachable_keyed Hcp%produced_id Hin before.
  set (d := Memory._checkpoints (_backend self)) in *.
  assert (Hsave : ∀ key v, key = id cp → id v = id cp →
            workflow_id v = workflow_id cp → step_index v = step_index cp →
            Memory.list_workflow_checkpoints (workflow_id cp)
              {| Memory._checkpoints := dict_set key v d |}
            = with_step_replaced v before).
  { intros key v -> Hid Hwf Hidx. unfold Memory.list_workflow_checkpoints.
    cbn [Memory._checkpoints]. rewrite <-Hid.
    rewrite values_dict_set_replace; [|done|done|congruence|by rewrite Hid].
    rewrite filter_fmap_kept
      by (intros c; case_decide as Hc; [destruct Hc; split; congruence|done]).
    rewrite sorted_by_key_fmap
      by (intros c; case_decide as Hc; [destruct Hc; congruence|done]).
    unfold with_step_replaced, before, Memory.list_workflow_checkpoints. fold d.
    apply fmap_ext_on. intros c Hc. rewrite sorted_by_key_perm in Hc.
    apply list_elem_of_filter in Hc as [Hc _].
    apply decide_ext. split; [by intros [_ ?]|]. intros ?. split; congruence. }
  unfold list_checkpoints. cbn [list_workflow_checkpoints Memory_backend].
  split; [|split]; [intros output|intros err|]; cbv zeta;
    unfold checkpoint_complete, checkpoint_failed, mark_recovered;
    rewrite Memory_save_eq; cbn [fst snd _backend with_backend];
    (split; [done|]); f_equal.
  all: by apply Hsave.
Qed.

(** Marking the failed step of the run of the recovery tests as
    recovered. *)
Lemma finishing_replaces_in_place_witness :
  let self := (completed_then_failed RESTART_TASK).1 in
  let cp := (checkpoint_start "wf" "step_2" 1 (VDict []) VNone
               (memory_checkpointer RESTART_TASK) example_clock).1.1.2 in
  let r := mark_recovered cp self example_clock in
  reachable self
  ∧ produced (backend := Memory_backend) cp
  ∧ id cp ∈ dict_keys (Memory._checkpoints (_backend self))
  ∧ ∃ l, list_checkpoints "wf" r.1.2 = Ok l
         ∧ length l = 2%nat ∧ status <$> l = [COMPLETED; RECOVERED].
Proof.
  intros self cp r.
  assert (Hreach : reachable self).
  { unfold self, completed_then_failed. cbn [fst].
    apply reachable_failed; [|apply produced_start].
    apply reachable_start.
    apply reachable_complete; [|apply produced_start].
    apply reachable_start, reachable_init. }
  assert (Hcp : produced (backend := Memory_backend) cp) by apply produced_start.
  assert (Hin : id cp ∈ dict_keys (Memory._checkpoints (_backend self))).
  { apply (bool_decide_unpack _). vm_compute. exact I. }
  destruct (finishing_replaces_in_place self cp example_clock Hreach Hcp Hin)
    as (_ & _ & _ & Hrec).
  split; [exact Hreach|]. split; [exact Hcp|]. split; [exact Hin|].
  eexists. split; [exact Hrec|]. split; vm_compute; reflexivity.
Defined.
